(** * gtfs-cta.js: the CTA GTFS index and the nearby-stops query

    A shallow embedding of [src/gtfs-cta.js] and, of [ai-proxy.js], of the
    route that calls it, of the session store, of the list of train arrivals
    and of the loader of the environment file, followed by the properties of
    the specification that can be stated on it and by the edge cases,
    invariants and compositions the code shows.  Conventions:

    - JavaScript strings are [string]s (byte strings, read as UTF-8).  The
      only characters the code inspects are the double quote, the comma and
      the line ends, all ASCII, so the byte view and the UTF-16 view agree.
    - A JavaScript number that the code has tested to be finite is a real
      number ([R]); one that can be NaN or an infinity is a [jsnum]:
      [Number(limit)], [Number(radiusMeters)], the numeric cells of the
      feed, and the distance [haversineMiles] computes.  The double
      arithmetic of [haversineMiles] is a parameter, an [Arith], and what
      is stated of a distance is stated for every [Arith]; the examples run
      on [realArith], which does not round but overflows and gives NaN as
      doubles do.  The clamps, the division of the radius and [toFixed] are
      taken on the reals, without rounding.  [Number] on a string is a
      parameter of the builder.
    - A JavaScript [Map] is an association list in insertion order, a [Set]
      of strings a duplicate-free list in insertion order.
    - The module-level variables [cache], [cacheLoadedAt] and [inFlight],
      the two cache files and the calls made to [fetchFn] are fields of an
      explicit [World].  JavaScript runs one callback at a time, so the
      interleavings of concurrent callers are the sequences of [Event]s: a
      call of [getIndex], the answer of the fetch, the end of the archive
      read, the [then] reaction and the [finally] reaction.
    - File-system calls succeed, except the write of the metadata sidecar,
      whose failure the code catches.
    - What the proxy takes from its environment is an argument: the random
      token of a session, [String.prototype.trim], and [Date.parse] for
      the train arrivals. *)

From Stdlib Require Import List String Ascii Bool Arith ZArith Lia.
From Stdlib Require Import Reals Lra R_Ifp.
From Stdlib Require Import Permutation Sorted.
Import ListNotations.

Open Scope string_scope.
Open Scope list_scope.

(* ================================================================= *)
(** ** JavaScript values *)

(** The result of [Number(v)] for an arbitrary value [v]. *)
Inductive jsnum : Type :=
| NaN
| PosInf
| NegInf
| Fin (r : R).

(** [undefined] and the empty string are the two falsy cell values. *)
Definition truthy (c : option string) : bool :=
  match c with
  | Some EmptyString => false
  | Some _ => true
  | None => false
  end.

(** [c || d] for a cell [c] and a string default [d]. *)
Definition orElse (c : option string) (d : string) : string :=
  match c with
  | Some EmptyString => d
  | Some s => s
  | None => d
  end.

(** [c || null]. *)
Definition orNull (c : option string) : option string :=
  if truthy c then c else None.

Definition dquote : ascii := "034"%char.
Definition comma : ascii := ","%char.

(* ----------------------------------------------------------------- *)
(** *** Map and Set *)

Module JsMap.

Definition t (V : Type) : Type := list (string * V).

Definition empty {V : Type} : t V := [].

Fixpoint get {V : Type} (k : string) (m : t V) : option V :=
  match m with
  | [] => None
  | (k', v) :: rest => if String.eqb k k' then Some v else get k rest
  end.

(** [m.set(k, v)]: an existing key keeps its position, a new key goes last. *)
Fixpoint set {V : Type} (k : string) (v : V) (m : t V) : t V :=
  match m with
  | [] => [(k, v)]
  | (k', v') :: rest =>
      if String.eqb k k' then (k', v) :: rest else (k', v') :: set k v rest
  end.

Definition keys {V : Type} (m : t V) : list string := map fst m.

Definition values {V : Type} (m : t V) : list V := map snd m.

Definition has {V : Type} (k : string) (m : t V) : bool :=
  match get k m with Some _ => true | None => false end.

End JsMap.

Module JsSet.

Definition t : Type := list string.

Definition has (x : string) (s : t) : bool := existsb (String.eqb x) s.

Definition add (x : string) (s : t) : t := if has x s then s else s ++ [x].

Definition size (s : t) : nat := List.length s.

End JsSet.

(* ================================================================= *)
(** ** Flat-record parser *)

(** The loop of [parseCsvLine], from position [i] on: [line] is what is left
    of the input, [out], [cur] and [inQuotes] are the loop's variables. *)
Fixpoint parseCsvFrom (line : string) (out : list string) (cur : string)
    (inQuotes : bool) : list string :=
  match line with
  | EmptyString => out ++ [cur]
  | String ch rest =>
      if Ascii.eqb ch dquote then
        match rest with
        | String next rest' =>
            if inQuotes && Ascii.eqb next dquote
            then parseCsvFrom rest' out (cur ++ String dquote "")%string inQuotes
            else parseCsvFrom rest out cur (negb inQuotes)
        | EmptyString => parseCsvFrom rest out cur (negb inQuotes)
        end
      else if Ascii.eqb ch comma && negb inQuotes then
        parseCsvFrom rest (out ++ [cur]) "" inQuotes
      else parseCsvFrom rest out (cur ++ String ch "")%string inQuotes
  end.

Definition parseCsvLine (line : string) : list string :=
  parseCsvFrom line [] "" false.

(** Writing side used to state what quoting means: a field between double
    quotes, every double quote of the field doubled. *)
Fixpoint escapeQuotes (s : string) : string :=
  match s with
  | EmptyString => EmptyString
  | String ch rest =>
      if Ascii.eqb ch dquote
      then String dquote (String dquote (escapeQuotes rest))
      else String ch (escapeQuotes rest)
  end.

Definition quoteField (s : string) : string :=
  String dquote (escapeQuotes s ++ String dquote "")%string.

Fixpoint joinComma (fields : list string) : string :=
  match fields with
  | [] => ""
  | [f] => f
  | f :: rest => (f ++ String comma (joinComma rest))%string
  end.

(** The input row of the specification's round-trip example. *)
Definition exampleRow : string :=
  joinComma [quoteField "5,000";
             String dquote ("He said " ++ String dquote (String dquote
               ("hi" ++ String dquote (String dquote (String dquote "")))))%string;
             "42"].

(* ================================================================= *)
(** ** Distance utility *)

(** [haversineMiles] works on doubles.  What it is made of are the fields
    of an [Arith]: the constant [Math.PI], the four operations, [x ** 2],
    and [Math.sin], [Math.cos], [Math.sqrt] and [Math.atan2], each on
    numbers that may be NaN or infinite.  What is stated for every [Arith] holds of
    the arithmetic of the engine, whatever it rounds to and wherever it
    overflows.  The two zeros of the doubles are one number here: the
    formula squares its sines and adds before it takes a root, so the sign
    of a zero never reaches the result. *)
Record Arith : Type := {
  js_pi : jsnum;
  js_add : jsnum -> jsnum -> jsnum;
  js_sub : jsnum -> jsnum -> jsnum;
  js_mul : jsnum -> jsnum -> jsnum;
  js_div : jsnum -> jsnum -> jsnum;
  js_sq : jsnum -> jsnum;
  js_sin : jsnum -> jsnum;
  js_cos : jsnum -> jsnum;
  js_sqrt : jsnum -> jsnum;
  js_atan2 : jsnum -> jsnum -> jsnum
}.

Open Scope R_scope.

(** Earth radius in miles, the constant [R] of [haversineMiles]. *)
Definition EARTH_RADIUS_MI : R := 3958.7613.

Section Distance.

Variable ar : Arith.

(** [(d * Math.PI) / 180]. *)
Definition toRad (d : jsnum) : jsnum :=
  js_div ar (js_mul ar d (js_pi ar)) (Fin 180).

(** The haversine term [a] of [haversineMiles]. *)
Definition haversineA (lat1 lon1 lat2 lon2 : R) : jsnum :=
  let dLat := toRad (js_sub ar (Fin lat2) (Fin lat1)) in
  let dLon := toRad (js_sub ar (Fin lon2) (Fin lon1)) in
  js_add ar
    (js_sq ar (js_sin ar (js_div ar dLat (Fin 2))))
    (js_mul ar
       (js_mul ar (js_cos ar (toRad (Fin lat1))) (js_cos ar (toRad (Fin lat2))))
       (js_sq ar (js_sin ar (js_div ar dLon (Fin 2))))).

(** The distance as the engine computes it: a number, or NaN. *)
Definition haversineMiles (lat1 lon1 lat2 lon2 : R) : jsnum :=
  let a := haversineA lat1 lon1 lat2 lon2 in
  js_mul ar (js_mul ar (Fin 2) (Fin EARTH_RADIUS_MI))
    (js_atan2 ar (js_sqrt ar a) (js_sqrt ar (js_sub ar (Fin 1) a))).

End Distance.

(* ----------------------------------------------------------------- *)
(** *** Arithmetic without rounding *)

(** The arithmetic of the examples: exact on the reals within the range of
    doubles, infinite beyond it, and NaN where IEEE 754 gives NaN.  It does
    not round, and its [Math.PI] is the number pi. *)

(** [Number.MAX_VALUE], as JavaScript prints it. *)
Definition MAX_VALUE : R := 1.7976931348623157e308.

Definition clip (r : R) : jsnum :=
  if Rlt_dec MAX_VALUE r then PosInf
  else if Rlt_dec r (- MAX_VALUE) then NegInf
  else Fin r.

Definition exactAdd (a b : jsnum) : jsnum :=
  match a, b with
  | NaN, _ | _, NaN => NaN
  | PosInf, NegInf | NegInf, PosInf => NaN
  | PosInf, _ | _, PosInf => PosInf
  | NegInf, _ | _, NegInf => NegInf
  | Fin x, Fin y => clip (x + y)
  end.

Definition exactSub (a b : jsnum) : jsnum :=
  match a, b with
  | NaN, _ | _, NaN => NaN
  | PosInf, PosInf | NegInf, NegInf => NaN
  | PosInf, _ | _, NegInf => PosInf
  | NegInf, _ | _, PosInf => NegInf
  | Fin x, Fin y => clip (x - y)
  end.

(** An infinity of the given sign times a finite [r]. *)
Definition infTimes (positive : bool) (r : R) : jsnum :=
  if Req_dec_T r 0 then NaN
  else if Rlt_dec 0 r then (if positive then PosInf else NegInf)
  else (if positive then NegInf else PosInf).

Definition exactMul (a b : jsnum) : jsnum :=
  match a, b with
  | NaN, _ | _, NaN => NaN
  | PosInf, PosInf | NegInf, NegInf => PosInf
  | PosInf, NegInf | NegInf, PosInf => NegInf
  | PosInf, Fin r | Fin r, PosInf => infTimes true r
  | NegInf, Fin r | Fin r, NegInf => infTimes false r
  | Fin x, Fin y => clip (x * y)
  end.

Definition exactDiv (a b : jsnum) : jsnum :=
  match a, b with
  | NaN, _ | _, NaN => NaN
  | PosInf, PosInf | PosInf, NegInf | NegInf, PosInf | NegInf, NegInf => NaN
  | Fin _, PosInf | Fin _, NegInf => Fin 0
  | PosInf, Fin r => if Rlt_dec r 0 then NegInf else PosInf
  | NegInf, Fin r => if Rlt_dec r 0 then PosInf else NegInf
  | Fin x, Fin y =>
      if Req_dec_T y 0 then
        if Req_dec_T x 0 then NaN else if Rlt_dec 0 x then PosInf else NegInf
      else clip (x / y)
  end.

Definition exactSin (a : jsnum) : jsnum :=
  match a with
  | Fin x => Fin (sin x)
  | _ => NaN
  end.

Definition exactCos (a : jsnum) : jsnum :=
  match a with
  | Fin x => Fin (cos x)
  | _ => NaN
  end.

Definition exactSqrt (a : jsnum) : jsnum :=
  match a with
  | Fin x => if Rlt_dec x 0 then NaN else Fin (sqrt x)
  | PosInf => PosInf
  | _ => NaN
  end.

(** [Math.atan2(y, x)] on finite numbers, by quadrant. *)
Definition atan2 (y x : R) : R :=
  if Rlt_dec 0 x then atan (y / x)
  else if Rlt_dec x 0 then
    if Rle_dec 0 y then atan (y / x) + PI else atan (y / x) - PI
  else if Rlt_dec 0 y then PI / 2
  else if Rlt_dec y 0 then - (PI / 2)
  else 0.

Definition exactAtan2 (y x : jsnum) : jsnum :=
  match y, x with
  | NaN, _ | _, NaN => NaN
  | Fin a, Fin b => Fin (atan2 a b)
  | PosInf, PosInf => Fin (PI / 4)
  | PosInf, NegInf => Fin (3 * PI / 4)
  | NegInf, PosInf => Fin (- (PI / 4))
  | NegInf, NegInf => Fin (- (3 * PI / 4))
  | PosInf, Fin _ => Fin (PI / 2)
  | NegInf, Fin _ => Fin (- (PI / 2))
  | Fin _, PosInf => Fin 0
  | Fin a, NegInf => if Rlt_dec a 0 then Fin (- PI) else Fin PI
  end.

Definition realArith : Arith :=
  {| js_pi := Fin PI;
     js_add := exactAdd;
     js_sub := exactSub;
     js_mul := exactMul;
     js_div := exactDiv;
     js_sq := fun x => exactMul x x;
     js_sin := exactSin;
     js_cos := exactCos;
     js_sqrt := exactSqrt;
     js_atan2 := exactAtan2 |}.

(** The formula of [haversineMiles] on the reals: what [realArith] computes
    within the range of doubles. *)
Definition radians (d : R) : R := (d * PI) / 180.

Definition greatCircleA (lat1 lon1 lat2 lon2 : R) : R :=
  let dLat := radians (lat2 - lat1) in
  let dLon := radians (lon2 - lon1) in
  sin (dLat / 2) ^ 2 +
  cos (radians lat1) * cos (radians lat2) * sin (dLon / 2) ^ 2.

Definition greatCircleMiles (lat1 lon1 lat2 lon2 : R) : R :=
  let a := greatCircleA lat1 lon1 lat2 lon2 in
  2 * EARTH_RADIUS_MI * atan2 (sqrt a) (sqrt (1 - a)).

(* ================================================================= *)
(** ** Number helpers of the query *)

(** [Math.trunc], the rounding of [ToIntegerOrInfinity]. *)
Definition truncate (r : R) : Z :=
  if Rle_dec 0 r then Int_part r else (- Int_part (- r))%Z.

(** [Number(x.toFixed(2))]: the nearest multiple of 1/100, the larger one on
    a tie, computed on the absolute value; from 1e21 on [toFixed] prints the
    number itself. *)
Definition toFixed2 (x : R) : R :=
  if Rle_dec (10 ^ 21) (Rabs x) then x
  else if Rlt_dec x 0 then - (IZR (Int_part (- x * 100 + / 2)) / 100)
  else IZR (Int_part (x * 100 + / 2)) / 100.

(** [n || d] for a number [n]: NaN and zero are falsy. *)
Definition numOr (n : jsnum) (d : R) : jsnum :=
  match n with
  | NaN => Fin d
  | Fin r => if Req_dec_T r 0 then Fin d else Fin r
  | other => other
  end.

(** [Math.min(c, n)] and [Math.max(c, n)] for a finite constant [c]. *)
Definition mathMin (c : R) (n : jsnum) : jsnum :=
  match n with
  | NaN => NaN
  | PosInf => Fin c
  | NegInf => NegInf
  | Fin r => Fin (Rmin c r)
  end.

Definition mathMax (c : R) (n : jsnum) : jsnum :=
  match n with
  | NaN => NaN
  | PosInf => PosInf
  | NegInf => Fin c
  | Fin r => Fin (Rmax c r)
  end.

(** [n / c] for a finite non-zero constant [c > 0]. *)
Definition numDiv (n : jsnum) (c : R) : jsnum :=
  match n with
  | Fin r => Fin (r / c)
  | other => other
  end.

(** [Number(n.toFixed(2))] for a number that may be NaN or infinite:
    [toFixed] prints these by name and [Number] reads them back. *)
Definition toFixed2Num (n : jsnum) : jsnum :=
  match n with
  | Fin x => Fin (toFixed2 x)
  | other => other
  end.

(** [d > n]: never with a NaN on either side. *)
Definition gtNum (d n : jsnum) : bool :=
  match d, n with
  | NaN, _ | _, NaN => false
  | PosInf, PosInf => false
  | PosInf, _ => true
  | NegInf, _ => false
  | Fin _, PosInf => false
  | Fin _, NegInf => true
  | Fin x, Fin r => if Rgt_dec x r then true else false
  end.

(** [arr.slice(0, end)]. *)
Definition sliceTo {A : Type} (stop : jsnum) (arr : list A) : list A :=
  match stop with
  | NaN => []
  | NegInf => []
  | PosInf => arr
  | Fin r =>
      let k := truncate r in
      if (k <? 0)%Z
      then firstn (Z.to_nat (Z.max (Z.of_nat (List.length arr) + k) 0)) arr
      else firstn (Z.to_nat k) arr
  end.

(** [arr.sort(cmp)] sorts stably (ECMAScript 2019), and the result of a
    stable sort does not depend on the algorithm; [le a b] stands for
    [cmp(a, b) <= 0].  An element is inserted in front of the first one it
    does not exceed, so equal elements keep the order of [arr]. *)
Fixpoint insertBy {A : Type} (le : A -> A -> bool) (x : A) (l : list A) : list A :=
  match l with
  | [] => [x]
  | y :: rest => if le x y then x :: l else y :: insertBy le x rest
  end.

Fixpoint sortBy {A : Type} (le : A -> A -> bool) (l : list A) : list A :=
  match l with
  | [] => []
  | x :: rest => insertBy le x (sortBy le rest)
  end.

Close Scope R_scope.

(* ================================================================= *)
(** ** Snapshot cache *)

Definition GTFS_URL : string :=
  "https://www.transitchicago.com/downloads/sch_data/google_transit.zip".
Definition ZIP_PATH : string := ".cache/cta_gtfs.zip".

(** 24 hours in milliseconds. *)
Definition ZIP_TTL_MS : Z := 1000 * 60 * 60 * 24.

(** What the build can fail with. *)
Inductive BuildError : Type :=
| FetchRejected                      (* [fetchFn] or [arrayBuffer] rejects *)
| DownloadFailed (status : Z)        (* "GTFS download failed (status)" *)
| ArchiveUnreadable                  (* the zip cannot be opened *)
| MissingEntry (filename : string)   (* "GTFS missing filename" *)
| NoHeaderLine.                      (* [parseCsvLine(undefined)] throws *)

Inductive result (A : Type) : Type :=
| Ok (a : A)
| Err (e : BuildError).
Arguments Ok {A} a.
Arguments Err {A} e.

Definition bind {A B : Type} (r : result A) (k : A -> result B) : result B :=
  match r with
  | Ok a => k a
  | Err e => Err e
  end.

Notation "x <- r ;; k" := (bind r (fun x => k))
  (at level 61, r at next level, right associativity).

(** A zip file: its size and, when it can be opened, its entries as
    path and decoded text. *)
Record Zip : Type := {
  zip_length : Z;
  zip_entries : option (list (string * string))
}.

(** The metadata sidecar as [readMeta] returns it; a missing or unparsable
    file is [None] at the [Disk]. *)
Record Meta : Type := {
  downloadedAt : option Z;
  meta_updatedAt : option string;
  url : string;
  bytes : Z
}.

Record Disk : Type := {
  zipFile : option Zip;
  metaFile : option Meta
}.

Definition readMeta (d : Disk) : option Meta := metaFile d.

(** [meta?.downloadedAt && Date.now() - meta.downloadedAt < ZIP_TTL_MS]:
    a missing or zero timestamp is falsy. *)
Definition metaFresh (now : Z) (meta : option Meta) : bool :=
  match meta with
  | Some m =>
      match downloadedAt m with
      | Some t => negb (t =? 0)%Z && (now - t <? ZIP_TTL_MS)%Z
      | None => false
      end
  | None => false
  end.

Definition existsZip (d : Disk) : bool :=
  match zipFile d with Some _ => true | None => false end.

Record Snapshot : Type := {
  zipPath : string;
  updatedAt : option string
}.

(** What the network gives back to one [fetchFn(GTFS_URL)]: the promise
    rejects, or a response with its [ok] flag, status and body ([None] when
    [arrayBuffer] rejects). *)
Inductive FetchOutcome : Type :=
| FetchThrows
| FetchResponse (ok : bool) (status : Z) (body : option Zip).

(** What the environment decides while [downloadZipIfNeeded] resumes after
    its fetch: the response, the two clock readings ([new Date()] printed in
    ISO form and [Date.now()]) and whether the sidecar can be written. *)
Record Arrival : Type := {
  outcome : FetchOutcome;
  isoNow : string;
  nowMs : Z;
  metaWritable : bool
}.

(** [downloadZipIfNeeded] up to its first [await]: either it returns the
    cached snapshot, or it has called [fetchFn] on the given URL. *)
Inductive DownloadStart : Type :=
| UseCached (s : Snapshot)
| AwaitFetch (requested : string).

Definition downloadStart (now : Z) (d : Disk) : DownloadStart :=
  let meta := readMeta d in
  let fresh := metaFresh now meta in
  if fresh && existsZip d then
    UseCached {| zipPath := ZIP_PATH;
                 updatedAt := match meta with
                              | Some m => orNull (meta_updatedAt m)
                              | None => None
                              end |}
  else AwaitFetch GTFS_URL.

(** [writeMeta]: a failing write is swallowed. *)
Definition writeMeta (writable : bool) (m : Meta) (d : Disk) : Disk :=
  if writable then {| zipFile := zipFile d; metaFile := Some m |} else d.

(** [downloadZipIfNeeded] from the fetch's answer on. *)
Definition downloadResume (a : Arrival) (d : Disk) : Disk * result Snapshot :=
  match outcome a with
  | FetchThrows => (d, Err FetchRejected)
  | FetchResponse ok status body =>
      if negb ok then (d, Err (DownloadFailed status))
      else match body with
           | None => (d, Err FetchRejected)
           | Some buf =>
               let d1 := {| zipFile := Some buf; metaFile := metaFile d |} in
               let d2 := writeMeta (metaWritable a)
                           {| downloadedAt := Some (nowMs a);
                              meta_updatedAt := Some (isoNow a);
                              url := GTFS_URL;
                              bytes := zip_length buf |} d1 in
               (d2, Ok {| zipPath := ZIP_PATH; updatedAt := Some (isoNow a) |})
           end
  end.

(** The whole of [downloadZipIfNeeded]: the new disk, the URLs [fetchFn] was
    called with, and the snapshot or the failure. *)
Definition downloadZipIfNeeded (now : Z) (a : Arrival) (d : Disk)
  : Disk * list string * result Snapshot :=
  match downloadStart now d with
  | UseCached s => (d, [], Ok s)
  | AwaitFetch u =>
      let (d', r) := downloadResume a d in (d', [u], r)
  end.

(* ================================================================= *)
(** ** Reading the archive *)

(** [text.split(/\r?\n/)]: [cur] is the piece being read. *)
Fixpoint splitLinesFrom (text : string) (cur : string) : list string :=
  match text with
  | EmptyString => [cur]
  | String ch rest =>
      if Ascii.eqb ch "010"%char then cur :: splitLinesFrom rest ""
      else if Ascii.eqb ch "013"%char then
        match rest with
        | String next rest' =>
            if Ascii.eqb next "010"%char then cur :: splitLinesFrom rest' ""
            else splitLinesFrom rest (cur ++ String ch "")%string
        | EmptyString => splitLinesFrom rest (cur ++ String ch "")%string
        end
      else splitLinesFrom rest (cur ++ String ch "")%string
  end.

Definition splitLines (text : string) : list string := splitLinesFrom text "".

(** [l.trim().length > 0] fails exactly when [l] is a run of white space and
    line terminators.  The automaton reads their UTF-8 encodings: the ASCII
    ones, U+00A0, U+1680, U+2000 to U+200A, U+2028, U+2029, U+202F, U+205F,
    U+3000 and U+FEFF. *)
Inductive WsState : Type :=
| W0 | WC2 | WE1 | WE19A | WE2 | WE280 | WE281 | WE3 | WE380 | WEF | WEFBB.

Definition wsStep (st : WsState) (ch : ascii) : option WsState :=
  let b := nat_of_ascii ch in
  match st with
  | W0 =>
      if ((9 <=? b) && (b <=? 13))%nat || (b =? 32)%nat then Some W0
      else if (b =? 194)%nat then Some WC2
      else if (b =? 225)%nat then Some WE1
      else if (b =? 226)%nat then Some WE2
      else if (b =? 227)%nat then Some WE3
      else if (b =? 239)%nat then Some WEF
      else None
  | WC2 => if (b =? 160)%nat then Some W0 else None
  | WE1 => if (b =? 154)%nat then Some WE19A else None
  | WE19A => if (b =? 128)%nat then Some W0 else None
  | WE2 =>
      if (b =? 128)%nat then Some WE280
      else if (b =? 129)%nat then Some WE281
      else None
  | WE280 =>
      if ((128 <=? b) && (b <=? 138))%nat || (b =? 168)%nat || (b =? 169)%nat
         || (b =? 175)%nat
      then Some W0 else None
  | WE281 => if (b =? 159)%nat then Some W0 else None
  | WE3 => if (b =? 128)%nat then Some WE380 else None
  | WE380 => if (b =? 128)%nat then Some W0 else None
  | WEF => if (b =? 187)%nat then Some WEFBB else None
  | WEFBB => if (b =? 191)%nat then Some W0 else None
  end.

Fixpoint blankFrom (st : WsState) (s : string) : bool :=
  match s with
  | EmptyString => match st with W0 => true | _ => false end
  | String ch rest =>
      match wsStep st ch with
      | Some st' => blankFrom st' rest
      | None => false
      end
  end.

Definition isBlank (s : string) : bool := blankFrom W0 s.

(** [directory.files.find((f) => f.path === filename)]. *)
Fixpoint findEntry (filename : string) (files : list (string * string))
  : option string :=
  match files with
  | [] => None
  | (path, text) :: rest =>
      if String.eqb path filename then Some text else findEntry filename rest
  end.

(** [readZipEntryToLines]: the zip at [ZIP_PATH] is the one on the disk. *)
Definition readZipEntryToLines (d : Disk) (filename : string)
  : result (list string) :=
  match zipFile d with
  | None => Err ArchiveUnreadable
  | Some z =>
      match zip_entries z with
      | None => Err ArchiveUnreadable
      | Some files =>
          match findEntry filename files with
          | None => Err (MissingEntry filename)
          | Some text => Ok (filter (fun l => negb (isBlank l)) (splitLines text))
          end
      end
  end.

(* ================================================================= *)
(** ** Index builder *)

Record Route : Type := {
  route_id : string;
  short_name : string;
  long_name : string;
  route_type : jsnum
}.

Record Stop : Type := {
  stop_id : string;
  stop_name : string;
  lat : R;
  lng : R;
  location_type : jsnum
}.

Record Index : Type := {
  idx_updatedAt : option string;
  stopById : JsMap.t Stop;
  routeById : JsMap.t Route;
  stopToRoutes : JsMap.t JsSet.t
}.

(** [Object.fromEntries(cols.map((c, i) => [c, i]))[name]]: the position of
    the last column called [name], counted from [i]. *)
Fixpoint headerIndexFrom (i : nat) (cols : list string) (name : string)
  : option nat :=
  match cols with
  | [] => None
  | c :: rest =>
      match headerIndexFrom (S i) rest name with
      | Some j => Some j
      | None => if String.eqb c name then Some i else None
      end
  end.

Definition headerIndex (cols : list string) (name : string) : option nat :=
  headerIndexFrom 0 cols name.

(** [row[i]], where [i] may be [undefined]. *)
Definition cell (row : list string) (i : option nat) : option string :=
  match i with
  | Some n => nth_error row n
  | None => None
  end.

(** [const [header, ...rows] = lines; parseCsvLine(header)]. *)
Definition splitHeader (lines : list string)
  : result ((string -> option nat) * list string) :=
  match lines with
  | [] => Err NoHeaderLine
  | header :: rows => Ok (headerIndex (parseCsvLine header), rows)
  end.

(** The loop over [trips.txt]: one row. *)
Definition tripStep (hdr : string -> option nat) (tripToRoute : JsMap.t string)
    (line : string) : JsMap.t string :=
  let row := parseCsvLine line in
  let trip_id := cell row (hdr "trip_id") in
  let route_id := cell row (hdr "route_id") in
  match trip_id, route_id with
  | Some t, Some r =>
      if truthy trip_id && truthy route_id then JsMap.set t r tripToRoute
      else tripToRoute
  | _, _ => tripToRoute
  end.

Definition buildTripToRoute (tripsLines : list string) : result (JsMap.t string) :=
  hr <- splitHeader tripsLines ;;
  Ok (fold_left (tripStep (fst hr)) (snd hr) JsMap.empty).

(** The loop over [stop_times.txt]: one row.  The set of a stop is created
    when the first row with a resolved trip names the stop, and a route is
    added while the set has fewer than 12 members. *)
Definition stopTimeStep (hdr : string -> option nat) (tripToRoute : JsMap.t string)
    (stopToRoutes : JsMap.t JsSet.t) (line : string) : JsMap.t JsSet.t :=
  let row := parseCsvLine line in
  let trip_id := cell row (hdr "trip_id") in
  let stop_id := cell row (hdr "stop_id") in
  match trip_id, stop_id with
  | Some t, Some s =>
      if negb (truthy trip_id) || negb (truthy stop_id) then stopToRoutes
      else match JsMap.get t tripToRoute with
           | None => stopToRoutes
           | Some r =>
               if negb (truthy (Some r)) then stopToRoutes
               else
                 let set := match JsMap.get s stopToRoutes with
                            | Some set => set
                            | None => []
                            end in
                 JsMap.set s
                   (if (JsSet.size set <? 12)%nat then JsSet.add r set else set)
                   stopToRoutes
           end
  | _, _ => stopToRoutes
  end.

Definition buildStopToRoutes (tripToRoute : JsMap.t string)
    (stopTimesLines : list string) : result (JsMap.t JsSet.t) :=
  hr <- splitHeader stopTimesLines ;;
  Ok (fold_left (stopTimeStep (fst hr) tripToRoute) (snd hr) JsMap.empty).

Section Builder.

(** [Number] on a string, the conversion JavaScript applies to a cell. *)
Variable Number : string -> jsnum.

(** [Number(c)] for a cell that may be [undefined]. *)
Definition numberOfCell (c : option string) : jsnum :=
  match c with
  | Some s => Number s
  | None => NaN
  end.

(** The loop over [routes.txt]: one row. *)
Definition routeStep (hdr : string -> option nat) (routeById : JsMap.t Route)
    (line : string) : JsMap.t Route :=
  let row := parseCsvLine line in
  let id := cell row (hdr "route_id") in
  match id with
  | Some r =>
      if negb (truthy id) then routeById
      else JsMap.set r
             {| route_id := r;
                short_name := orElse (cell row (hdr "route_short_name")) "";
                long_name := orElse (cell row (hdr "route_long_name")) "";
                route_type := numberOfCell (cell row (hdr "route_type")) |}
             routeById
  | None => routeById
  end.

Definition buildRouteById (routesLines : list string) : result (JsMap.t Route) :=
  hr <- splitHeader routesLines ;;
  Ok (fold_left (routeStep (fst hr)) (snd hr) JsMap.empty).

(** The loop over [stops.txt]: one row.  [Number.isFinite] holds of the
    [Fin] numbers only. *)
Definition stopStep (hdr : string -> option nat) (stopById : JsMap.t Stop)
    (line : string) : JsMap.t Stop :=
  let row := parseCsvLine line in
  let id := cell row (hdr "stop_id") in
  let name := cell row (hdr "stop_name") in
  let stop_lat := numberOfCell (cell row (hdr "stop_lat")) in
  let stop_lon := numberOfCell (cell row (hdr "stop_lon")) in
  let loc := cell row (hdr "location_type") in
  let location := if truthy loc then numberOfCell loc else Fin 0 in
  match id, name, stop_lat, stop_lon with
  | Some s, Some n, Fin la, Fin lo =>
      if negb (truthy id) || negb (truthy name) then stopById
      else JsMap.set s
             {| stop_id := s; stop_name := n; lat := la; lng := lo;
                location_type := location |}
             stopById
  | _, _, _, _ => stopById
  end.

Definition buildStopById (stopsLines : list string) : result (JsMap.t Stop) :=
  hr <- splitHeader stopsLines ;;
  Ok (fold_left (stopStep (fst hr)) (snd hr) JsMap.empty).

(** [buildGtfsIndex] after [downloadZipIfNeeded] has returned: the four
    entries are read first, then each table is walked in turn. *)
Definition indexFromSnapshot (d : Disk) (s : Snapshot) : result Index :=
  routesLines <- readZipEntryToLines d "routes.txt" ;;
  tripsLines <- readZipEntryToLines d "trips.txt" ;;
  stopsLines <- readZipEntryToLines d "stops.txt" ;;
  stopTimesLines <- readZipEntryToLines d "stop_times.txt" ;;
  routes <- buildRouteById routesLines ;;
  tripToRoute <- buildTripToRoute tripsLines ;;
  stops <- buildStopById stopsLines ;;
  stopRoutes <- buildStopToRoutes tripToRoute stopTimesLines ;;
  Ok {| idx_updatedAt := updatedAt s;
        stopById := stops;
        routeById := routes;
        stopToRoutes := stopRoutes |}.

(** [buildGtfsIndex] as a function of what the environment supplies: the
    new disk, the URLs fetched, and the index or the failure. *)
Definition buildGtfsIndex (now : Z) (a : Arrival) (d : Disk)
  : Disk * list string * result Index :=
  match downloadZipIfNeeded now a d with
  | (d', fetched, Ok s) => (d', fetched, indexFromSnapshot d' s)
  | (d', fetched, Err e) => (d', fetched, Err e)
  end.

End Builder.

(* ================================================================= *)
(** ** Index cache and build coordinator *)

(** Where the chain [buildGtfsIndex(fetchFn).then(...).finally(...)] stands. *)
Inductive BuildPhase : Type :=
| Idle
| AwaitingFetch                    (* [downloadZipIfNeeded] awaits [fetchFn] *)
| ReadingArchive (s : Snapshot)    (* the snapshot is there, the entries are read *)
| Settled (r : result Index)       (* the promise of [buildGtfsIndex] has settled *)
| ThenDone (r : result Index).     (* the [then] callback has run, or was skipped *)

(** The module variables, the cache directory, the URLs [fetchFn] has been
    called with, and the promises: [inFlight] holds the number of the
    promise, [settledPromises] what each finished one resolved or rejected
    with. *)
Record World : Type := {
  cache : option Index;
  cacheLoadedAt : Z;
  inFlight : option nat;
  phase : BuildPhase;
  disk : Disk;
  fetchLog : list string;
  nextPromise : nat;
  settledPromises : list (nat * result Index)
}.

(** What a call of [getIndex] hands to its caller: the cached index, or the
    outcome of the promise [p]. *)
Inductive Reply : Type :=
| Cached (idx : Index)
| Awaits (p : nat).

(** [cache && Date.now() - cacheLoadedAt < ZIP_TTL_MS]. *)
Definition cacheFresh (now : Z) (w : World) : bool :=
  match cache w with
  | Some _ => (now - cacheLoadedAt w <? ZIP_TTL_MS)%Z
  | None => false
  end.

(** The synchronous part of [buildGtfsIndex(fetchFn)] inside [getIndex]: it
    runs [downloadZipIfNeeded] up to its first [await], with its own reading
    [nowDl] of the clock, and [inFlight] is set to the new promise. *)
Definition startBuild (nowDl : Z) (w : World) : World :=
  let p := nextPromise w in
  match downloadStart nowDl (disk w) with
  | UseCached s =>
      {| cache := cache w; cacheLoadedAt := cacheLoadedAt w;
         inFlight := Some p; phase := ReadingArchive s;
         disk := disk w; fetchLog := fetchLog w;
         nextPromise := S p; settledPromises := settledPromises w |}
  | AwaitFetch u =>
      {| cache := cache w; cacheLoadedAt := cacheLoadedAt w;
         inFlight := Some p; phase := AwaitingFetch;
         disk := disk w; fetchLog := fetchLog w ++ [u];
         nextPromise := S p; settledPromises := settledPromises w |}
  end.

(** [getIndex(fetchFn)], called when the clock reads [now]. *)
Definition getIndex (now nowDl : Z) (w : World) : World * Reply :=
  match (if cacheFresh now w then cache w else None) with
  | Some idx => (w, Cached idx)
  | None =>
      match inFlight w with
      | Some p => (w, Awaits p)
      | None => (startBuild nowDl w, Awaits (nextPromise w))
      end
  end.

(** The [then] callback: [cache = idx; cacheLoadedAt = Date.now()]; a
    rejection passes it by. *)
Definition runThen (now : Z) (w : World) : World :=
  match phase w with
  | Settled (Ok idx) =>
      {| cache := Some idx; cacheLoadedAt := now;
         inFlight := inFlight w; phase := ThenDone (Ok idx);
         disk := disk w; fetchLog := fetchLog w;
         nextPromise := nextPromise w; settledPromises := settledPromises w |}
  | Settled (Err e) =>
      {| cache := cache w; cacheLoadedAt := cacheLoadedAt w;
         inFlight := inFlight w; phase := ThenDone (Err e);
         disk := disk w; fetchLog := fetchLog w;
         nextPromise := nextPromise w; settledPromises := settledPromises w |}
  | _ => w
  end.

(** The [finally] callback: [inFlight = null]; the promise then settles as
    the [then] promise did. *)
Definition runFinally (w : World) : World :=
  match phase w with
  | ThenDone r =>
      {| cache := cache w; cacheLoadedAt := cacheLoadedAt w;
         inFlight := None; phase := Idle;
         disk := disk w; fetchLog := fetchLog w;
         nextPromise := nextPromise w;
         settledPromises :=
           match inFlight w with
           | Some p => (p, r) :: settledPromises w
           | None => settledPromises w
           end |}
  | _ => w
  end.

(** The fetch answers: [downloadZipIfNeeded] resumes and writes the disk. *)
Definition fetchReturns (a : Arrival) (w : World) : World :=
  match phase w with
  | AwaitingFetch =>
      let (d', r) := downloadResume a (disk w) in
      {| cache := cache w; cacheLoadedAt := cacheLoadedAt w;
         inFlight := inFlight w;
         phase := match r with
                  | Ok s => ReadingArchive s
                  | Err e => Settled (Err e)
                  end;
         disk := d'; fetchLog := fetchLog w;
         nextPromise := nextPromise w; settledPromises := settledPromises w |}
  | _ => w
  end.

(** What can happen between two turns of the event loop. *)
Inductive Event : Type :=
| Call (now nowDl : Z)       (* somebody calls [getIndex] *)
| FetchReturns (a : Arrival) (* the pending fetch answers *)
| ArchiveRead                (* the entries are read and the tables walked *)
| RunThen (now : Z)          (* the [then] reaction runs *)
| RunFinally.                (* the [finally] reaction runs *)

Section Coordinator.

Variable Number : string -> jsnum.

Definition archiveRead (w : World) : World :=
  match phase w with
  | ReadingArchive s =>
      {| cache := cache w; cacheLoadedAt := cacheLoadedAt w;
         inFlight := inFlight w;
         phase := Settled (indexFromSnapshot Number (disk w) s);
         disk := disk w; fetchLog := fetchLog w;
         nextPromise := nextPromise w; settledPromises := settledPromises w |}
  | _ => w
  end.

(** One event; an event that is not due leaves the world as it is. *)
Definition step (e : Event) (w : World) : World * option Reply :=
  match e with
  | Call now nowDl => let (w', r) := getIndex now nowDl w in (w', Some r)
  | FetchReturns a => (fetchReturns a w, None)
  | ArchiveRead => (archiveRead w, None)
  | RunThen now => (runThen now w, None)
  | RunFinally => (runFinally w, None)
  end.

(** A sequence of events, with the replies to the calls among them. *)
Fixpoint run (es : list Event) (w : World) : World * list Reply :=
  match es with
  | [] => (w, [])
  | e :: rest =>
      let (w1, r) := step e w in
      let (w2, rs) := run rest w1 in
      (w2, match r with Some x => x :: rs | None => rs end)
  end.

End Coordinator.

(** Calls of [getIndex] one after the other with nothing in between: the
    callers that arrive while one build is in flight. *)
Fixpoint getIndexAll (calls : list (Z * Z)) (w : World) : World * list Reply :=
  match calls with
  | [] => (w, [])
  | (now, nowDl) :: rest =>
      let (w1, r) := getIndex now nowDl w in
      let (w2, rs) := getIndexAll rest w1 in
      (w2, r :: rs)
  end.

(* ================================================================= *)
(** ** Nearby query engine *)

Inductive Mode : Type := bus | train | rail | other.

Definition Mode_eqb (a b : Mode) : bool :=
  match a, b with
  | bus, bus | train, train | rail, rail | other, other => true
  | _, _ => false
  end.

Definition classifyMode (routeType : jsnum) : Mode :=
  match routeType with
  | Fin r =>
      if Req_dec_T r 3 then bus
      else if Req_dec_T r 1 then train
      else if Req_dec_T r 2 then rail
      else other
  | _ => other
  end.

Record RouteOut : Type := {
  ro_id : string;
  shortName : string;
  longName : string;
  ro_type : Mode
}.

Record RankedStop : Type := {
  rs_id : string;
  rs_name : string;
  rs_lat : R;
  rs_lng : R;
  distanceMi : jsnum;
  modes : list Mode;
  routes : list RouteOut
}.

Record Nearby : Type := {
  nb_updatedAt : option string;
  stops : list RankedStop
}.

(** [.filter(Boolean)] on the results of [Map.get]. *)
Fixpoint somes {A : Type} (l : list (option A)) : list A :=
  match l with
  | [] => []
  | Some a :: rest => a :: somes rest
  | None :: rest => somes rest
  end.

Definition routeOut (r : Route) : RouteOut :=
  {| ro_id := route_id r;
     shortName := orElse (Some (short_name r)) (orElse (Some (long_name r)) "Route");
     longName := orElse (Some (long_name r)) (orElse (Some (short_name r)) "");
     ro_type := classifyMode (route_type r) |}.

(** [Array.from(new Set(ms))]: first occurrences, in order. *)
Fixpoint distinctModes (seen : list Mode) (ms : list Mode) : list Mode :=
  match ms with
  | [] => []
  | m :: rest =>
      if existsb (Mode_eqb m) seen then distinctModes seen rest
      else m :: distinctModes (seen ++ [m]) rest
  end.

(** The routes attached to a stop, before [slice(0, 12)]. *)
Definition resolveRoutes (idx : Index) (id : string) : list RouteOut :=
  let routeIds := match JsMap.get id (stopToRoutes idx) with
                  | Some set => set
                  | None => []
                  end in
  map routeOut (somes (map (fun r => JsMap.get r (routeById idx)) routeIds)).

(** The object pushed to [out] for a stop at distance [dMi]. *)
Definition rankStop (idx : Index) (stop : Stop) (dMi : jsnum) : RankedStop :=
  let rs := resolveRoutes idx (stop_id stop) in
  {| rs_id := stop_id stop;
     rs_name := stop_name stop;
     rs_lat := lat stop;
     rs_lng := lng stop;
     distanceMi := toFixed2Num dMi;
     modes := distinctModes [] (map ro_type rs);
     routes := firstn 12 rs |}.

(** An argument left out takes its default. *)
Definition defaulted (arg : option jsnum) (d : R) : jsnum :=
  match arg with
  | Some n => n
  | None => Fin d
  end.

(** [Math.max(0.1, Number(radiusMeters) / 1609.344)]. *)
Definition radiusMi (radiusMeters : option jsnum) : jsnum :=
  mathMax (1 / 10) (numDiv (defaulted radiusMeters 1200) 1609.344).

(** [Math.max(1, Math.min(50, Number(limit) || 12))]. *)
Definition limitOf (limit : option jsnum) : jsnum :=
  mathMax 1 (mathMin 50 (numOr (defaulted limit 12) 12)).

(** The comparator [(a, b) => a.distanceMi - b.distanceMi] is not positive:
    the difference is positive exactly when both are numbers and the first
    is the larger one, and a NaN difference counts as 0 in [sort].  With a
    NaN among the distances the comparator is not consistent and ECMAScript
    leaves the order to the engine; the order [sortBy] gives then stands for
    one such order. *)
Definition leDistance (a b : RankedStop) : bool :=
  negb (gtNum (distanceMi a) (distanceMi b)).

Section Query.

Variable ar : Arith.

(** The loop of [findNearby]: the stops that are not beyond the radius, in
    the order of the stop table.  A stop whose distance is NaN is not
    beyond it. *)
Definition withinRadius (idx : Index) (lat0 lng0 : R) (rMi : jsnum)
  : list RankedStop :=
  map (fun stop =>
         rankStop idx stop (haversineMiles ar lat0 lng0 (lat stop) (lng stop)))
    (filter (fun stop =>
               negb (gtNum (haversineMiles ar lat0 lng0 (lat stop) (lng stop)) rMi))
       (JsMap.values (stopById idx))).

(** [findNearby] once [getIndex] has produced [idx].  [radiusMeters] and
    [limit] are [None] when the argument is left out and the result of
    [Number] on it otherwise. *)
Definition findNearby (idx : Index) (lat0 lng0 : R)
    (radiusMeters limit : option jsnum) : Nearby :=
  let out := withinRadius idx lat0 lng0 (radiusMi radiusMeters) in
  {| nb_updatedAt := idx_updatedAt idx;
     stops := sliceTo (limitOf limit) (sortBy leDistance out) |}.

End Query.

(* ================================================================= *)
(** ** HTTP route of the nearby query *)

(** The handler of [GET /api/transit/nearby] in [ai-proxy.js], the caller
    of [findNearby]. *)

Open Scope R_scope.

Inductive HttpReply : Type :=
| Json200 (data : Nearby) (source : string)   (* [res.json({ ...data, source })] *)
| Error400 (error : string)
| Error500 (error : string).

(** The query string after [Number]: a parameter that is absent or not
    numeric converts to [NaN]. *)
Record NearbyQuery : Type := {
  q_lat : jsnum;
  q_lng : jsnum;
  q_radius : jsnum;
  q_limit : jsnum
}.

(** [Math.max(200, Math.min(5000, Number(req.query.radius) || 1200))]. *)
Definition routeRadius (q : NearbyQuery) : jsnum :=
  mathMax 200 (mathMin 5000 (numOr (q_radius q) 1200)).

(** [Math.max(3, Math.min(25, Number(req.query.limit) || 12))]. *)
Definition routeLimit (q : NearbyQuery) : jsnum :=
  mathMax 3 (mathMin 25 (numOr (q_limit q) 12)).

Close Scope R_scope.

(** Where the handler stands after its synchronous part: it has replied, or
    it awaits the promise [p] of [getIndex] inside [findNearby]. *)
Inductive Handling : Type :=
| Replied (reply : HttpReply)
| AwaitsIndex (p : nat) (lat0 lng0 : R) (radius limit : jsnum).

Section Route.

Variable ar : Arith.

(** The end of the handler, once [getIndex] has produced an index or has
    rejected: the answer of [findNearby] tagged with its source, or the
    reply of the [catch] clause. *)
Definition respond (lat0 lng0 : R) (radius limit : jsnum) (r : result Index)
  : HttpReply :=
  match r with
  | Ok idx =>
      Json200 (findNearby ar idx lat0 lng0 (Some radius) (Some limit)) "cta_gtfs"
  | Err _ => Error500 "GTFS transit lookup failed"
  end.

(** The handler up to the settling of [getIndex]: [Number.isFinite] holds of
    the [Fin] numbers only, and [findNearby] is not called without finite
    coordinates. *)
Definition transitNearby (now nowDl : Z) (q : NearbyQuery) (w : World)
  : World * Handling :=
  match q_lat q, q_lng q with
  | Fin la, Fin lo =>
      let (w', reply) := getIndex now nowDl w in
      match reply with
      | Cached idx => (w', Replied (respond la lo (routeRadius q) (routeLimit q) (Ok idx)))
      | Awaits p => (w', AwaitsIndex p la lo (routeRadius q) (routeLimit q))
      end
  | _, _ => (w, Replied (Error400 "lat and lng are required"))
  end.

(** The reply of the handler when the promise it awaits settles with [r]. *)
Definition transitNearbySettled (h : Handling) (r : result Index) : HttpReply :=
  match h with
  | Replied reply => reply
  | AwaitsIndex _ la lo radius limit => respond la lo radius limit r
  end.

End Route.

(* ================================================================= *)
(** ** Sessions of the proxy *)

(** The session store of [ai-proxy.js]: [SESSIONS], [makeToken],
    [getUserByToken] and [authMiddleware].  A user is the record
    [/api/register] writes; the random token is supplied by the caller of
    [makeToken], and the clock is read where the code reads it. *)

(** 2 hours in milliseconds. *)
Definition SESSION_TTL_MS : Z := 1000 * 60 * 60 * 2.

Record User : Type := {
  user_id : string;
  email : string;
  firstName : string;
  lastName : string;
  salt : option string;
  hash : option string;
  createdAt : string
}.

Record Session : Type := {
  userId : string;
  expiresAt : Z
}.

(** [SESSIONS.delete(token)]. *)
Fixpoint mapDelete {V : Type} (k : string) (m : JsMap.t V) : JsMap.t V :=
  match m with
  | [] => []
  | (k', v) :: rest =>
      if String.eqb k k' then mapDelete k rest else (k', v) :: mapDelete k rest
  end.

(** [makeToken(userId)], with [token] the hexadecimal string of the random
    bytes. *)
Definition makeToken (now : Z) (token : string) (uid : string)
    (sessions : JsMap.t Session) : JsMap.t Session * string :=
  (JsMap.set token {| userId := uid; expiresAt := (now + SESSION_TTL_MS)%Z |} sessions,
   token).

(** [users.find(u => u.id === userId)]. *)
Definition findUser (uid : string) (users : list User) : option User :=
  find (fun u => String.eqb (user_id u) uid) users.

(** [getUserByToken(token, users)]: [now] is the clock at the expiry test,
    [nowRefresh] the clock when the expiry is pushed back.  A token that is
    [null] or empty is falsy. *)
Definition getUserByToken (now nowRefresh : Z) (token : option string)
    (users : list User) (sessions : JsMap.t Session)
  : JsMap.t Session * option User :=
  match token with
  | Some t =>
      if negb (truthy token) then (sessions, None)
      else match JsMap.get t sessions with
           | None => (sessions, None)
           | Some session =>
               if (expiresAt session <? now)%Z then (mapDelete t sessions, None)
               else match findUser (userId session) users with
                    | None => (sessions, None)
                    | Some user =>
                        (JsMap.set t {| userId := userId session;
                                        expiresAt := (nowRefresh + SESSION_TTL_MS)%Z |}
                           sessions,
                         Some user)
                    end
           end
  | None => (sessions, None)
  end.

(** [auth.slice(n)] on a string of at least [n] one-byte characters. *)
Fixpoint dropChars (n : nat) (s : string) : string :=
  match n, s with
  | O, _ => s
  | S n', String _ rest => dropChars n' rest
  | S _, EmptyString => EmptyString
  end.

(** [auth.startsWith('Bearer ') ? auth.slice(7) : null] for the header
    [auth = req.headers.authorization || '']. *)
Definition bearerToken (authorization : option string) : option string :=
  let auth := orElse authorization "" in
  if String.prefix "Bearer " auth then Some (dropChars 7 auth) else None.

(** What [authMiddleware] does with a request: it hands it on with the
    user, or answers 401. *)
Inductive AuthOutcome : Type :=
| Next (authUser : User)
| Unauthorized.

Definition authMiddleware (now nowRefresh : Z) (authorization : option string)
    (users : list User) (sessions : JsMap.t Session)
  : JsMap.t Session * AuthOutcome :=
  let (sessions', user) :=
    getUserByToken now nowRefresh (bearerToken authorization) users sessions in
  match user with
  | Some u => (sessions', Next u)
  | None => (sessions', Unauthorized)
  end.

(* ================================================================= *)
(** ** Train arrivals of the proxy *)

(** The list of arrivals [GET /api/cta/train-arrivals] of [ai-proxy.js]
    makes of the answer of the train tracker.  The fields of an item are
    strings or absent, as the tracker sends them; the time stamps are whole
    milliseconds. *)

Record EtaItem : Type := {
  rt : option string;
  destNm : option string;
  arrT : option string;
  isApp : option string;
  isDly : option string;
  isSch : option string
}.

(** [json?.ctatt?.eta]: an array, a single item, or nothing. *)
Inductive Eta : Type :=
| EtaArray (items : list EtaItem)
| EtaOne (item : EtaItem)
| EtaMissing.

(** [Array.isArray(eta) ? eta : (eta ? [eta] : [])]. *)
Definition etaList (eta : Eta) : list EtaItem :=
  match eta with
  | EtaArray items => items
  | EtaOne item => [item]
  | EtaMissing => []
  end.

Record TrainArrival : Type := {
  ta_route : string;
  ta_destination : string;
  ta_minutes : option Z;       (* [null] when the arrival time is unknown *)
  isApproaching : bool;
  isDelayed : bool;
  isScheduled : bool
}.

(** [Math.max(0, Math.round((ts - now) / 60000))]: [Math.round] takes the
    nearest whole number, the larger one on a tie. *)
Definition minutesUntil (now ts : Z) : Z :=
  Z.max 0 ((ts - now + 30000) / 60000).

Section TrainArrivals.

(** [String.prototype.trim], and [Date.parse] with [None] for NaN. *)
Variable trim : string -> string.
Variable dateParse : string -> option Z.

(** [String(f || '').trim()]. *)
Definition trimmed (f : option string) : string := trim (orElse f "").

(** The object the [map] callback returns for an item. *)
Definition arrivalOf (now : Z) (item : EtaItem) : TrainArrival :=
  let arr := trimmed (arrT item) in
  {| ta_route := orElse (Some (trimmed (rt item))) "Train";
     ta_destination := orElse (Some (trimmed (destNm item))) "Unknown";
     ta_minutes :=
       if truthy (Some arr) then
         match dateParse arr with
         | Some ts => Some (minutesUntil now ts)
         | None => None
         end
       else None;
     isApproaching := String.eqb (trimmed (isApp item)) "1";
     isDelayed := String.eqb (trimmed (isDly item)) "1";
     isScheduled := String.eqb (trimmed (isSch item)) "1" |}.

(** [typeof a.minutes === 'number']. *)
Definition timed (a : TrainArrival) : bool :=
  match ta_minutes a with
  | Some _ => true
  | None => false
  end.

(** The comparator [(a, b) => a.minutes - b.minutes] is not positive; in the
    subtraction [null] counts as 0. *)
Definition leMinutes (a b : TrainArrival) : bool :=
  let num := fun m : option Z => match m with Some x => x | None => 0%Z end in
  (num (ta_minutes a) <=? num (ta_minutes b))%Z.

(** [list.map(...).filter(...).sort(...)] at the time [now]. *)
Definition trainArrivals (now : Z) (eta : Eta) : list TrainArrival :=
  sortBy leMinutes (filter timed (map (arrivalOf now) (etaList eta))).

End TrainArrivals.

(* ================================================================= *)
(** ** Environment file of the proxy *)

(** The loader of the local [.env] file at the head of [ai-proxy.js].
    [process.env] is a map from names to strings. *)

(** [s.indexOf('=')] as the text before and behind the first equals sign;
    [None] when there is none. *)
Fixpoint splitAtEq (s : string) : option (string * string) :=
  match s with
  | EmptyString => None
  | String ch rest =>
      if Ascii.eqb ch "="%char then Some (EmptyString, rest)
      else match splitAtEq rest with
           | Some (before, behind) => Some (String ch before, behind)
           | None => None
           end
  end.

(** [s.endsWith(c)] for a character [c]. *)
Fixpoint endsWithChar (c : ascii) (s : string) : bool :=
  match s with
  | EmptyString => false
  | String ch EmptyString => Ascii.eqb ch c
  | String _ rest => endsWithChar c rest
  end.

Definition startsWithChar (c : ascii) (s : string) : bool :=
  match s with
  | String ch _ => Ascii.eqb ch c
  | EmptyString => false
  end.

Fixpoint dropLast (s : string) : string :=
  match s with
  | EmptyString => EmptyString
  | String ch EmptyString => EmptyString
  | String ch rest => String ch (dropLast rest)
  end.

(** [value.slice(1, -1)]. *)
Definition sliceInner (value : string) : string := dropLast (dropChars 1 value).

Section EnvFile.

Variable trim : string -> string.

(** The quotes around a value are taken off when both are double or both
    are single. *)
Definition unquoteValue (value : string) : string :=
  if (startsWithChar dquote value && endsWithChar dquote value)
     || (startsWithChar "'"%char value && endsWithChar "'"%char value)
  then sliceInner value else value.

(** The callback of [forEach]: one line of the file. *)
Definition envLine (env : JsMap.t string) (line : string) : JsMap.t string :=
  let trimmed := trim line in
  if String.eqb trimmed "" || startsWithChar "#"%char trimmed then env
  else match splitAtEq trimmed with
       | None => env                          (* [eq] is -1 *)
       | Some (EmptyString, _) => env         (* [eq] is 0 *)
       | Some (before, behind) =>
           let key := trim before in
           let value := trim behind in
           if String.eqb key "" then env
           else if JsMap.has key env then env
           else JsMap.set key (unquoteValue value) env
       end.

(** The loader: [file] is the text of [.env], [None] when there is no such
    file. *)
Definition loadEnv (file : option string) (env : JsMap.t string) : JsMap.t string :=
  match file with
  | Some raw => fold_left envLine (splitLines raw) env
  | None => env
  end.

(** The name a line defines, when it defines one. *)
Definition lineKey (line : string) : option string :=
  let trimmed := trim line in
  if String.eqb trimmed "" || startsWithChar "#"%char trimmed then None
  else match splitAtEq trimmed with
       | None => None
       | Some (EmptyString, _) => None
       | Some (before, _) =>
           if String.eqb (trim before) "" then None else Some (trim before)
       end.

End EnvFile.

(* ================================================================= *)
(** ** Vocabulary of the statements *)

(* ----------------------------------------------------------------- *)
(** *** Parser *)

(** What may follow a closing quote: the end of the line or a comma. *)
Definition fieldEnd (tail : string) : Prop :=
  tail = "" \/ exists t, tail = String comma t.

(* ----------------------------------------------------------------- *)
(** *** Builder *)

(** The first occurrence of every element, in order, leaving out what is
    already in [seen]. *)
Fixpoint distinctFrom (seen : list string) (l : list string) : list string :=
  match l with
  | [] => []
  | x :: rest =>
      if JsSet.has x seen then distinctFrom seen rest
      else x :: distinctFrom (seen ++ [x]) rest
  end.

Definition distinct (l : list string) : list string := distinctFrom [] l.

(** What a row of [stop_times.txt] contributes: the stop it names and the
    route of its trip, when both ids are there and the trip is known. *)
Definition rowStopRoute (hdr : string -> option nat) (tripToRoute : JsMap.t string)
    (line : string) : option (string * string) :=
  let row := parseCsvLine line in
  let trip_id := cell row (hdr "trip_id") in
  let stop_id := cell row (hdr "stop_id") in
  if truthy trip_id && truthy stop_id then
    match trip_id, stop_id with
    | Some t, Some s =>
        match JsMap.get t tripToRoute with
        | Some r => if truthy (Some r) then Some (s, r) else None
        | None => None
        end
    | _, _ => None
    end
  else None.

(** The routes serving [stop] in the source data, in stop-time row order,
    with repetitions. *)
Fixpoint routesServing (hdr : string -> option nat) (tripToRoute : JsMap.t string)
    (rows : list string) (stop : string) : list string :=
  match rows with
  | [] => []
  | line :: rest =>
      match rowStopRoute hdr tripToRoute line with
      | Some (s, r) =>
          if String.eqb stop s
          then r :: routesServing hdr tripToRoute rest stop
          else routesServing hdr tripToRoute rest stop
      | None => routesServing hdr tripToRoute rest stop
      end
  end.

(** The set of a stop, empty when the stop has none. *)
Definition setOf (stop : string) (m : JsMap.t JsSet.t) : JsSet.t :=
  match JsMap.get stop m with
  | Some set => set
  | None => []
  end.

(** [if (set.size < 12) set.add(r)]. *)
Definition addCapped (set : JsSet.t) (r : string) : JsSet.t :=
  if (JsSet.size set <? 12)%nat then JsSet.add r set else set.

(** Every route is stored under its own id. *)
Definition routesKeyed (m : JsMap.t Route) : Prop :=
  forall k v, In (k, v) m -> route_id v = k.

(** Every route id of every set is the route of some trip. *)
Definition fromTrips (tripToRoute : JsMap.t string) (m : JsMap.t JsSet.t) : Prop :=
  forall s set r, In (s, set) m -> In r set ->
                  exists t, JsMap.get t tripToRoute = Some r.

(* ----------------------------------------------------------------- *)
(** *** Coordinator *)

(** The promise every caller of a stale period is handed: the one in
    flight, or else the one the next build creates. *)
Definition sharedPromise (w : World) : nat :=
  match inFlight w with
  | Some p => p
  | None => nextPromise w
  end.

(** The URLs a build started on disk [d] at time [nowDl] fetches. *)
Definition fetchesOfStart (nowDl : Z) (d : Disk) : list string :=
  match downloadStart nowDl d with
  | UseCached _ => []
  | AwaitFetch u => [u]
  end.

(** What one build at most adds to the world: nothing, or one promise and
    at most one fetch. *)
Definition atMostOneBuild (w w' : World) : Prop :=
  match inFlight w with
  | Some _ =>
      inFlight w' = inFlight w /\ nextPromise w' = nextPromise w /\
      fetchLog w' = fetchLog w
  | None =>
      (inFlight w' = None /\ nextPromise w' = nextPromise w /\
       fetchLog w' = fetchLog w) \/
      (inFlight w' = Some (nextPromise w) /\
       nextPromise w' = S (nextPromise w) /\
       exists f, fetchLog w' = fetchLog w ++ f /\ (List.length f <= 1)%nat)
  end.

(** A caller gets the cache or the promise [p]. *)
Definition sharedReply (p : nat) (r : Reply) : Prop :=
  r = Awaits p \/ exists idx, r = Cached idx.

(* ----------------------------------------------------------------- *)
(** *** Query *)

(** The stops reported at the distance [d], a number. *)
Definition eqDistance (d : R) (s : RankedStop) : bool :=
  match distanceMi s with
  | Fin x => if Req_dec_T x d then true else false
  | _ => false
  end.

(** The distance of a returned stop from the query point, before rounding. *)
Definition rawDistance (ar : Arith) (lat0 lng0 : R) (s : RankedStop) : jsnum :=
  haversineMiles ar lat0 lng0 (rs_lat s) (rs_lng s).

(** A stop reported at a distance that is a number. *)
Definition numericDistance (s : RankedStop) : Prop :=
  exists d, distanceMi s = Fin d.

(** [a] is reported no farther than [b], both at distances that are
    numbers. *)
Definition reportedLe (a b : RankedStop) : Prop :=
  exists x y, distanceMi a = Fin x /\ distanceMi b = Fin y /\ (x <= y)%R.

(** A limit clamped into the range from 1 to 50. *)
Definition clampLimit (r : R) : R := Rmax 1 (Rmin 50 r).

(** The limit [findNearby] works with: the default 12 for a limit left out,
    zero or not a number, the clamped limit otherwise. *)
Definition effectiveLimit (limit : option jsnum) : R :=
  match limit with
  | None => 12
  | Some NaN => 12
  | Some PosInf => 50
  | Some NegInf => 1
  | Some (Fin r) => if Req_dec_T r 0 then 12 else clampLimit r
  end.

(* ================================================================= *)
(** ** Fixtures *)

(** Lines joined by line feeds. *)
Fixpoint unlines (ls : list string) : string :=
  match ls with
  | [] => ""
  | l :: rest => (l ++ String "010"%char (unlines rest))%string
  end.

(** [Number] on the numeric cells of the fixtures below; it agrees with
    JavaScript on them and is not consulted on any other string. *)
Definition fixtureNumber (s : string) : jsnum :=
  if String.eqb s "0" then Fin 0
  else if String.eqb s "1" then Fin 1
  else if String.eqb s "3" then Fin 3
  else if String.eqb s "41.88" then Fin 41.88
  else if String.eqb s "41.890785" then Fin 41.890785
  else if String.eqb s "41.890784" then Fin 41.890784
  else if String.eqb s "-87.63" then Fin (-87.63)
  else NaN.

(** 2026-03-01T12:00:00Z in epoch milliseconds, and in ISO form. *)
Definition T0 : Z := 1772366400000.
Definition T0_iso : string := "2026-03-01T12:00:00.000Z".

(* ----------------------------------------------------------------- *)
(** *** Feeds *)

Definition routesTxt : string :=
  unlines ["route_id,route_short_name,route_long_name,route_type";
           "R1,1,Bronzeville,3"].

(** The minimal feed of the specification's end-to-end scenario: one bus
    route, one trip, one stop, one stop time. *)
Definition minimalZip : Zip :=
  {| zip_length := 4096;
     zip_entries := Some
       [("routes.txt", routesTxt);
        ("trips.txt", unlines ["route_id,service_id,trip_id"; "R1,wk,trip1"]);
        ("stops.txt",
         unlines ["stop_id,stop_name,stop_lat,stop_lon,location_type";
                  "S1,State and Lake,41.88,-87.63,0"]);
        ("stop_times.txt", unlines ["trip_id,stop_id"; "trip1,S1"])] |}.

(** The same feed with a second trip whose route, [R9], has no row in
    [routes.txt]. *)
Definition danglingZip : Zip :=
  {| zip_length := 4200;
     zip_entries := Some
       [("routes.txt", routesTxt);
        ("trips.txt",
         unlines ["route_id,service_id,trip_id"; "R1,wk,trip1"; "R9,wk,trip9"]);
        ("stops.txt",
         unlines ["stop_id,stop_name,stop_lat,stop_lon,location_type";
                  "S1,State and Lake,41.88,-87.63,0"]);
        ("stop_times.txt", unlines ["trip_id,stop_id"; "trip1,S1"; "trip9,S1"])] |}.

(** A feed of two stops on the meridian of the scenario's query point,
    0.010785 and 0.010784 degrees of latitude north of it (about 0.7452 mi),
    in this order, and no stop times. *)
Definition roundingZip : Zip :=
  {| zip_length := 4300;
     zip_entries := Some
       [("routes.txt", routesTxt);
        ("trips.txt", unlines ["route_id,service_id,trip_id"; "R1,wk,trip1"]);
        ("stops.txt",
         unlines ["stop_id,stop_name,stop_lat,stop_lon,location_type";
                  "S2,Clark and Division,41.890785,-87.63,0";
                  "S3,Clark and Elm,41.890784,-87.63,0"]);
        ("stop_times.txt", unlines ["trip_id,stop_id"])] |}.

(** A cache directory holding [z], downloaded at [downloaded]. *)
Definition diskWith (z : Zip) (downloaded : Z) : Disk :=
  {| zipFile := Some z;
     metaFile := Some {| downloadedAt := Some downloaded;
                         meta_updatedAt := Some T0_iso;
                         url := GTFS_URL;
                         bytes := zip_length z |} |}.

Definition emptyDisk : Disk := {| zipFile := None; metaFile := None |}.

Definition fixtureSnapshot : Snapshot :=
  {| zipPath := ZIP_PATH; updatedAt := Some T0_iso |}.

(* ----------------------------------------------------------------- *)
(** *** Indexes and answers *)

Definition routeR1 : Route :=
  {| route_id := "R1"; short_name := "1"; long_name := "Bronzeville";
     route_type := Fin 3 |}.

Definition stopS1 : Stop :=
  {| stop_id := "S1"; stop_name := "State and Lake";
     lat := 41.88; lng := -87.63; location_type := Fin 0 |}.

Definition stopS2 : Stop :=
  {| stop_id := "S2"; stop_name := "Clark and Division";
     lat := 41.890785; lng := -87.63; location_type := Fin 0 |}.

Definition stopS3 : Stop :=
  {| stop_id := "S3"; stop_name := "Clark and Elm";
     lat := 41.890784; lng := -87.63; location_type := Fin 0 |}.

(** What the builder makes of [minimalZip], [danglingZip], [roundingZip]. *)
Definition minimalIndex : Index :=
  {| idx_updatedAt := Some T0_iso;
     stopById := [("S1", stopS1)];
     routeById := [("R1", routeR1)];
     stopToRoutes := [("S1", ["R1"])] |}.

Definition danglingIndex : Index :=
  {| idx_updatedAt := Some T0_iso;
     stopById := [("S1", stopS1)];
     routeById := [("R1", routeR1)];
     stopToRoutes := [("S1", ["R1"; "R9"])] |}.

Definition roundingIndex : Index :=
  {| idx_updatedAt := Some T0_iso;
     stopById := [("S2", stopS2); ("S3", stopS3)];
     routeById := [("R1", routeR1)];
     stopToRoutes := [] |}.

(** The answer's entry for a stop without routes, at reported distance [d]. *)
Definition ranked (s : Stop) (d : jsnum) : RankedStop :=
  {| rs_id := stop_id s; rs_name := stop_name s; rs_lat := lat s; rs_lng := lng s;
     distanceMi := d; modes := []; routes := [] |}.

(** The answer's entry for [S1] of the minimal feed, at the stop itself. *)
Definition rankedS1 : RankedStop :=
  {| rs_id := "S1"; rs_name := "State and Lake"; rs_lat := 41.88; rs_lng := -87.63;
     distanceMi := Fin 0; modes := [bus];
     routes := [{| ro_id := "R1"; shortName := "1"; longName := "Bronzeville";
                   ro_type := bus |}] |}.

(* ----------------------------------------------------------------- *)
(** *** Worlds and events *)

(** The module as it is loaded: [inFlight = null], [cache = null],
    [cacheLoadedAt = 0], over a given cache directory. *)
Definition initialWorld (d : Disk) : World :=
  {| cache := None; cacheLoadedAt := 0; inFlight := None; phase := Idle;
     disk := d; fetchLog := []; nextPromise := 0; settledPromises := [] |}.

(** An answer of the network at time [t]. *)
Definition arrival (o : FetchOutcome) (t : Z) : Arrival :=
  {| outcome := o; isoNow := "2026-03-02T12:00:00.001Z"; nowMs := t;
     metaWritable := true |}.

(** The world after a first call on an empty cache directory was answered
    by the network with status 503. *)
Definition failedWorld : World :=
  {| cache := None; cacheLoadedAt := 0; inFlight := Some 0%nat;
     phase := Settled (Err (DownloadFailed 503));
     disk := emptyDisk; fetchLog := [GTFS_URL]; nextPromise := 1;
     settledPromises := [] |}.

(** Two callers one millisecond apart, an hour after [T0]; each pair is the
    clock as [getIndex] and as [downloadZipIfNeeded] read it. *)
Definition firstCall : Z * Z := ((T0 + 3600000)%Z, (T0 + 3600000)%Z).
Definition secondCall : Z * Z := ((T0 + 3600001)%Z, (T0 + 3600001)%Z).

(* ================================================================= *)
(** ** Vocabulary of the edge cases, invariants and compositions *)

(* ----------------------------------------------------------------- *)
(** *** Writing rows *)

(** A field that can be written as it is: it holds no double quote and no
    comma. *)
Fixpoint plainField (s : string) : bool :=
  match s with
  | EmptyString => true
  | String ch rest =>
      negb (Ascii.eqb ch dquote) && negb (Ascii.eqb ch comma) && plainField rest
  end.

(** A writer of rows: a field goes between quotes when the writer asks for
    it or when the field is not plain. *)
Definition writeField (f : bool * string) : string :=
  if fst f || negb (plainField (snd f)) then quoteField (snd f) else snd f.

Fixpoint countChar (c : ascii) (s : string) : nat :=
  match s with
  | EmptyString => 0
  | String ch rest => (if Ascii.eqb ch c then 1 else 0) + countChar c rest
  end.

Definition hasChar (c : ascii) (s : string) : bool :=
  negb (countChar c s =? 0)%nat.

(* ----------------------------------------------------------------- *)
(** *** Writing text files *)

Definition LF : string := String "010"%char "".
Definition CRLF : string := String "013"%char (String "010"%char "").

(** Lines written one after the other, each followed by the line end
    [sep]. *)
Fixpoint linesWith (sep : string) (ls : list string) : string :=
  match ls with
  | [] => ""
  | l :: rest => (l ++ sep ++ linesWith sep rest)%string
  end.

(** A line that holds neither a line feed nor a carriage return. *)
Definition lineEndFree (l : string) : bool :=
  negb (hasChar "010"%char l) && negb (hasChar "013"%char l).

(* ----------------------------------------------------------------- *)
(** *** Archives and tables *)

(** The four tables, in the order in which [buildGtfsIndex] reads them. *)
Definition TABLES : list string :=
  ["routes.txt"; "trips.txt"; "stops.txt"; "stop_times.txt"].

(** The entries of the archive on the disk, when it can be opened. *)
Definition archiveFiles (d : Disk) : option (list (string * string)) :=
  match zipFile d with
  | Some z => zip_entries z
  | None => None
  end.

(** The first of [names] the archive has no entry for. *)
Fixpoint firstMissing (files : list (string * string)) (names : list string)
  : option string :=
  match names with
  | [] => None
  | n :: rest =>
      match findEntry n files with
      | None => Some n
      | Some _ => firstMissing files rest
      end
  end.

(** The entry [name] is there and has a line that is not blank. *)
Definition hasHeader (files : list (string * string)) (name : string) : bool :=
  match findEntry name files with
  | Some text => existsb (fun l => negb (isBlank l)) (splitLines text)
  | None => false
  end.

(** What the tables of a built index satisfy. *)
Definition stopsKeyed (m : JsMap.t Stop) : Prop :=
  forall k v, In (k, v) m -> stop_id v = k /\ k <> "" /\ stop_name v <> "".

Definition routesNamed (m : JsMap.t Route) : Prop :=
  forall k v, In (k, v) m -> route_id v = k /\ k <> "".

Definition routeSetsFilled (m : JsMap.t JsSet.t) : Prop :=
  forall k set,
    In (k, set) m ->
    k <> "" /\ set <> [] /\ NoDup set /\ (List.length set <= 12)%nat /\
    ~ In "" set.

(* ----------------------------------------------------------------- *)
(** *** Bookkeeping of the coordinator *)

(** The promises are numbered in the order in which the builds start, and
    [settledPromises] holds the newest first. *)
Definition settledInOrder (w : World) : Prop :=
  map fst (settledPromises w) = rev (seq 0 (List.length (settledPromises w))).

(** One build at a time: [inFlight] is set exactly while a build runs, the
    promise in flight is the newest one, and every older one has settled. *)
Definition oneBuildAtATime (w : World) : Prop :=
  (inFlight w = None <-> phase w = Idle) /\
  match inFlight w with
  | Some p =>
      p = List.length (settledPromises w) /\ nextPromise w = S p
  | None => nextPromise w = List.length (settledPromises w)
  end.

(** No build fetches twice, and nothing but the feed is fetched. *)
Definition fetchesBounded (w : World) : Prop :=
  (List.length (fetchLog w) <= nextPromise w)%nat /\
  Forall (fun u => u = GTFS_URL) (fetchLog w).

(** The cache holds nothing, or what a build has produced. *)
Definition cacheFromBuild (w : World) : Prop :=
  match cache w with
  | None => cacheLoadedAt w = 0%Z
  | Some idx =>
      (exists p, In (p, Ok idx) (settledPromises w)) \/ phase w = ThenDone (Ok idx)
  end.

Definition coherent (w : World) : Prop :=
  oneBuildAtATime w /\ settledInOrder w /\ fetchesBounded w /\ cacheFromBuild w.

(* ----------------------------------------------------------------- *)
(** *** Answers *)

(** The number of stops [findNearby] returns at most: the whole part of the
    effective limit. *)
Definition maxStops (limit : option jsnum) : nat :=
  Z.to_nat (Int_part (effectiveLimit limit)).

(** The entry of the answer for a stop of the table. *)
Definition entryOf (ar : Arith) (idx : Index) (lat0 lng0 : R) (stop : Stop)
  : RankedStop :=
  rankStop idx stop (haversineMiles ar lat0 lng0 (lat stop) (lng stop)).

(* ----------------------------------------------------------------- *)
(** *** Route *)

(** A query parameter that [||] replaces by the default. *)
Definition falsyNumber (n : jsnum) : bool :=
  match n with
  | NaN => true
  | Fin r => if Req_dec_T r 0 then true else false
  | _ => false
  end.

(* ----------------------------------------------------------------- *)
(** *** Sessions *)

(** A registered user, for the examples. *)
Definition fixtureUser : User :=
  {| user_id := "u1"; email := "ada@example.org"; firstName := "Ada";
     lastName := "L"; salt := Some "00"; hash := Some "ff"; createdAt := T0_iso |}.

(* ################################################################# *)
(** * Properties *)

(* ================================================================= *)
(** ** Flat-record parser *)

Lemma string_app_empty_r (s : string) : (s ++ "")%string = s.
Proof. induction s as [|c s IH]; simpl; [reflexivity | now rewrite IH]. Qed.

Lemma string_app_assoc (a b c : string) :
  ((a ++ b) ++ c)%string = (a ++ (b ++ c))%string.
Proof. induction a as [|x a IH]; simpl; [reflexivity | now rewrite IH]. Qed.

Lemma string_app_snoc (a : string) (ch : ascii) (b : string) :
  ((a ++ String ch "") ++ b)%string = (a ++ String ch b)%string.
Proof. now rewrite string_app_assoc. Qed.

(** Inside quotes the loop copies the field; the quote before a [fieldEnd]
    closes it. *)
Lemma parseCsvFrom_inside_quotes (f tail : string) :
  fieldEnd tail ->
  forall out cur,
    parseCsvFrom (escapeQuotes f ++ String dquote tail) out cur true =
    parseCsvFrom tail out (cur ++ f) false.
Proof.
  intros Htail. induction f as [|ch f IH]; intros out cur.
  - rewrite string_app_empty_r. simpl.
    destruct Htail as [-> | [t ->]]; reflexivity.
  - simpl. destruct (Ascii.eqb ch dquote) eqn:Hq.
    + apply Ascii.eqb_eq in Hq. subst ch. simpl.
      rewrite IH. now rewrite string_app_snoc.
    + simpl. rewrite Hq. rewrite andb_false_r.
      rewrite IH. now rewrite string_app_snoc.
Qed.

Lemma parseCsvFrom_quoteField (f tail : string) (out : list string) :
  fieldEnd tail ->
  parseCsvFrom (quoteField f ++ tail) out "" false =
  parseCsvFrom tail out f false.
Proof.
  intros Htail. unfold quoteField.
  change (parseCsvFrom (String dquote ((escapeQuotes f ++ String dquote "") ++ tail)) out "" false
          = parseCsvFrom tail out f false).
  rewrite string_app_snoc.
  assert (Hopen : forall body,
             body <> EmptyString ->
             parseCsvFrom (String dquote body) out "" false =
             parseCsvFrom body out "" true).
  { intros [|c b] Hne; [congruence | reflexivity]. }
  rewrite Hopen.
  - now rewrite parseCsvFrom_inside_quotes.
  - destruct (escapeQuotes f); discriminate.
Qed.

(** Quoted fields come back as they were written, whatever commas and
    quotes they hold. *)
Lemma parseCsvFrom_quoted_fields (f : string) (fs out : list string) :
  parseCsvFrom (joinComma (map quoteField (f :: fs))) out "" false =
  out ++ f :: fs.
Proof.
  revert f out. induction fs as [|g fs IH]; intros f out.
  - simpl joinComma. rewrite <- (string_app_empty_r (quoteField f)).
    rewrite parseCsvFrom_quoteField by (now left). reflexivity.
  - change (joinComma (map quoteField (f :: g :: fs)))
      with (quoteField f ++ String comma (joinComma (map quoteField (g :: fs))))%string.
    rewrite parseCsvFrom_quoteField by (right; eauto).
    change (parseCsvFrom (String comma (joinComma (map quoteField (g :: fs)))) out f false)
      with (parseCsvFrom (joinComma (map quoteField (g :: fs))) (out ++ [f]) "" false).
    rewrite IH. now rewrite <- app_assoc.
Qed.

Theorem parseCsvLine_quoted_fields (f : string) (fs : list string) :
  parseCsvLine (joinComma (map quoteField (f :: fs))) = f :: fs.
Proof. unfold parseCsvLine. now rewrite parseCsvFrom_quoted_fields. Qed.

Example exampleRow_chars :
  String.length exampleRow = 27 /\
  exampleRow =
    String dquote ("5,000" ++ String dquote ("," ++ String dquote
      ("He said " ++ String dquote (String dquote ("hi" ++ String dquote
        (String dquote (String dquote ",42")))))))%string.
Proof. split; reflexivity. Qed.

(** C8.  The row [exampleRow], which [exampleRow_chars] spells out character
    by character, parses to exactly three fields: 5,000 with its comma, the
    sentence with one quote character on each side of hi, and 42.  The comma
    between the quotes does not separate, and each doubled quote gives one
    quote character. *)
Theorem C8_parseCsvLine_example :
  parseCsvLine exampleRow =
    ["5,000"; ("He said " ++ String dquote ("hi" ++ String dquote ""))%string; "42"]
  /\ List.length (parseCsvLine exampleRow) = 3%nat
  /\ parseCsvLine (quoteField "5,000") = ["5,000"]
  /\ parseCsvLine (quoteField (String dquote "")) = [String dquote ""].
Proof. repeat split; reflexivity. Qed.

(* ================================================================= *)
(** ** Maps and sets *)

Module JsMapFacts.

Lemma get_set_same {V : Type} (k : string) (v : V) (m : JsMap.t V) :
  JsMap.get k (JsMap.set k v m) = Some v.
Proof.
  induction m as [|[k' v'] m IH]; simpl.
  - now rewrite String.eqb_refl.
  - destruct (String.eqb k k') eqn:E; simpl; rewrite E; [reflexivity | exact IH].
Qed.

Lemma get_set_other {V : Type} (k k0 : string) (v : V) (m : JsMap.t V) :
  k <> k0 -> JsMap.get k (JsMap.set k0 v m) = JsMap.get k m.
Proof.
  intros Hne. induction m as [|[k' v'] m IH]; simpl.
  - destruct (String.eqb_spec k k0); [contradiction | reflexivity].
  - destruct (String.eqb_spec k0 k'); simpl.
    + subst k'. destruct (String.eqb_spec k k0); [contradiction | reflexivity].
    + destruct (String.eqb k k'); [reflexivity | exact IH].
Qed.

Lemma get_In {V : Type} (k : string) (v : V) (m : JsMap.t V) :
  JsMap.get k m = Some v -> In (k, v) m.
Proof.
  induction m as [|[k' v'] m IH]; simpl; [discriminate |].
  destruct (String.eqb_spec k k').
  - intros [= ->]. subst. now left.
  - intros H. right. now apply IH.
Qed.

Lemma get_some_has {V : Type} (k : string) (v : V) (m : JsMap.t V) :
  JsMap.get k m = Some v -> JsMap.has k m = true.
Proof. unfold JsMap.has. now intros ->. Qed.

Lemma has_keys {V : Type} (k : string) (m : JsMap.t V) :
  JsMap.has k m = true <-> In k (JsMap.keys m).
Proof.
  unfold JsMap.has, JsMap.keys.
  induction m as [|[k' v'] m IH]; simpl.
  - split; [discriminate | contradiction].
  - destruct (String.eqb_spec k k').
    + subst. split; auto.
    + rewrite IH. split; [auto | intros [H | H]; [congruence | exact H]].
Qed.

(** Every element of a map built by [set] was put there by a [set], or
    was in the map before. *)
Lemma In_set {V : Type} (k k0 : string) (v v0 : V) (m : JsMap.t V) :
  In (k, v) (JsMap.set k0 v0 m) -> (k = k0 /\ v = v0) \/ In (k, v) m.
Proof.
  induction m as [|[k' v'] m IH]; simpl.
  - intros [[= <- <-] | []]. now left.
  - destruct (String.eqb_spec k0 k'); simpl.
    + intros [[= <- <-] | H]; [left; now subst | right; now right].
    + intros [H | H]; [right; now left |].
      destruct (IH H) as [? | ?]; [now left | right; now right].
Qed.

End JsMapFacts.

Module JsSetFacts.

Lemma has_In (x : string) (s : JsSet.t) : JsSet.has x s = true <-> In x s.
Proof.
  unfold JsSet.has. rewrite existsb_exists. split.
  - intros [y [Hy E]]. apply String.eqb_eq in E. now subst.
  - intros H. exists x. split; [exact H | apply String.eqb_refl].
Qed.

Lemma has_false (x : string) (s : JsSet.t) : JsSet.has x s = false <-> ~ In x s.
Proof.
  rewrite <- has_In. destruct (JsSet.has x s); split; congruence.
Qed.

Lemma In_add (x y : string) (s : JsSet.t) :
  In y (JsSet.add x s) -> y = x \/ In y s.
Proof.
  unfold JsSet.add. destruct (JsSet.has x s); [now right |].
  rewrite in_app_iff. simpl. intuition.
Qed.

Lemma NoDup_add (x : string) (s : JsSet.t) : NoDup s -> NoDup (JsSet.add x s).
Proof.
  intros Hs. unfold JsSet.add. destruct (JsSet.has x s) eqn:E; [exact Hs |].
  apply has_false in E.
  apply NoDup_rev in Hs. rewrite <- (rev_involutive (s ++ [x])).
  apply NoDup_rev. rewrite rev_app_distr. simpl. constructor; [|exact Hs].
  now rewrite <- in_rev.
Qed.

End JsSetFacts.

(* ================================================================= *)
(** ** Index builder: the capped route sets *)

Lemma distinctFrom_NoDup_aux (l seen : list string) :
  NoDup seen -> NoDup (seen ++ distinctFrom seen l).
Proof.
  revert seen. induction l as [|x l IH]; intros seen Hseen; simpl.
  - now rewrite app_nil_r.
  - destruct (JsSet.has x seen) eqn:E; [now apply IH |].
    specialize (IH (seen ++ [x])). rewrite <- app_assoc in IH. simpl in IH.
    apply IH. replace (seen ++ [x]) with (JsSet.add x seen).
    + now apply JsSetFacts.NoDup_add.
    + unfold JsSet.add. now rewrite E.
Qed.

Lemma distinct_NoDup (l : list string) : NoDup (distinct l).
Proof. exact (distinctFrom_NoDup_aux l [] (NoDup_nil _)). Qed.

Lemma distinctFrom_In (l seen : list string) (x : string) :
  In x (distinctFrom seen l) <-> In x l /\ ~ In x seen.
Proof.
  revert seen. induction l as [|y l IH]; intros seen; simpl.
  - tauto.
  - destruct (JsSet.has y seen) eqn:E.
    + apply JsSetFacts.has_In in E. rewrite IH.
      split; [tauto | intros [[-> | H] Hn]; [contradiction | tauto]].
    + apply JsSetFacts.has_false in E. simpl. rewrite IH, in_app_iff. simpl.
      destruct (string_dec y x) as [-> | Hne]; [tauto |].
      split; [tauto | intros [[? | ?] Hn]; [contradiction | right; tauto]].
Qed.

Lemma distinct_In (l : list string) (x : string) : In x (distinct l) <-> In x l.
Proof. unfold distinct. rewrite distinctFrom_In. simpl. tauto. Qed.

(** The first occurrences come in the order of the list: [distinct] of a
    list and of one of its prefixes start alike. *)
Lemma distinctFrom_app (l1 l2 seen : list string) :
  distinctFrom seen (l1 ++ l2) =
  distinctFrom seen l1 ++ distinctFrom (seen ++ distinctFrom seen l1) l2.
Proof.
  revert seen. induction l1 as [|x l1 IH]; intros seen; simpl.
  - now rewrite app_nil_r.
  - destruct (JsSet.has x seen); [apply IH |].
    simpl. rewrite IH. now rewrite <- app_assoc.
Qed.

(** The loop on one set: the cap keeps the first twelve distinct routes. *)
Lemma fold_addCapped (l : list string) :
  forall set : JsSet.t,
    (List.length set <= 12)%nat ->
    fold_left addCapped l set = firstn 12 (set ++ distinctFrom set l).
Proof.
  induction l as [|r l IH]; intros set Hlen; cbn [fold_left distinctFrom].
  - rewrite app_nil_r. symmetry. now apply firstn_all2.
  - unfold addCapped at 2. unfold JsSet.size, JsSet.add.
    destruct (Nat.ltb_spec (List.length set) 12) as [Hlt | Hge].
    + destruct (JsSet.has r set) eqn:E.
      * now apply IH.
      * rewrite IH by (rewrite length_app; simpl; lia).
        now rewrite <- app_assoc.
    + assert (Hfull : forall tl, firstn 12 (set ++ tl) = set).
      { intros tl. rewrite firstn_app.
        replace (12 - List.length set)%nat with 0%nat by lia.
        rewrite firstn_O, app_nil_r. apply firstn_all2. lia. }
      rewrite IH by exact Hlen. destruct (JsSet.has r set); now rewrite !Hfull.
Qed.

Lemma stopTimeStep_rowStopRoute (hdr : string -> option nat)
    (tripToRoute : JsMap.t string) (m : JsMap.t JsSet.t) (line : string) :
  stopTimeStep hdr tripToRoute m line =
  match rowStopRoute hdr tripToRoute line with
  | Some (s, r) => JsMap.set s (addCapped (setOf s m) r) m
  | None => m
  end.
Proof.
  unfold stopTimeStep, rowStopRoute, addCapped, setOf.
  destruct (cell (parseCsvLine line) (hdr "trip_id")) as [t|];
    destruct (cell (parseCsvLine line) (hdr "stop_id")) as [s|];
    try reflexivity.
  - destruct (truthy (Some t)), (truthy (Some s)); simpl; try reflexivity.
    destruct (JsMap.get t tripToRoute) as [r|]; [|reflexivity].
    destruct r; reflexivity.
  - destruct (truthy (Some t)); reflexivity.
Qed.

Lemma setOf_stopTimes (hdr : string -> option nat) (tripToRoute : JsMap.t string)
    (stop : string) (rows : list string) :
  forall m,
    setOf stop (fold_left (stopTimeStep hdr tripToRoute) rows m) =
    fold_left addCapped (routesServing hdr tripToRoute rows stop) (setOf stop m).
Proof.
  induction rows as [|line rows IH]; intros m; simpl; [reflexivity |].
  rewrite IH, stopTimeStep_rowStopRoute.
  destruct (rowStopRoute hdr tripToRoute line) as [[s r]|]; [|reflexivity].
  destruct (String.eqb_spec stop s) as [-> | Hne]; simpl.
  - unfold setOf at 1. now rewrite JsMapFacts.get_set_same.
  - unfold setOf at 1. rewrite JsMapFacts.get_set_other by exact Hne. reflexivity.
Qed.

(** A stop has a set as soon as one row serves it. *)
Lemma get_stopTimes_none (hdr : string -> option nat) (tripToRoute : JsMap.t string)
    (stop : string) (rows : list string) :
  forall m,
    JsMap.get stop (fold_left (stopTimeStep hdr tripToRoute) rows m) = None <->
    JsMap.get stop m = None /\ routesServing hdr tripToRoute rows stop = [].
Proof.
  induction rows as [|line rows IH]; intros m; simpl; [tauto |].
  rewrite IH, stopTimeStep_rowStopRoute.
  destruct (rowStopRoute hdr tripToRoute line) as [[s r]|]; [|reflexivity].
  destruct (String.eqb_spec stop s) as [-> | Hne].
  - rewrite JsMapFacts.get_set_same. split; intros [H1 H2]; discriminate.
  - rewrite JsMapFacts.get_set_other by exact Hne. reflexivity.
Qed.

(** C5.  Walking [stop_times.txt] never fails once the header is there, and
    the set of a stop is [None] when no row serves it and otherwise the
    first 12 distinct routes of its rows, in row order: at most 12 routes,
    without repetition, and exactly 12 when more than 12 distinct routes
    serve the stop. *)
Theorem C5_stop_routes_capped (tripToRoute : JsMap.t string)
    (header : string) (rows : list string) (stop : string) :
  let hdr := headerIndex (parseCsvLine header) in
  let served := routesServing hdr tripToRoute rows stop in
  exists stopRoutes,
    buildStopToRoutes tripToRoute (header :: rows) = Ok stopRoutes /\
    JsMap.get stop stopRoutes =
      match served with
      | [] => None
      | _ :: _ => Some (firstn 12 (distinct served))
      end /\
    (List.length (setOf stop stopRoutes) <= 12)%nat /\
    NoDup (setOf stop stopRoutes) /\
    ((12 < List.length (distinct served))%nat ->
     List.length (setOf stop stopRoutes) = 12%nat /\
     setOf stop stopRoutes = firstn 12 (distinct served)).
Proof.
  intros hdr served.
  exists (fold_left (stopTimeStep hdr tripToRoute) rows JsMap.empty).
  assert (Hset : setOf stop (fold_left (stopTimeStep hdr tripToRoute) rows JsMap.empty)
                 = firstn 12 (distinct served)).
  { rewrite setOf_stopTimes. unfold setOf. simpl.
    rewrite fold_addCapped by (simpl; lia). reflexivity. }
  split; [reflexivity |]. split; [|split; [|split]].
  - destruct (JsMap.get stop (fold_left (stopTimeStep hdr tripToRoute) rows JsMap.empty))
      as [set|] eqn:Hget.
    + assert (Hne : served <> []).
      { intros Hnil.
        assert (H : JsMap.get stop
                      (fold_left (stopTimeStep hdr tripToRoute) rows JsMap.empty) = None)
          by (apply get_stopTimes_none; split; [reflexivity | exact Hnil]).
        congruence. }
      unfold setOf in Hset. rewrite Hget in Hset. subst set.
      destruct served; [congruence | reflexivity].
    + apply get_stopTimes_none in Hget. destruct Hget as [_ Hnil].
      fold served in Hnil. now rewrite Hnil.
  - rewrite Hset. rewrite length_firstn. lia.
  - rewrite Hset.
    pose proof (distinct_NoDup served) as Hnd.
    rewrite <- (firstn_skipn 12 (distinct served)) in Hnd.
    now apply NoDup_app_remove_r in Hnd.
  - intros Hmany. rewrite Hset. split; [|reflexivity].
    rewrite length_firstn. lia.
Qed.

(* ================================================================= *)
(** ** Index builder: the tables of a built index *)

Example minimalIndex_built :
  indexFromSnapshot fixtureNumber (diskWith minimalZip T0) fixtureSnapshot
  = Ok minimalIndex.
Proof. reflexivity. Qed.

Example danglingIndex_built :
  indexFromSnapshot fixtureNumber (diskWith danglingZip T0) fixtureSnapshot
  = Ok danglingIndex.
Proof. reflexivity. Qed.

Example roundingIndex_built :
  indexFromSnapshot fixtureNumber (diskWith roundingZip T0) fixtureSnapshot
  = Ok roundingIndex.
Proof. reflexivity. Qed.

(* ================================================================= *)
(** ** Sorting and slicing *)

Section SortFacts.

Context {A : Type}.
Variable le : A -> A -> bool.

Lemma insertBy_perm (x : A) (l : list A) : Permutation (insertBy le x l) (x :: l).
Proof.
  induction l as [|y l IH]; simpl; [reflexivity |].
  destruct (le x y); [reflexivity |].
  rewrite IH. apply perm_swap.
Qed.

Lemma sortBy_perm (l : list A) : Permutation (sortBy le l) l.
Proof.
  induction l as [|x l IH]; simpl; [reflexivity |].
  rewrite insertBy_perm. now constructor.
Qed.

Lemma sortBy_length (l : list A) : List.length (sortBy le l) = List.length l.
Proof. apply Permutation_length, sortBy_perm. Qed.

Lemma sortBy_In (x : A) (l : list A) : In x (sortBy le l) <-> In x l.
Proof.
  split; apply Permutation_in; [|symmetry]; apply sortBy_perm.
Qed.

(** Stability, for a class [p] of elements none of which exceeds
    another: sorting does not reorder the class. *)
Lemma filter_insertBy (p : A -> bool) (x : A) (l : list A) :
  (forall y, p x = true -> p y = true -> le x y = true) ->
  filter p (insertBy le x l) = filter p (x :: l).
Proof.
  intros Hclass. induction l as [|y l IH]; [reflexivity |].
  cbn [insertBy]. destruct (le x y) eqn:Hxy; [reflexivity |].
  cbn [filter] in *. rewrite IH.
  destruct (p x) eqn:Hx, (p y) eqn:Hy; try reflexivity.
  rewrite (Hclass y eq_refl Hy) in Hxy. discriminate.
Qed.

Lemma filter_sortBy (p : A -> bool) (l : list A) :
  (forall x y, p x = true -> p y = true -> le x y = true) ->
  filter p (sortBy le l) = filter p l.
Proof.
  intros Hclass. induction l as [|x l IH]; [reflexivity |].
  cbn [sortBy]. rewrite filter_insertBy by (intros y; apply Hclass).
  cbn [filter]. now rewrite IH.
Qed.

Hypothesis le_total : forall x y, le x y = true \/ le y x = true.
Hypothesis le_trans : forall x y z, le x y = true -> le y z = true -> le x z = true.

Lemma insertBy_sorted (x : A) (l : list A) :
  StronglySorted (fun a b => le a b = true) l ->
  StronglySorted (fun a b => le a b = true) (insertBy le x l).
Proof.
  induction 1 as [|y l Hs IH Hall]; simpl.
  - constructor; constructor.
  - destruct (le x y) eqn:Hxy.
    + constructor; [now constructor |].
      constructor; [exact Hxy |].
      eapply Forall_impl; [|exact Hall]. intros z Hyz. eapply le_trans; eauto.
    + constructor; [exact IH |].
      assert (Hyx : le y x = true) by (destruct (le_total x y); congruence).
      apply Forall_forall. intros z Hz.
      apply (Permutation_in _ (insertBy_perm x l)) in Hz.
      destruct Hz as [<- | Hz]; [exact Hyx |].
      rewrite Forall_forall in Hall. now apply Hall.
Qed.

Lemma sortBy_sorted (l : list A) :
  StronglySorted (fun a b => le a b = true) (sortBy le l).
Proof.
  induction l as [|x l IH]; simpl; [constructor | now apply insertBy_sorted].
Qed.

End SortFacts.

(** The same where [le] is total and transitive on the elements that
    satisfy [P] only. *)
Lemma insertBy_sorted_on {A : Type} (le : A -> A -> bool) (P : A -> Prop) :
  (forall x y, P x -> P y -> le x y = true \/ le y x = true) ->
  (forall x y z, P x -> P y -> P z ->
                 le x y = true -> le y z = true -> le x z = true) ->
  forall x l,
    P x -> Forall P l ->
    StronglySorted (fun a b => le a b = true) l ->
    StronglySorted (fun a b => le a b = true) (insertBy le x l).
Proof.
  intros Htotal Htrans x l Hx HP Hsorted.
  induction Hsorted as [|y l Hs IH Hall]; simpl.
  - constructor; constructor.
  - apply Forall_cons_iff in HP. destruct HP as [Hy HP].
    destruct (le x y) eqn:Hxy.
    + constructor; [now constructor |].
      constructor; [exact Hxy |].
      rewrite Forall_forall in *. intros z Hz.
      apply (Htrans x y z); auto.
    + constructor; [now apply IH |].
      assert (Hyx : le y x = true) by (destruct (Htotal x y Hx Hy); congruence).
      apply Forall_forall. intros z Hz.
      apply (Permutation_in _ (insertBy_perm le x l)) in Hz.
      destruct Hz as [<- | Hz]; [exact Hyx |].
      rewrite Forall_forall in Hall. now apply Hall.
Qed.

Lemma sortBy_sorted_on {A : Type} (le : A -> A -> bool) (P : A -> Prop) :
  (forall x y, P x -> P y -> le x y = true \/ le y x = true) ->
  (forall x y z, P x -> P y -> P z ->
                 le x y = true -> le y z = true -> le x z = true) ->
  forall l, Forall P l -> StronglySorted (fun a b => le a b = true) (sortBy le l).
Proof.
  intros Htotal Htrans l HP.
  induction HP as [|x l Hx HP IH]; simpl; [constructor |].
  apply (insertBy_sorted_on le P Htotal Htrans); [exact Hx | | exact IH].
  apply Forall_forall. intros y Hy. apply sortBy_In in Hy.
  rewrite Forall_forall in HP. now apply HP.
Qed.

Lemma firstn_In_inv {A : Type} (x : A) (n : nat) (l : list A) :
  In x (firstn n l) -> In x l.
Proof.
  intros H. rewrite <- (firstn_skipn n l). apply in_or_app. now left.
Qed.

Lemma firstn_sorted {A : Type} (R : A -> A -> Prop) (n : nat) (l : list A) :
  StronglySorted R l -> StronglySorted R (firstn n l).
Proof.
  intros Hs. revert n. induction Hs as [|a l Hs IH Hall]; intros [|n]; simpl;
    try constructor.
  - apply IH.
  - apply Forall_forall. intros y Hy. rewrite Forall_forall in Hall.
    apply Hall. eapply firstn_In_inv; eauto.
Qed.

(** [slice(0, end)] is a prefix. *)
Lemma sliceTo_prefix {A : Type} (stop : jsnum) (l : list A) :
  exists k, sliceTo stop l = firstn k l.
Proof.
  destruct stop as [| | |r]; simpl.
  - now exists 0%nat.
  - exists (List.length l). symmetry. apply firstn_all.
  - now exists 0%nat.
  - destruct (truncate r <? 0)%Z; eauto.
Qed.

Lemma sliceTo_In {A : Type} (x : A) (stop : jsnum) (l : list A) :
  In x (sliceTo stop l) -> In x l.
Proof.
  destruct (sliceTo_prefix stop l) as [k ->]. apply firstn_In_inv.
Qed.

(* ================================================================= *)
(** ** Index builder and query: where route ids are resolved *)

Section BuiltIndex.

Variable Number : string -> jsnum.

(** The four tables behind a built index. *)
Lemma indexFromSnapshot_tables (d : Disk) (s : Snapshot) (idx : Index) :
  indexFromSnapshot Number d s = Ok idx ->
  exists routesLines tripsLines stopsLines stopTimesLines tripToRoute,
    readZipEntryToLines d "routes.txt" = Ok routesLines /\
    readZipEntryToLines d "trips.txt" = Ok tripsLines /\
    readZipEntryToLines d "stops.txt" = Ok stopsLines /\
    readZipEntryToLines d "stop_times.txt" = Ok stopTimesLines /\
    buildRouteById Number routesLines = Ok (routeById idx) /\
    buildTripToRoute tripsLines = Ok tripToRoute /\
    buildStopById Number stopsLines = Ok (stopById idx) /\
    buildStopToRoutes tripToRoute stopTimesLines = Ok (stopToRoutes idx) /\
    idx_updatedAt idx = updatedAt s.
Proof.
  unfold indexFromSnapshot, bind. intros H.
  destruct (readZipEntryToLines d "routes.txt") as [rl|]; [|discriminate].
  destruct (readZipEntryToLines d "trips.txt") as [tl|]; [|discriminate].
  destruct (readZipEntryToLines d "stops.txt") as [sl|]; [|discriminate].
  destruct (readZipEntryToLines d "stop_times.txt") as [stl|]; [|discriminate].
  destruct (buildRouteById Number rl) as [routes|] eqn:Hr; [|discriminate].
  destruct (buildTripToRoute tl) as [t2r|] eqn:Ht; [|discriminate].
  destruct (buildStopById Number sl) as [stops|] eqn:Hs; [|discriminate].
  destruct (buildStopToRoutes t2r stl) as [sr|] eqn:Hsr; [|discriminate].
  injection H as <-. exists rl, tl, sl, stl, t2r. simpl. repeat split; assumption.
Qed.

Lemma routeStep_keyed (hdr : string -> option nat) (m : JsMap.t Route)
    (line : string) :
  routesKeyed m -> routesKeyed (routeStep Number hdr m line).
Proof.
  intros Hm. unfold routeStep.
  destruct (cell (parseCsvLine line) (hdr "route_id")) as [r|]; [|exact Hm].
  destruct (negb (truthy (Some r))); [exact Hm |].
  intros k v Hin. apply JsMapFacts.In_set in Hin.
  destruct Hin as [[-> ->] | Hin]; [reflexivity | now apply Hm].
Qed.

Lemma buildRouteById_keyed (routesLines : list string) (m : JsMap.t Route) :
  buildRouteById Number routesLines = Ok m -> routesKeyed m.
Proof.
  unfold buildRouteById, bind.
  destruct (splitHeader routesLines) as [[hdr rows]|]; [|discriminate].
  simpl. intros [= <-].
  assert (Hgen : forall m0, routesKeyed m0 ->
                 routesKeyed (fold_left (routeStep Number hdr) rows m0)).
  { induction rows as [|line rows IH]; intros m0 Hm0; simpl; [exact Hm0 |].
    apply IH. now apply routeStep_keyed. }
  apply Hgen. intros k v [].
Qed.

End BuiltIndex.

(** A row of [stop_times.txt] contributes the route its trip has in the
    trip table, whether or not [routes.txt] knows that route. *)
Lemma rowStopRoute_from_trip (hdr : string -> option nat)
    (tripToRoute : JsMap.t string) (line s r : string) :
  rowStopRoute hdr tripToRoute line = Some (s, r) ->
  exists t, JsMap.get t tripToRoute = Some r.
Proof.
  unfold rowStopRoute.
  destruct (truthy _ && truthy _); [|discriminate].
  destruct (cell (parseCsvLine line) (hdr "trip_id")) as [t|]; [|discriminate].
  destruct (cell (parseCsvLine line) (hdr "stop_id")) as [s'|]; [|discriminate].
  destruct (JsMap.get t tripToRoute) as [r'|] eqn:Hget; [|discriminate].
  destruct (truthy (Some r')); [|discriminate].
  intros [= -> ->]. now exists t.
Qed.

Lemma stopTimeStep_fromTrips (hdr : string -> option nat)
    (tripToRoute : JsMap.t string) (m : JsMap.t JsSet.t) (line : string) :
  fromTrips tripToRoute m -> fromTrips tripToRoute (stopTimeStep hdr tripToRoute m line).
Proof.
  intros Hm. rewrite stopTimeStep_rowStopRoute.
  destruct (rowStopRoute hdr tripToRoute line) as [[s0 r0]|] eqn:Hrow; [|exact Hm].
  intros s set r Hin Hr. apply JsMapFacts.In_set in Hin.
  destruct Hin as [[-> ->] | Hin]; [|now apply (Hm s set r)].
  unfold addCapped in Hr.
  assert (Hold : In r (setOf s0 m) -> exists t, JsMap.get t tripToRoute = Some r).
  { unfold setOf. destruct (JsMap.get s0 m) as [set0|] eqn:Hget; [|intros []].
    intros Hr0. apply JsMapFacts.get_In in Hget. now apply (Hm s0 set0 r). }
  destruct (JsSet.size (setOf s0 m) <? 12)%nat; [|now apply Hold].
  apply JsSetFacts.In_add in Hr. destruct Hr as [-> | Hr]; [|now apply Hold].
  eapply rowStopRoute_from_trip; eauto.
Qed.

Lemma buildStopToRoutes_fromTrips (tripToRoute : JsMap.t string)
    (stopTimesLines : list string) (m : JsMap.t JsSet.t) :
  buildStopToRoutes tripToRoute stopTimesLines = Ok m -> fromTrips tripToRoute m.
Proof.
  unfold buildStopToRoutes, bind.
  destruct (splitHeader stopTimesLines) as [[hdr rows]|]; [|discriminate].
  simpl. intros [= <-].
  assert (Hgen : forall m0, fromTrips tripToRoute m0 ->
                 fromTrips tripToRoute
                   (fold_left (stopTimeStep hdr tripToRoute) rows m0)).
  { induction rows as [|line rows IH]; intros m0 Hm0; simpl; [exact Hm0 |].
    apply IH. now apply stopTimeStep_fromTrips. }
  apply Hgen. intros s set r [].
Qed.

(** The stops of an answer are stops of the table, within the radius. *)
Lemma findNearby_stop_inv (ar : Arith) (idx : Index) (lat0 lng0 : R)
    (radiusMeters limit : option jsnum) (st : RankedStop) :
  In st (stops (findNearby ar idx lat0 lng0 radiusMeters limit)) ->
  exists stop,
    In stop (JsMap.values (stopById idx)) /\
    gtNum (haversineMiles ar lat0 lng0 (lat stop) (lng stop)) (radiusMi radiusMeters)
      = false /\
    st = rankStop idx stop (haversineMiles ar lat0 lng0 (lat stop) (lng stop)).
Proof.
  unfold findNearby. cbn [stops]. intros Hin.
  apply sliceTo_In, sortBy_In in Hin. unfold withinRadius in Hin.
  apply in_map_iff in Hin. destruct Hin as [stop [<- Hin]].
  apply filter_In in Hin. destruct Hin as [Hin Hwithin].
  exists stop. repeat split; [exact Hin |].
  now destruct (gtNum _ _).
Qed.

Lemma somes_In {A : Type} (x : A) (l : list (option A)) :
  In x (somes l) <-> In (Some x) l.
Proof.
  induction l as [|[a|] l IH]; simpl; [tauto | |].
  - rewrite IH. split; [intros [-> | H]; auto | intros [[= ->] | H]; auto].
  - rewrite IH. split; [auto | intros [H | H]; [discriminate | exact H]].
Qed.

(** A route attached to a stop was looked up in the route table. *)
Lemma resolveRoutes_inv (idx : Index) (id : string) (r : RouteOut) :
  In r (resolveRoutes idx id) ->
  exists rid route,
    In rid (setOf id (stopToRoutes idx)) /\
    JsMap.get rid (routeById idx) = Some route /\
    r = routeOut route.
Proof.
  unfold resolveRoutes. fold (setOf id (stopToRoutes idx)).
  intros Hin. apply in_map_iff in Hin. destruct Hin as [route [<- Hin]].
  apply somes_In, in_map_iff in Hin. destruct Hin as [rid [Hget Hrid]].
  now exists rid, route.
Qed.

(** C4, as the code has it.  A built index stores in a stop's route set
    every route id the trip table gives for a trip of that stop, known to
    [routes.txt] or not; the ids are resolved against the route table when
    [findNearby] attaches routes, and there the unresolved ones are dropped:
    every route of every returned stop is a key of the route table and a
    member of that stop's set. *)
Theorem C4_route_ids_resolved_at_query (Number : string -> jsnum)
    (d : Disk) (s : Snapshot) (idx : Index) :
  indexFromSnapshot Number d s = Ok idx ->
  (exists tripsLines tripToRoute,
      readZipEntryToLines d "trips.txt" = Ok tripsLines /\
      buildTripToRoute tripsLines = Ok tripToRoute /\
      forall stop set r,
        JsMap.get stop (stopToRoutes idx) = Some set -> In r set ->
        exists t, JsMap.get t tripToRoute = Some r) /\
  (forall ar lat0 lng0 radiusMeters limit st r,
      In st (stops (findNearby ar idx lat0 lng0 radiusMeters limit)) ->
      In r (routes st) ->
      JsMap.has (ro_id r) (routeById idx) = true /\
      In (ro_id r) (setOf (rs_id st) (stopToRoutes idx))).
Proof.
  intros Hbuilt.
  destruct (indexFromSnapshot_tables Number d s idx Hbuilt)
    as (rl & tl & sl & stl & t2r & _ & Htl & _ & _ & Hroutes & Ht2r & _ & Hsr & _).
  split.
  - exists tl, t2r. repeat split; try assumption.
    intros stop set r Hget Hr.
    apply JsMapFacts.get_In in Hget.
    exact (buildStopToRoutes_fromTrips t2r stl _ Hsr stop set r Hget Hr).
  - intros ar lat0 lng0 radiusMeters limit st r Hst Hr.
    apply findNearby_stop_inv in Hst. destruct Hst as (stop & _ & _ & ->).
    cbn [routes rs_id rankStop] in *.
    apply firstn_In_inv, resolveRoutes_inv in Hr.
    destruct Hr as (rid & route & Hrid & Hget & ->).
    pose proof (buildRouteById_keyed Number rl _ Hroutes rid route
                  (JsMapFacts.get_In _ _ _ Hget)) as Hkey.
    unfold routeOut. cbn [ro_id]. rewrite Hkey. split; [|exact Hrid].
    eapply JsMapFacts.get_some_has; eauto.
Qed.

(** C4, the claim as worded, fails: the index built from a feed whose trip
    [trip9] runs on a route [R9] without a row in [routes.txt] keeps [R9]
    in the set of stop [S1], and [R9] is no key of the route table. *)
Lemma C4_unresolved_id_is_stored :
  indexFromSnapshot fixtureNumber (diskWith danglingZip T0) fixtureSnapshot
    = Ok danglingIndex /\
  JsMap.get "S1" (stopToRoutes danglingIndex) = Some ["R1"; "R9"] /\
  JsMap.has "R9" (routeById danglingIndex) = false.
Proof. repeat split; reflexivity. Qed.

(** The theorem at the index built from the feed with the dangling route. *)
Lemma C4_route_ids_resolved_witness :
  (exists tripsLines tripToRoute,
      readZipEntryToLines (diskWith danglingZip T0) "trips.txt"
        = Ok tripsLines /\
      buildTripToRoute tripsLines = Ok tripToRoute /\
      forall stop set r,
        JsMap.get stop (stopToRoutes danglingIndex) = Some set -> In r set ->
        exists t, JsMap.get t tripToRoute = Some r) /\
  (forall ar lat0 lng0 radiusMeters limit st r,
      In st (stops (findNearby ar danglingIndex lat0 lng0 radiusMeters limit)) ->
      In r (routes st) ->
      JsMap.has (ro_id r) (routeById danglingIndex) = true /\
      In (ro_id r) (setOf (rs_id st) (stopToRoutes danglingIndex))).
Proof.
  apply (C4_route_ids_resolved_at_query fixtureNumber
           (diskWith danglingZip T0) fixtureSnapshot danglingIndex).
  reflexivity.
Defined.

(* ================================================================= *)
(** ** Snapshot cache *)

Lemma orNull_id (c : option string) : c <> Some "" -> orNull c = c.
Proof.
  unfold orNull, truthy. destruct c as [[|ch s]|]; try reflexivity. congruence.
Qed.

Lemma downloadStart_fresh (now t : Z) (d : Disk) (m : Meta) (z : Zip) :
  metaFile d = Some m -> downloadedAt m = Some t -> t <> 0%Z ->
  zipFile d = Some z -> (now - t < ZIP_TTL_MS)%Z ->
  downloadStart now d =
    UseCached {| zipPath := ZIP_PATH; updatedAt := orNull (meta_updatedAt m) |}.
Proof.
  intros Hm Ht Hnz Hz Hfresh.
  unfold downloadStart, readMeta, metaFresh, existsZip. rewrite Hm, Ht, Hz.
  destruct (Z.eqb_spec t 0); [contradiction |].
  destruct (Z.ltb_spec (now - t) ZIP_TTL_MS); [reflexivity | lia].
Qed.

Lemma downloadStart_expired (now t : Z) (d : Disk) (m : Meta) :
  metaFile d = Some m -> downloadedAt m = Some t -> (ZIP_TTL_MS <= now - t)%Z ->
  downloadStart now d = AwaitFetch GTFS_URL.
Proof.
  intros Hm Ht Hold.
  unfold downloadStart, readMeta, metaFresh. rewrite Hm, Ht.
  destruct (Z.ltb_spec (now - t) ZIP_TTL_MS); [lia |].
  now rewrite andb_false_r.
Qed.

(** Without a usable snapshot the download fetches once, whatever comes
    back. *)
Lemma downloadZipIfNeeded_fetches_once (now : Z) (a : Arrival) (d : Disk) :
  downloadStart now d = AwaitFetch GTFS_URL ->
  exists d' r, downloadZipIfNeeded now a d = (d', [GTFS_URL], r).
Proof.
  intros Hstart. unfold downloadZipIfNeeded. rewrite Hstart.
  destruct (downloadResume a d) as [d' r]. now exists d', r.
Qed.

(** A download that succeeded at time [nowMs a] leaves a snapshot that the
    next call reuses until 24 hours later. *)
Lemma downloaded_snapshot_is_reused (a a' : Arrival) (d d' : Disk) (s : Snapshot)
    (now : Z) :
  downloadResume a d = (d', Ok s) -> metaWritable a = true -> nowMs a <> 0%Z ->
  (now - nowMs a < ZIP_TTL_MS)%Z ->
  downloadZipIfNeeded now a' d' =
    (d', [], Ok {| zipPath := ZIP_PATH; updatedAt := orNull (updatedAt s) |}).
Proof.
  unfold downloadResume. intros Hres Hw Hnz Hfresh.
  destruct (outcome a) as [|ok status [buf|]]; try discriminate;
    destruct (negb ok); try discriminate.
  unfold writeMeta in Hres. rewrite Hw in Hres. injection Hres as <- <-.
  unfold downloadZipIfNeeded.
  set (m := {| downloadedAt := Some (nowMs a); meta_updatedAt := Some (isoNow a);
               url := GTFS_URL; bytes := zip_length buf |}).
  rewrite (downloadStart_fresh now (nowMs a)
             {| zipFile := Some buf; metaFile := Some m |} m buf
             eq_refl eq_refl Hnz eq_refl Hfresh).
  reflexivity.
Qed.

(** C7.  With a sidecar whose [downloadedAt] is a time [t], and the archive
    on disk: while [now - t] is below the 24 hours, [downloadZipIfNeeded]
    calls [fetchFn] not at all, leaves the disk alone and returns the cached
    archive with the sidecar's [updatedAt]; from 24 hours on it calls
    [fetchFn] exactly once, on the feed's URL. *)
Theorem C7_snapshot_reused_within_ttl (now t : Z) (a : Arrival) (d : Disk)
    (m : Meta) (z : Zip) :
  metaFile d = Some m -> downloadedAt m = Some t -> t <> 0%Z ->
  zipFile d = Some z ->
  ((now - t < ZIP_TTL_MS)%Z ->
     downloadZipIfNeeded now a d =
       (d, [], Ok {| zipPath := ZIP_PATH; updatedAt := orNull (meta_updatedAt m) |})
     /\ (meta_updatedAt m <> Some "" -> orNull (meta_updatedAt m) = meta_updatedAt m))
  /\ ((ZIP_TTL_MS <= now - t)%Z ->
        exists d' r, downloadZipIfNeeded now a d = (d', [GTFS_URL], r))
  /\ ZIP_TTL_MS = 86400000%Z.
Proof.
  intros Hm Ht Hnz Hz. split; [|split; [|reflexivity]].
  - intros Hfresh. split; [|apply orNull_id].
    unfold downloadZipIfNeeded.
    now rewrite (downloadStart_fresh now t d m z Hm Ht Hnz Hz Hfresh).
  - intros Hold. apply downloadZipIfNeeded_fetches_once.
    now apply (downloadStart_expired now t d m).
Qed.

(** The theorem on a snapshot downloaded at [T0]: one millisecond before the
    24 hours are over it is reused, one millisecond after it is fetched. *)
Lemma C7_snapshot_reused_witness :
  downloadZipIfNeeded (T0 + ZIP_TTL_MS - 1) (arrival FetchThrows (T0 + ZIP_TTL_MS))
      (diskWith minimalZip T0)
    = (diskWith minimalZip T0, [], Ok fixtureSnapshot)
  /\ exists d' r,
       downloadZipIfNeeded (T0 + ZIP_TTL_MS + 1)
           (arrival (FetchResponse true 200 (Some danglingZip)) (T0 + ZIP_TTL_MS + 2))
           (diskWith minimalZip T0)
         = (d', [GTFS_URL], r).
Proof.
  split.
  - apply (C7_snapshot_reused_within_ttl (T0 + ZIP_TTL_MS - 1) T0
             (arrival FetchThrows (T0 + ZIP_TTL_MS)) (diskWith minimalZip T0)
             {| downloadedAt := Some T0;
                meta_updatedAt := Some T0_iso;
                url := GTFS_URL; bytes := zip_length minimalZip |}
             minimalZip eq_refl eq_refl); [discriminate | reflexivity | reflexivity].
  - apply (C7_snapshot_reused_within_ttl (T0 + ZIP_TTL_MS + 1) T0
             (arrival (FetchResponse true 200 (Some danglingZip)) (T0 + ZIP_TTL_MS + 2))
             (diskWith minimalZip T0)
             {| downloadedAt := Some T0;
                meta_updatedAt := Some T0_iso;
                url := GTFS_URL; bytes := zip_length minimalZip |}
             minimalZip eq_refl eq_refl); [discriminate | reflexivity | discriminate].
Defined.

(* ================================================================= *)
(** ** Build coordinator *)

(** A call that finds a build in flight changes nothing. *)
Lemma getIndex_in_flight (now nowDl : Z) (w : World) (p : nat) :
  inFlight w = Some p ->
  fst (getIndex now nowDl w) = w /\
  (snd (getIndex now nowDl w) = Awaits p \/
   exists idx, cache w = Some idx /\ cacheFresh now w = true /\
               snd (getIndex now nowDl w) = Cached idx).
Proof.
  intros Hp. unfold getIndex. rewrite Hp.
  destruct (cacheFresh now w) eqn:Hfresh.
  - destruct (cache w) as [idx|] eqn:Hc.
    + split; [reflexivity | right; now exists idx].
    + split; [reflexivity | now left].
  - split; [reflexivity | now left].
Qed.

(** A call that finds the cache stale and no build in flight starts one. *)
Lemma getIndex_starts (now nowDl : Z) (w : World) :
  inFlight w = None -> cacheFresh now w = false ->
  getIndex now nowDl w = (startBuild nowDl w, Awaits (nextPromise w)).
Proof. intros Hnone Hstale. unfold getIndex. now rewrite Hstale, Hnone. Qed.

Lemma getIndex_stale_in_flight (now nowDl : Z) (w : World) (p : nat) :
  inFlight w = Some p -> cacheFresh now w = false ->
  getIndex now nowDl w = (w, Awaits p).
Proof. intros Hp Hstale. unfold getIndex. now rewrite Hstale, Hp. Qed.

Lemma startBuild_facts (nowDl : Z) (w : World) :
  let w' := startBuild nowDl w in
  inFlight w' = Some (nextPromise w) /\
  nextPromise w' = S (nextPromise w) /\
  fetchLog w' = fetchLog w ++ fetchesOfStart nowDl (disk w) /\
  cache w' = cache w /\ cacheLoadedAt w' = cacheLoadedAt w /\
  disk w' = disk w /\ settledPromises w' = settledPromises w.
Proof.
  unfold startBuild, fetchesOfStart.
  destruct (downloadStart nowDl (disk w)); simpl; rewrite ?app_nil_r; tauto.
Qed.

Lemma fetchesOfStart_length (nowDl : Z) (d : Disk) :
  (List.length (fetchesOfStart nowDl d) <= 1)%nat.
Proof. unfold fetchesOfStart. destruct (downloadStart nowDl d); simpl; lia. Qed.

Lemma cacheFresh_ext (now : Z) (w w' : World) :
  cache w' = cache w -> cacheLoadedAt w' = cacheLoadedAt w ->
  cacheFresh now w' = cacheFresh now w.
Proof. unfold cacheFresh. now intros -> ->. Qed.

(** Callers that all find the cache stale while a build is in flight are
    all handed its promise. *)
Lemma getIndexAll_in_flight (calls : list (Z * Z)) (w : World) (p : nat) :
  inFlight w = Some p ->
  Forall (fun c => cacheFresh (fst c) w = false) calls ->
  getIndexAll calls w = (w, repeat (Awaits p) (List.length calls)).
Proof.
  intros Hp. induction 1 as [|[now nowDl] calls Hstale _ IH]; [reflexivity |].
  cbn [getIndexAll]. simpl in Hstale.
  rewrite (getIndex_stale_in_flight now nowDl w p Hp Hstale).
  now rewrite IH.
Qed.

Section CoordinatorFacts.

Variable Number : string -> jsnum.

(** The events of a running build touch neither [inFlight] nor the
    promise counter nor the fetch log. *)
Lemma build_events_quiet (e : Event) (w : World) :
  (forall now nowDl, e <> Call now nowDl) -> e <> RunFinally ->
  inFlight (fst (step Number e w)) = inFlight w /\
  nextPromise (fst (step Number e w)) = nextPromise w /\
  fetchLog (fst (step Number e w)) = fetchLog w /\
  snd (step Number e w) = None.
Proof.
  intros Hcall Hfin. destruct e as [now nowDl|a| |now|]; simpl.
  - now destruct (Hcall now nowDl).
  - unfold fetchReturns. destruct (phase w); try tauto.
    destruct (downloadResume a (disk w)); simpl; tauto.
  - unfold archiveRead. destruct (phase w); simpl; tauto.
  - unfold runThen. destruct (phase w) as [| | |[idx|err]|]; simpl; tauto.
  - congruence.
Qed.

Lemma step_single_flight (e : Event) (w : World) :
  e <> RunFinally ->
  atMostOneBuild w (fst (step Number e w)) /\
  sharedPromise (fst (step Number e w)) = sharedPromise w /\
  (forall r, snd (step Number e w) = Some r -> sharedReply (sharedPromise w) r).
Proof.
  intros Hfin.
  assert (Hquiet : (forall now nowDl, e <> Call now nowDl) ->
                   atMostOneBuild w (fst (step Number e w)) /\
                   sharedPromise (fst (step Number e w)) = sharedPromise w /\
                   (forall r, snd (step Number e w) = Some r ->
                              sharedReply (sharedPromise w) r)).
  { intros Hcall.
    destruct (build_events_quiet e w Hcall Hfin) as (Hi & Hn & Hf & Hr).
    unfold atMostOneBuild, sharedPromise. rewrite Hi, Hn, Hf, Hr.
    split; [destruct (inFlight w); tauto | split; [reflexivity | discriminate]]. }
  destruct e as [now nowDl|a| |now|]; try (apply Hquiet; discriminate).
  cbn [step]. destruct (getIndex now nowDl w) as [w' r] eqn:Hget. cbn [fst snd].
  unfold atMostOneBuild, sharedPromise, sharedReply.
  destruct (inFlight w) as [p|] eqn:Hp.
  - destruct (getIndex_in_flight now nowDl w p Hp) as [Hw Hr].
    rewrite Hget in Hw, Hr. cbn [fst snd] in Hw, Hr. subst w'. rewrite Hp.
    repeat split; try reflexivity.
    intros r0 [= <-]. destruct Hr as [-> | (idx & _ & _ & ->)]; eauto.
  - unfold getIndex in Hget. rewrite Hp in Hget.
    destruct (if cacheFresh now w then cache w else None) as [idx|].
    + injection Hget as <- <-. rewrite Hp.
      split; [left; tauto | split; [reflexivity |]].
      intros r0 [= <-]. eauto.
    + injection Hget as <- <-.
      destruct (startBuild_facts nowDl w) as (Hi & Hn & Hf & _).
      rewrite Hi. split; [|split; [reflexivity | intros r0 [= <-]; now left]].
      right. repeat split; try assumption.
      exists (fetchesOfStart nowDl (disk w)).
      split; [exact Hf | apply fetchesOfStart_length].
Qed.

Lemma atMostOneBuild_trans (w w1 w2 : World) :
  sharedPromise w1 = sharedPromise w ->
  atMostOneBuild w w1 -> atMostOneBuild w1 w2 -> atMostOneBuild w w2.
Proof.
  unfold atMostOneBuild, sharedPromise. intros Hshared H1 H2.
  destruct (inFlight w) as [p|] eqn:Hp.
  - destruct H1 as (Hi & Hn & Hf). rewrite Hi in H2, Hshared.
    destruct H2 as (Hi2 & Hn2 & Hf2). repeat split; congruence.
  - destruct H1 as [(Hi & Hn & Hf) | (Hi & Hn & f & Hf & Hlen)].
    + rewrite Hi in H2. rewrite Hn, Hf in H2. exact H2.
    + rewrite Hi in H2. destruct H2 as (Hi2 & Hn2 & Hf2).
      right. repeat split; try congruence.
      exists f. split; [congruence | exact Hlen].
Qed.

(** Until the [finally] reaction runs, however calls and the events of the
    build interleave, at most one build is started and at most one fetch
    made, and every caller gets the cache or the one shared promise. *)
Lemma run_single_flight (es : list Event) :
  forall w,
    Forall (fun e => e <> RunFinally) es ->
    atMostOneBuild w (fst (run Number es w)) /\
    sharedPromise (fst (run Number es w)) = sharedPromise w /\
    Forall (sharedReply (sharedPromise w)) (snd (run Number es w)).
Proof.
  induction es as [|e es IH]; intros w Hes.
  - cbn [run fst snd]. split; [|split; [reflexivity | constructor]].
    unfold atMostOneBuild. destruct (inFlight w); tauto.
  - inversion Hes as [|e' es' He Hrest]; subst.
    destruct (step_single_flight e w He) as (H1 & Hs1 & Hr1).
    cbn [run]. destruct (step Number e w) as [w1 r] eqn:Hstep.
    cbn [fst snd] in H1, Hs1, Hr1.
    destruct (IH w1 Hrest) as (H2 & Hs2 & Hr2).
    destruct (run Number es w1) as [w2 rs] eqn:Hrun. cbn [fst snd] in *.
    split; [eapply atMostOneBuild_trans; eauto |].
    split; [congruence |].
    rewrite Hs1 in Hr2. destruct r as [r|]; [constructor; auto | exact Hr2].
Qed.

End CoordinatorFacts.

(** C1, as the code has it.  From any state, as long as the [finally]
    reaction of a build has not run, calls of [getIndex] interleaved in any
    way with the events of the build start at most one build and make at
    most one fetch (none when a build was already in flight), and every
    caller is handed the cached index or the one shared promise.  Two calls
    that find the cache stale and nothing in flight start exactly one build
    and share its promise; that build fetches once when the snapshot on disk
    is missing or older than 24 hours, and not at all when it is fresh. *)
Theorem C1_single_flight (Number : string -> jsnum) (es : list Event)
    (w : World) (now1 nowDl1 now2 nowDl2 : Z) :
  Forall (fun e => e <> RunFinally) es ->
  ((nextPromise (fst (run Number es w)) <= S (nextPromise w))%nat /\
   (exists f, fetchLog (fst (run Number es w)) = fetchLog w ++ f /\
              (List.length f <= 1)%nat) /\
   Forall (fun r => r = Awaits (sharedPromise w) \/ exists idx, r = Cached idx)
     (snd (run Number es w)) /\
   (inFlight w <> None ->
    nextPromise (fst (run Number es w)) = nextPromise w /\
    fetchLog (fst (run Number es w)) = fetchLog w)) /\
  (inFlight w = None -> cacheFresh now1 w = false -> cacheFresh now2 w = false ->
   getIndexAll [(now1, nowDl1); (now2, nowDl2)] w =
     (startBuild nowDl1 w, [Awaits (nextPromise w); Awaits (nextPromise w)]) /\
   nextPromise (startBuild nowDl1 w) = S (nextPromise w) /\
   fetchLog (startBuild nowDl1 w) =
     fetchLog w ++
     (if metaFresh nowDl1 (readMeta (disk w)) && existsZip (disk w)
      then [] else [GTFS_URL])).
Proof.
  intros Hes. split.
  - destruct (run_single_flight Number es w Hes) as (Hone & _ & Hreplies).
    unfold atMostOneBuild in Hone.
    destruct (inFlight w) as [p|] eqn:Hp.
    + destruct Hone as (_ & Hn & Hf). rewrite Hn, Hf.
      repeat split; try exact Hreplies; try lia.
      exists []. rewrite app_nil_r. split; [reflexivity | simpl; lia].
    + repeat split; try exact Hreplies; try congruence.
      * destruct Hone as [(_ & Hn & _) | (_ & Hn & _)]; lia.
      * destruct Hone as [(_ & _ & Hf) | (_ & _ & Hf)]; [|exact Hf].
        exists []. rewrite app_nil_r. split; [exact Hf | simpl; lia].
  - intros Hnone Hstale1 Hstale2.
    destruct (startBuild_facts nowDl1 w) as (Hi & Hn & Hf & Hc & Hl & _).
    split; [|split; [exact Hn |]].
    + cbn [getIndexAll]. rewrite (getIndex_starts now1 nowDl1 w Hnone Hstale1).
      rewrite (getIndex_stale_in_flight now2 nowDl2 _ _ Hi); [reflexivity |].
      now rewrite (cacheFresh_ext now2 w _ Hc Hl).
    + rewrite Hf. unfold fetchesOfStart, downloadStart.
      now destruct (metaFresh nowDl1 (readMeta (disk w)) && existsZip (disk w)).
Qed.

(** C1, the claim as worded, fails on "exactly one fetch": a freshly loaded
    module over a cache directory whose snapshot was downloaded an hour ago
    has no cached index, two calls in a row both find it stale and share the
    promise of one build, and that build reads the archive from disk: the
    fetch capability is never called, and the build succeeds. *)
Lemma C1_fresh_snapshot_is_not_fetched :
  cacheFresh (fst firstCall) (initialWorld (diskWith minimalZip T0)) = false /\
  cacheFresh (fst secondCall) (initialWorld (diskWith minimalZip T0)) = false /\
  snd (getIndexAll [firstCall; secondCall] (initialWorld (diskWith minimalZip T0)))
    = [Awaits 0; Awaits 0] /\
  fetchLog (fst (getIndexAll [firstCall; secondCall]
                   (initialWorld (diskWith minimalZip T0)))) = [] /\
  run fixtureNumber
      [Call (fst firstCall) (snd firstCall); Call (fst secondCall) (snd secondCall);
       ArchiveRead; RunThen (T0 + 3600050)%Z; RunFinally]
      (initialWorld (diskWith minimalZip T0))
    = ({| cache := Some minimalIndex; cacheLoadedAt := (T0 + 3600050)%Z;
          inFlight := None; phase := Idle; disk := diskWith minimalZip T0;
          fetchLog := []; nextPromise := 1;
          settledPromises := [(0%nat, Ok minimalIndex)] |},
       [Awaits 0; Awaits 0]).
Proof. repeat split; reflexivity. Qed.

(** The theorem on a freshly loaded module over an empty cache directory:
    two calls, one build, one fetch. *)
Lemma C1_single_flight_witness :
  getIndexAll [firstCall; secondCall] (initialWorld emptyDisk) =
    (startBuild (snd firstCall) (initialWorld emptyDisk), [Awaits 0; Awaits 0]) /\
  nextPromise (startBuild (snd firstCall) (initialWorld emptyDisk)) = 1%nat /\
  fetchLog (startBuild (snd firstCall) (initialWorld emptyDisk)) = [GTFS_URL].
Proof.
  apply (C1_single_flight fixtureNumber
           [Call (fst firstCall) (snd firstCall);
            FetchReturns (arrival (FetchResponse true 200 (Some minimalZip))
                            (T0 + 3600900)%Z);
            Call (fst secondCall) (snd secondCall);
            ArchiveRead; RunThen (T0 + 3602000)%Z;
            Call (T0 + 3602001)%Z (T0 + 3602001)%Z]
           (initialWorld emptyDisk)
           (fst firstCall) (snd firstCall) (fst secondCall) (snd secondCall)).
  - repeat constructor; discriminate.
  - reflexivity.
  - reflexivity.
  - reflexivity.
Defined.

Lemma getIndexAll_keeps_world (calls : list (Z * Z)) (w : World) (p : nat) :
  inFlight w = Some p -> fst (getIndexAll calls w) = w.
Proof.
  intros Hp. induction calls as [|[now nowDl] calls IH]; [reflexivity |].
  cbn [getIndexAll].
  destruct (getIndex_in_flight now nowDl w p Hp) as [Hw _].
  destruct (getIndex now nowDl w) as [w1 r]. cbn [fst] in Hw. subst w1.
  destruct (getIndexAll calls w) as [w2 rs]. exact IH.
Qed.

(** Every started build settles: the fetch answers one way or another, and
    reading the archive ends in an index or an error. *)
Lemma build_settles (Number : string -> jsnum) (a : Arrival) (w : World) :
  phase w = AwaitingFetch \/ (exists s, phase w = ReadingArchive s) ->
  exists r, phase (archiveRead Number (fetchReturns a w)) = Settled r.
Proof.
  intros [Hph | [s Hph]].
  - unfold fetchReturns. rewrite Hph.
    destruct (downloadResume a (disk w)) as [d' [s|e]];
      unfold archiveRead; simpl; eauto.
  - unfold fetchReturns. rewrite Hph. unfold archiveRead. rewrite Hph.
    simpl. eauto.
Qed.

(** The two reactions on a settled build. *)
Lemma reactions_clear_in_flight (w : World) (p : nat) (r : result Index) (now : Z) :
  inFlight w = Some p -> phase w = Settled r ->
  let w' := runFinally (runThen now w) in
  inFlight w' = None /\
  phase w' = Idle /\
  settledPromises w' = (p, r) :: settledPromises w /\
  match r with
  | Ok idx => cache w' = Some idx /\ cacheLoadedAt w' = now
  | Err _ => cache w' = cache w /\ cacheLoadedAt w' = cacheLoadedAt w
  end.
Proof.
  intros Hp Hph. unfold runFinally, runThen. rewrite Hph.
  destruct r; cbn; rewrite Hp; tauto.
Qed.

(** C6.  Once the build in flight has settled with [r], and whatever calls
    arrive before and after the [then] reaction: after the [finally]
    reaction [inFlight] is empty and the promise stands settled with [r];
    an index replaces the cache and stamps it with the clock of the [then]
    reaction, a failure leaves cache and stamp as they were; and the next
    call that finds the cache stale starts a build of its own. *)
Theorem C6_in_flight_cleared (w : World) (p : nat) (r : result Index)
    (now : Z) (before between : list (Z * Z)) :
  inFlight w = Some p -> phase w = Settled r ->
  let w' := runFinally
              (fst (getIndexAll between
                      (runThen now (fst (getIndexAll before w))))) in
  inFlight w' = None /\
  phase w' = Idle /\
  settledPromises w' = (p, r) :: settledPromises w /\
  match r with
  | Ok idx => cache w' = Some idx /\ cacheLoadedAt w' = now
  | Err _ => cache w' = cache w /\ cacheLoadedAt w' = cacheLoadedAt w
  end /\
  (forall t tDl,
      cacheFresh t w' = false ->
      getIndex t tDl w' = (startBuild tDl w', Awaits (nextPromise w')) /\
      inFlight (startBuild tDl w') = Some (nextPromise w')).
Proof.
  intros Hp Hph w'. subst w'.
  rewrite (getIndexAll_keeps_world before w p Hp).
  assert (Hthen : inFlight (runThen now w) = Some p /\
                  phase (runThen now w) = ThenDone r /\
                  settledPromises (runThen now w) = settledPromises w /\
                  match r with
                  | Ok idx => cache (runThen now w) = Some idx /\
                              cacheLoadedAt (runThen now w) = now
                  | Err _ => cache (runThen now w) = cache w /\
                             cacheLoadedAt (runThen now w) = cacheLoadedAt w
                  end).
  { unfold runThen. rewrite Hph. destruct r; simpl; tauto. }
  destruct Hthen as (Hp1 & Hph1 & Hs1 & Hc1).
  rewrite (getIndexAll_keeps_world between _ p Hp1).
  set (w1 := runThen now w) in *.
  assert (Hfin : inFlight (runFinally w1) = None /\
                 phase (runFinally w1) = Idle /\
                 settledPromises (runFinally w1) = (p, r) :: settledPromises w1 /\
                 cache (runFinally w1) = cache w1 /\
                 cacheLoadedAt (runFinally w1) = cacheLoadedAt w1).
  { unfold runFinally. rewrite Hph1, Hp1. simpl. tauto. }
  destruct Hfin as (Hi & Hphase & Hs & Hc & Hl).
  repeat split; try assumption; try congruence.
  - destruct r; rewrite Hc, Hl; exact Hc1.
  - now apply getIndex_starts.
  - apply startBuild_facts.
Qed.

(** The events of the build leave the cache, the marker and the promises
    alone. *)
Lemma build_events_keep (Number : string -> jsnum) (a : Arrival) (w : World) :
  let w' := archiveRead Number (fetchReturns a w) in
  cache w' = cache w /\ cacheLoadedAt w' = cacheLoadedAt w /\
  inFlight w' = inFlight w /\ nextPromise w' = nextPromise w /\
  settledPromises w' = settledPromises w.
Proof.
  unfold archiveRead, fetchReturns.
  destruct (phase w) as [| |s|r|r] eqn:Hph; cbn; rewrite ?Hph; cbn; try tauto.
  destruct (downloadResume a (disk w)) as [d' [s|e]]; cbn; tauto.
Qed.

(** A whole build, from the call that starts it to its [finally] reaction:
    whatever the network and the archive give, the marker ends up cleared,
    the promise settled, and the cache replaced exactly when the build
    succeeded. *)
Lemma whole_build_clears_in_flight (Number : string -> jsnum) (w : World)
    (now nowDl t : Z) (a : Arrival) :
  inFlight w = None -> cacheFresh now w = false ->
  let w' := fst (run Number
                   [Call now nowDl; FetchReturns a; ArchiveRead; RunThen t;
                    RunFinally] w) in
  inFlight w' = None /\ phase w' = Idle /\
  exists r,
    settledPromises w' = (nextPromise w, r) :: settledPromises w /\
    match r with
    | Ok idx => cache w' = Some idx /\ cacheLoadedAt w' = t
    | Err _ => cache w' = cache w /\ cacheLoadedAt w' = cacheLoadedAt w
    end.
Proof.
  intros Hnone Hstale. cbn [run step]. rewrite (getIndex_starts _ _ _ Hnone Hstale).
  cbn [fst snd].
  destruct (startBuild_facts nowDl w) as (Hi & _ & _ & Hc & Hl & _ & Hs).
  set (w0 := startBuild nowDl w) in *.
  assert (Hph : phase w0 = AwaitingFetch \/ exists s, phase w0 = ReadingArchive s).
  { unfold w0, startBuild. destruct (downloadStart nowDl (disk w)); cbn; eauto. }
  destruct (build_settles Number a w0 Hph) as [r Hr].
  destruct (build_events_keep Number a w0) as (Hc1 & Hl1 & Hi1 & _ & Hs1).
  set (w1 := archiveRead Number (fetchReturns a w0)) in *.
  rewrite Hi in Hi1.
  pose proof (reactions_clear_in_flight w1 (nextPromise w) r t Hi1 Hr)
    as (Hfin & Hidle & Hset & Hcache).
  split; [exact Hfin |]. split; [exact Hidle |].
  exists r. split; [congruence |].
  destruct r; destruct Hcache; split; congruence.
Qed.

Example failedWorld_reached :
  fst (run fixtureNumber
         [Call (fst firstCall) (snd firstCall);
          FetchReturns (arrival (FetchResponse false 503 None) (T0 + 3600900)%Z)]
         (initialWorld emptyDisk))
  = failedWorld.
Proof. reflexivity. Qed.

(** The theorem on the build that failed with status 503: nothing is
    cached, and the next call starts promise 1. *)
Lemma C6_in_flight_cleared_witness :
  inFlight (runFinally (runThen (T0 + 3600901)%Z failedWorld)) = None /\
  cache (runFinally (runThen (T0 + 3600901)%Z failedWorld)) = None /\
  settledPromises (runFinally (runThen (T0 + 3600901)%Z failedWorld))
    = [(0%nat, Err (DownloadFailed 503))] /\
  getIndex (fst secondCall) (snd secondCall)
      (runFinally (runThen (T0 + 3600901)%Z failedWorld))
    = (startBuild (snd secondCall) (runFinally (runThen (T0 + 3600901)%Z failedWorld)),
       Awaits 1).
Proof.
  destruct (C6_in_flight_cleared failedWorld 0 (Err (DownloadFailed 503))
              (T0 + 3600901)%Z [] [] eq_refl eq_refl)
    as (Hi & _ & Hs & [Hc _] & Hnext).
  split; [exact Hi | split; [exact Hc | split; [exact Hs |]]].
  exact (proj1 (Hnext (fst secondCall) (snd secondCall) eq_refl)).
Defined.

(* ================================================================= *)
(** ** Distance utility *)

Section DistanceFacts.

Local Open Scope R_scope.

(** Machin's formula with arcs 1/3 and 1/7, three and four terms. *)
Lemma PI_bounds : 3.1415 < PI < 3.1421.
Proof.
  pose proof (PI_2_3_7_ineq 1) as [Hlo Hhi].
  unfold sum_f_R0, tg_alt, PI_2_3_7_tg, Ratan_seq in Hlo, Hhi.
  simpl in Hlo, Hhi.
  split; lra.
Qed.

Lemma radians_0 : radians 0 = 0.
Proof. unfold radians. lra. Qed.

Lemma radians_minus (x y : R) : radians (x - y) = radians x - radians y.
Proof. unfold radians. lra. Qed.

(** The haversine term is a mean of a squared sine and a squared cosine,
    weighted by the squared sine of the half difference in longitude. *)
Lemma greatCircleA_mix (lat1 lon1 lat2 lon2 : R) :
  let s := sin (radians (lon2 - lon1) / 2) ^ 2 in
  let u := sin ((radians lat2 - radians lat1) / 2) ^ 2 in
  let v := cos ((radians lat1 + radians lat2) / 2) ^ 2 in
  greatCircleA lat1 lon1 lat2 lon2 = (1 - s) * u + s * v.
Proof.
  intros s u v. unfold greatCircleA. cbv zeta. rewrite (radians_minus lat2 lat1).
  fold s. fold u.
  set (A := (radians lat1 + radians lat2) / 2).
  set (B := (radians lat2 - radians lat1) / 2).
  replace (radians lat1) with (A - B) by (unfold A, B; lra).
  replace (radians lat2) with (A + B) by (unfold A, B; lra).
  rewrite cos_minus, cos_plus.
  pose proof (sin2_cos2 A) as HA. pose proof (sin2_cos2 B) as HB.
  unfold Rsqr in HA, HB. unfold u, v. fold A. fold B.
  replace (A + B - (A - B)) with (2 * B) by lra.
  replace ((A - B + (A + B)) / 2) with A by lra.
  replace (2 * B / 2) with B by lra.
  replace (cos A ^ 2) with (1 - sin A * sin A) by lra.
  assert (E : (cos A * cos B + sin A * sin B) * (cos A * cos B - sin A * sin B)
              = 1 - sin A * sin A - sin B ^ 2).
  { replace ((cos A * cos B + sin A * sin B) * (cos A * cos B - sin A * sin B))
      with ((cos A * cos A) * (cos B * cos B) - (sin A * sin A) * (sin B * sin B))
      by ring.
    replace (cos A * cos A) with (1 - sin A * sin A) by lra.
    replace (cos B * cos B) with (1 - sin B * sin B) by lra. ring. }
  rewrite E. ring.
Qed.

Lemma greatCircleA_same_lng (lat1 lat2 lng0 : R) :
  greatCircleA lat1 lng0 lat2 lng0 = sin (radians (lat2 - lat1) / 2) ^ 2.
Proof.
  unfold greatCircleA. cbv zeta.
  replace (lng0 - lng0) with 0 by lra. rewrite radians_0.
  replace (0 / 2) with 0 by lra. rewrite sin_0. lra.
Qed.

(** So both square roots of [greatCircleMiles] are roots of numbers from 0
    to 1, for all coordinates. *)
Lemma greatCircleA_range (lat1 lon1 lat2 lon2 : R) :
  0 <= greatCircleA lat1 lon1 lat2 lon2 <= 1.
Proof.
  rewrite greatCircleA_mix. cbv zeta.
  set (s := sin (radians (lon2 - lon1) / 2)).
  set (x := sin ((radians lat2 - radians lat1) / 2)).
  set (y := cos ((radians lat1 + radians lat2) / 2)).
  assert (Hs : 0 <= s ^ 2 <= 1).
  { pose proof (SIN_bound (radians (lon2 - lon1) / 2)) as H. fold s in H. nra. }
  assert (Hx : 0 <= x ^ 2 <= 1).
  { pose proof (SIN_bound ((radians lat2 - radians lat1) / 2)) as H. fold x in H. nra. }
  assert (Hy : 0 <= y ^ 2 <= 1).
  { pose proof (COS_bound ((radians lat1 + radians lat2) / 2)) as H. fold y in H. nra. }
  nra.
Qed.

Lemma atan2_sin_cos (t : R) :
  0 <= t < PI / 2 -> atan2 (sin t) (cos t) = t.
Proof.
  intros [H0 H1]. unfold atan2.
  assert (Hcos : 0 < cos t) by (apply cos_gt_0; lra).
  destruct (Rlt_dec 0 (cos t)); [|contradiction].
  change (sin t / cos t) with (tan t). apply atan_tan. lra.
Qed.

(** Along a meridian the distance is the arc: radius times the difference
    in latitude. *)
Lemma greatCircleMiles_meridian (lat1 lat2 lng0 : R) :
  0 <= lat2 - lat1 < 180 ->
  greatCircleMiles lat1 lng0 lat2 lng0 = EARTH_RADIUS_MI * radians (lat2 - lat1).
Proof.
  intros Hd. unfold greatCircleMiles. cbv zeta. rewrite greatCircleA_same_lng.
  set (t := radians (lat2 - lat1) / 2).
  assert (Ht : 0 <= t < PI / 2).
  { unfold t, radians. pose proof PI_RGT_0. split.
    - apply Rmult_le_pos; [|lra]. apply Rmult_le_pos; [|lra].
      apply Rmult_le_pos; lra.
    - assert ((lat2 - lat1) * PI < 180 * PI) by (apply Rmult_lt_compat_r; lra).
      lra. }
  assert (Hsin : 0 <= sin t) by (apply sin_ge_0; pose proof PI_RGT_0; lra).
  assert (Hcos : 0 < cos t) by (apply cos_gt_0; lra).
  replace (sin t ^ 2) with (Rsqr (sin t)) by (unfold Rsqr; lra).
  rewrite sqrt_Rsqr by exact Hsin.
  replace (1 - Rsqr (sin t)) with (Rsqr (cos t)) by (pose proof (sin2_cos2 t); lra).
  rewrite sqrt_Rsqr by lra.
  rewrite atan2_sin_cos by exact Ht. unfold t. lra.
Qed.

(** A point is at distance 0 from itself. *)
Lemma greatCircleMiles_same (lat0 lng0 : R) : greatCircleMiles lat0 lng0 lat0 lng0 = 0.
Proof.
  rewrite greatCircleMiles_meridian by lra.
  replace (lat0 - lat0) with 0 by lra. rewrite radians_0. lra.
Qed.

(** [atan2] of two square roots lies between 0 and a quarter turn. *)
Lemma atan2_roots (y x : R) : 0 <= y -> 0 <= x -> 0 <= atan2 y x <= PI / 2.
Proof.
  intros Hy Hx. unfold atan2. pose proof PI_RGT_0.
  destruct (Rlt_dec 0 x).
  - split; [|left; apply atan_bound].
    rewrite <- atan_0. destruct (Req_dec y 0) as [-> | Hne].
    + unfold Rdiv. rewrite Rmult_0_l. lra.
    + left. apply atan_increasing. apply Rdiv_lt_0_compat; lra.
  - destruct (Rlt_dec x 0); [lra |].
    destruct (Rlt_dec 0 y); [lra |].
    destruct (Rlt_dec y 0); lra.
Qed.

(** *** The arithmetic without rounding *)

Lemma clip_Fin (r : R) : - 100000000 <= r <= 100000000 -> clip r = Fin r.
Proof.
  intros H. unfold clip.
  destruct (Rlt_dec MAX_VALUE r) as [Hhi | _]; [unfold MAX_VALUE in Hhi; lra |].
  destruct (Rlt_dec r (- MAX_VALUE)) as [Hlo | _];
    [unfold MAX_VALUE in Hlo; lra | reflexivity].
Qed.

Lemma exactDiv_Fin (x y : R) :
  0 < y -> - 100000000 <= x / y <= 100000000 ->
  exactDiv (Fin x) (Fin y) = Fin (x / y).
Proof.
  intros Hy H. unfold exactDiv.
  destruct (Req_dec_T y 0); [lra | now apply clip_Fin].
Qed.

Lemma toRad_realArith (d : R) :
  - 1000000 <= d <= 1000000 -> toRad realArith (Fin d) = Fin (radians d).
Proof.
  intros Hd. pose proof PI_bounds as Hpi. unfold toRad, radians.
  cbn [js_pi js_div js_mul realArith exactMul].
  assert (Hm : - 100000000 <= d * PI <= 100000000) by nra.
  rewrite (clip_Fin _ Hm). apply exactDiv_Fin; lra.
Qed.

Lemma radians_bound (d : R) :
  - 1000000 <= d <= 1000000 -> - 1000000 <= radians d <= 1000000.
Proof. intros Hd. pose proof PI_bounds. unfold radians. nra. Qed.

Lemma square_bound (x : R) : - 1 <= x <= 1 -> 0 <= x * x <= 1.
Proof. intros H. nra. Qed.

(** Within the range of doubles the arithmetic without rounding computes
    the formula. *)
Lemma haversineMiles_realArith (lat1 lon1 lat2 lon2 : R) :
  - 1000 <= lat1 <= 1000 -> - 1000 <= lon1 <= 1000 ->
  - 1000 <= lat2 <= 1000 -> - 1000 <= lon2 <= 1000 ->
  haversineMiles realArith lat1 lon1 lat2 lon2 =
    Fin (greatCircleMiles lat1 lon1 lat2 lon2).
Proof.
  intros H1 H2 H3 H4. pose proof PI_bounds as Hpi.
  assert (Ha : haversineA realArith lat1 lon1 lat2 lon2
               = Fin (greatCircleA lat1 lon1 lat2 lon2)).
  { unfold haversineA.
    cbn [js_add js_sub js_mul js_div js_sq js_sin js_cos realArith exactSub].
    rewrite (clip_Fin (lat2 - lat1)) by lra.
    rewrite (clip_Fin (lon2 - lon1)) by lra.
    rewrite !toRad_realArith by lra.
    pose proof (radians_bound (lat2 - lat1) ltac:(lra)) as Hdlat.
    pose proof (radians_bound (lon2 - lon1) ltac:(lra)) as Hdlon.
    rewrite !exactDiv_Fin by lra.
    cbn [exactSin exactCos exactMul].
    pose proof (square_bound _ (SIN_bound (radians (lat2 - lat1) / 2))) as Hs1.
    pose proof (square_bound _ (SIN_bound (radians (lon2 - lon1) / 2))) as Hs2.
    pose proof (COS_bound (radians lat1)) as Hc1.
    pose proof (COS_bound (radians lat2)) as Hc2.
    rewrite !(clip_Fin (sin _ * sin _)) by lra.
    assert (Hcc : - 1 <= cos (radians lat1) * cos (radians lat2) <= 1) by nra.
    rewrite (clip_Fin (cos (radians lat1) * cos (radians lat2))) by lra.
    cbn [exactMul].
    assert (Hccs : - 1 <= cos (radians lat1) * cos (radians lat2)
                          * (sin (radians (lon2 - lon1) / 2)
                             * sin (radians (lon2 - lon1) / 2)) <= 1) by nra.
    rewrite (clip_Fin (cos (radians lat1) * cos (radians lat2) * _)) by lra.
    cbn [exactAdd]. rewrite clip_Fin by lra.
    f_equal. unfold greatCircleA. ring. }
  pose proof (greatCircleA_range lat1 lon1 lat2 lon2) as Hrange.
  unfold haversineMiles. rewrite Ha.
  cbn [js_sub js_mul js_sqrt js_atan2 realArith exactSub exactMul].
  rewrite (clip_Fin (1 - _)) by lra.
  unfold EARTH_RADIUS_MI. rewrite (clip_Fin (2 * _)) by lra.
  cbn [exactSqrt].
  destruct (Rlt_dec (greatCircleA lat1 lon1 lat2 lon2) 0); [lra |].
  destruct (Rlt_dec (1 - greatCircleA lat1 lon1 lat2 lon2) 0); [lra |].
  cbn [exactAtan2 exactMul].
  pose proof (atan2_roots (sqrt (greatCircleA lat1 lon1 lat2 lon2))
                (sqrt (1 - greatCircleA lat1 lon1 lat2 lon2))
                (sqrt_pos _) (sqrt_pos _)) as Hat.
  rewrite clip_Fin by nra.
  reflexivity.
Qed.

(** Beyond it the conversion to radians overflows and the distance is NaN:
    a latitude of 1.3e308 is a double, and its product with [Math.PI] is
    not. *)
Lemma haversineMiles_overflow (lon1 lat2 lon2 : R) :
  - 1000 <= lat2 <= 1000 ->
  haversineMiles realArith 1.3e308 lon1 lat2 lon2 = NaN.
Proof.
  intros Hlat. pose proof PI_bounds as Hpi.
  assert (Hdiff : exactSub (Fin lat2) (Fin 1.3e308) = Fin (lat2 - 1.3e308)).
  { unfold exactSub, clip.
    destruct (Rlt_dec MAX_VALUE (lat2 - 1.3e308)) as [Hhi | _];
      [unfold MAX_VALUE in Hhi; lra |].
    destruct (Rlt_dec (lat2 - 1.3e308) (- MAX_VALUE)) as [Hlo | _];
      [unfold MAX_VALUE in Hlo; lra | reflexivity]. }
  assert (Hrad : toRad realArith (Fin (lat2 - 1.3e308)) = NegInf).
  { unfold toRad. cbn [js_pi js_div js_mul realArith exactMul].
    unfold clip.
    destruct (Rlt_dec MAX_VALUE ((lat2 - 1.3e308) * PI)) as [Hhi | _];
      [unfold MAX_VALUE in Hhi; nra |].
    destruct (Rlt_dec ((lat2 - 1.3e308) * PI) (- MAX_VALUE)) as [_ | Hlo];
      [|unfold MAX_VALUE in Hlo; nra].
    cbn [exactDiv]. destruct (Rlt_dec 180 0); [lra | reflexivity]. }
  assert (Ha : haversineA realArith 1.3e308 lon1 lat2 lon2 = NaN).
  { unfold haversineA.
    cbn [js_add js_sub js_mul js_div js_sq js_sin js_cos realArith].
    rewrite Hdiff, Hrad. cbn [exactDiv].
    destruct (Rlt_dec 2 0); [lra | reflexivity]. }
  unfold haversineMiles. rewrite Ha.
  cbn [js_sub js_mul js_sqrt js_atan2 realArith exactSub exactSqrt exactAtan2 exactMul].
  unfold EARTH_RADIUS_MI. rewrite (clip_Fin (2 * _)) by lra. reflexivity.
Qed.

End DistanceFacts.

(* ================================================================= *)
(** ** Numbers of the query: rounding, radius and limit *)

Section NumberFacts.

Local Open Scope R_scope.

(** Rounding to hundredths moves a number by half a hundredth at most. *)
Lemma toFixed2_close (x : R) : - / 200 <= toFixed2 x - x <= / 200.
Proof.
  unfold toFixed2.
  destruct (Rle_dec (10 ^ 21) (Rabs x)).
  - lra.
  - destruct (Rlt_dec x 0).
    + destruct (base_Int_part (- x * 100 + / 2)) as [H1 H2]. lra.
    + destruct (base_Int_part (x * 100 + / 2)) as [H1 H2]. lra.
Qed.

Lemma toFixed2_error (x : R) : Rabs (toFixed2 x - x) <= 5 / 1000.
Proof. apply Rabs_le. pose proof (toFixed2_close x). lra. Qed.

(** The value, for a number whose hundredfold is within a half of [k]. *)
Lemma toFixed2_value (x : R) (k : Z) :
  0 <= x -> x < 10 ^ 21 -> IZR k - / 2 <= x * 100 < IZR k + / 2 ->
  toFixed2 x = IZR k / 100.
Proof.
  intros H0 Hbig [Hlo Hhi]. unfold toFixed2.
  destruct (Rle_dec (10 ^ 21) (Rabs x)) as [Hge | _].
  - rewrite Rabs_pos_eq in Hge by exact H0. lra.
  - destruct (Rlt_dec x 0); [lra |].
    rewrite <- (Int_part_spec (x * 100 + / 2) k); [reflexivity | lra].
Qed.

(** Below 1e21 the result is a whole number of hundredths. *)
Lemma toFixed2_hundredths (x : R) :
  Rabs x < 10 ^ 21 -> exists k : Z, toFixed2 x = IZR k / 100.
Proof.
  intros Hx. unfold toFixed2.
  destruct (Rle_dec (10 ^ 21) (Rabs x)); [lra |].
  destruct (Rlt_dec x 0).
  - exists (- Int_part (- x * 100 + / 2))%Z. rewrite opp_IZR. lra.
  - eexists. reflexivity.
Qed.

Lemma ten_pow_21 : 1000 < 10 ^ 21.
Proof.
  replace (10 ^ 21) with (1000 * 10 ^ 18) by (simpl; lra).
  assert (1 <= 10 ^ 18) by (apply pow_R1_Rle; lra).
  assert (10 ^ 18 <> 1).
  { replace (10 ^ 18) with (10 * 10 ^ 17) by (simpl; lra).
    assert (1 <= 10 ^ 17) by (apply pow_R1_Rle; lra). lra. }
  lra.
Qed.

Lemma toFixed2_zero : toFixed2 0 = 0.
Proof. pose proof ten_pow_21. rewrite (toFixed2_value 0 0); lra. Qed.

Lemma truncate_IZR (k : Z) : (0 <= k)%Z -> truncate (IZR k) = k.
Proof.
  intros Hk. unfold truncate.
  destruct (Rle_dec 0 (IZR k)) as [_ | Hn].
  - symmetry. apply Int_part_spec. lra.
  - exfalso. apply Hn. now apply IZR_le.
Qed.

Lemma sliceTo_IZR {A : Type} (k : Z) (l : list A) :
  (0 <= k)%Z -> sliceTo (Fin (IZR k)) l = firstn (Z.to_nat k) l.
Proof.
  intros Hk. unfold sliceTo. rewrite truncate_IZR by exact Hk.
  destruct (Z.ltb_spec k 0); [lia | reflexivity].
Qed.

(** The radius in miles is a number from 0.1 up, or NaN, or infinite. *)
Lemma radiusMi_numeric (r : R) :
  radiusMi (Some (Fin r)) = Fin (Rmax (1 / 10) (r / 1609.344)).
Proof. reflexivity. Qed.

Lemma radiusMi_default : radiusMi None = Fin (1200 / 1609.344).
Proof.
  unfold radiusMi, defaulted, numDiv, mathMax. f_equal.
  unfold Rmax. destruct (Rle_dec (1 / 10) (1200 / 1609.344)); lra.
Qed.

Lemma gtNum_zero_radiusMi (radiusMeters : option jsnum) :
  gtNum (Fin 0) (radiusMi radiusMeters) = false.
Proof.
  unfold radiusMi, defaulted, numDiv, mathMax.
  assert (H : forall x, gtNum (Fin 0) (Fin (Rmax (1 / 10) x)) = false).
  { intros x. unfold gtNum. pose proof (Rmax_l (1 / 10) x).
    destruct (Rgt_dec 0 (Rmax (1 / 10) x)); [lra | reflexivity]. }
  destruct radiusMeters as [[| | |r]|]; try reflexivity; try apply H.
  unfold gtNum. destruct (Rgt_dec 0 (1 / 10)); [lra | reflexivity].
Qed.

(** What the filter lets through: a distance that is NaN, or one that is
    not above the radius. *)
Lemma gtNum_false_Fin (d : jsnum) (r : R) :
  gtNum d (Fin r) = false <->
  d = NaN \/ d = NegInf \/ exists x, d = Fin x /\ x <= r.
Proof.
  unfold gtNum. destruct d as [| | |x].
  - split; auto.
  - split; [discriminate | intros [H | [H | (x & H & _)]]; discriminate].
  - split; auto.
  - destruct (Rgt_dec x r) as [Hgt | Hle].
    + split; [discriminate |].
      intros [H | [H | (y & [= ->] & Hy)]]; try discriminate. lra.
    + split; [|reflexivity]. intros _. right. right. exists x. split; [reflexivity | lra].
Qed.

(** The limit the code computes is the effective limit. *)
Lemma limitOf_effective (limit : option jsnum) :
  limitOf limit = Fin (effectiveLimit limit).
Proof.
  unfold limitOf, effectiveLimit, clampLimit, defaulted, numOr, mathMin, mathMax.
  assert (E12 : Rmax 1 (Rmin 50 12) = 12).
  { unfold Rmin, Rmax. destruct (Rle_dec 50 12); [lra |].
    destruct (Rle_dec 1 12); lra. }
  assert (E50 : Rmax 1 50 = 50) by (unfold Rmax; destruct (Rle_dec 1 50); lra).
  destruct limit as [[| | |r]|].
  - now rewrite E12.
  - now rewrite E50.
  - reflexivity.
  - destruct (Req_dec_T r 0); [now rewrite E12 | reflexivity].
  - destruct (Req_dec_T 12 0); [lra | now rewrite E12].
Qed.

Lemma clampLimit_range (r : R) : 1 <= clampLimit r <= 50.
Proof.
  unfold clampLimit. split; [apply Rmax_l |].
  apply Rmax_lub; [lra | apply Rmin_l].
Qed.

Lemma clampLimit_id (r : R) : 1 <= r <= 50 -> clampLimit r = r.
Proof.
  intros [H1 H50]. unfold clampLimit.
  rewrite Rmin_right by exact H50. now rewrite Rmax_right.
Qed.

Lemma effectiveLimit_range (limit : option jsnum) :
  1 <= effectiveLimit limit <= 50.
Proof.
  unfold effectiveLimit. destruct limit as [[| | |r]|]; try lra.
  destruct (Req_dec_T r 0); [lra | apply clampLimit_range].
Qed.

(** [slice(0, n)] for a limit in range keeps the first [floor n] elements. *)
Lemma sliceTo_in_range {A : Type} (n : R) (l : list A) :
  1 <= n <= 50 ->
  sliceTo (Fin n) l = firstn (Z.to_nat (Int_part n)) l /\
  (1 <= Int_part n <= 50)%Z /\
  IZR (Int_part n) <= n.
Proof.
  intros [H1 H50]. destruct (base_Int_part n) as [Hlo Hhi].
  assert (Hk1 : (1 <= Int_part n)%Z).
  { apply Z.lt_succ_r, lt_IZR. rewrite succ_IZR. lra. }
  assert (Hk50 : (Int_part n <= 50)%Z) by (apply le_IZR; lra).
  split; [|split; [lia | exact Hlo]].
  unfold sliceTo, truncate. destruct (Rle_dec 0 n); [|lra].
  destruct (Z.ltb_spec (Int_part n) 0); [lia | reflexivity].
Qed.

(** The comparator of the sort orders the stops whose [distanceMi] is a
    number by that number. *)
Lemma leDistance_numeric (a b : RankedStop) (x y : R) :
  distanceMi a = Fin x -> distanceMi b = Fin y ->
  (leDistance a b = true <-> x <= y).
Proof.
  intros Ha Hb. unfold leDistance, gtNum. rewrite Ha, Hb.
  destruct (Rgt_dec x y); cbn; split; intros H; try lra; try discriminate; auto.
Qed.

Lemma leDistance_total (a b : RankedStop) :
  leDistance a b = true \/ leDistance b a = true.
Proof.
  unfold leDistance, gtNum.
  destruct (distanceMi a) as [| | |x], (distanceMi b) as [| | |y]; cbn; auto.
  destruct (Rgt_dec x y), (Rgt_dec y x); cbn; auto. lra.
Qed.

Lemma leDistance_trans (a b c : RankedStop) :
  numericDistance a -> numericDistance b -> numericDistance c ->
  leDistance a b = true -> leDistance b c = true -> leDistance a c = true.
Proof.
  intros [x Ha] [y Hb] [z Hc].
  rewrite (leDistance_numeric a b x y Ha Hb), (leDistance_numeric b c y z Hb Hc),
    (leDistance_numeric a c x z Ha Hc).
  lra.
Qed.

Lemma eqDistance_true (d : R) (s : RankedStop) :
  eqDistance d s = true <-> distanceMi s = Fin d.
Proof.
  unfold eqDistance. destruct (distanceMi s) as [| | |x];
    try (split; discriminate).
  destruct (Req_dec_T x d) as [-> | Hne].
  - tauto.
  - split; [discriminate | intros [= E]; contradiction].
Qed.

End NumberFacts.

(* ================================================================= *)
(** ** Nearby query engine *)

Section QueryFacts.

Local Open Scope R_scope.

(** What every entry of an answer satisfies. *)
Lemma findNearby_Forall (ar : Arith) (P : RankedStop -> Prop) (idx : Index)
    (lat0 lng0 : R) (radiusMeters limit : option jsnum) :
  (forall stop,
      In stop (JsMap.values (stopById idx)) ->
      gtNum (haversineMiles ar lat0 lng0 (lat stop) (lng stop)) (radiusMi radiusMeters)
        = false ->
      P (rankStop idx stop (haversineMiles ar lat0 lng0 (lat stop) (lng stop)))) ->
  Forall P (stops (findNearby ar idx lat0 lng0 radiusMeters limit)).
Proof.
  intros HP. apply Forall_forall. intros st Hst.
  apply findNearby_stop_inv in Hst. destruct Hst as (stop & Hin & Hwithin & ->).
  now apply HP.
Qed.

(** The reported distance is a number exactly when the distance is, and is
    then at most half a hundredth away. *)
Lemma toFixed2Num_Fin (n : jsnum) (x : R) :
  toFixed2Num n = Fin x -> exists d, n = Fin d /\ x = toFixed2 d.
Proof. destruct n as [| | |d]; try discriminate. intros [= <-]. eauto. Qed.

Lemma reportedLe_raw (a b : RankedStop) (ra rb : jsnum) :
  distanceMi a = toFixed2Num ra -> distanceMi b = toFixed2Num rb ->
  reportedLe a b ->
  exists da db, ra = Fin da /\ rb = Fin db /\ da <= db + 1 / 100.
Proof.
  intros Ha Hb (x & y & Hx & Hy & Hxy).
  rewrite Ha in Hx. rewrite Hb in Hy.
  apply toFixed2Num_Fin in Hx, Hy.
  destruct Hx as (da & -> & ->). destruct Hy as (db & -> & ->).
  exists da, db. split; [reflexivity |]. split; [reflexivity |].
  pose proof (toFixed2_close da). pose proof (toFixed2_close db). lra.
Qed.

(** With numbers for distances the comparator is consistent, and the sort
    puts the stops in ascending order of the reported distance. *)
Lemma sortBy_reportedLe (out : list RankedStop) :
  Forall numericDistance out ->
  StronglySorted reportedLe (sortBy leDistance out).
Proof.
  intros Hnum.
  assert (Hsorted : StronglySorted (fun a b => leDistance a b = true)
                      (sortBy leDistance out)).
  { apply (sortBy_sorted_on leDistance numericDistance); [| |exact Hnum].
    - intros x y _ _. apply leDistance_total.
    - intros x y z. apply leDistance_trans. }
  assert (Hall : Forall numericDistance (sortBy leDistance out)).
  { apply Forall_forall. intros st Hst. apply sortBy_In in Hst.
    rewrite Forall_forall in Hnum. now apply Hnum. }
  induction Hsorted as [|a l Hs IH Hle]; constructor.
  - apply IH. now apply Forall_cons_iff in Hall.
  - apply Forall_cons_iff in Hall. destruct Hall as [[x Hx] Hall].
    rewrite Forall_forall in *. intros b Hb.
    destruct (Hall b Hb) as [y Hy].
    exists x, y. split; [exact Hx |]. split; [exact Hy |].
    now apply (leDistance_numeric a b x y Hx Hy), Hle.
Qed.

Lemma findNearby_sorted (ar : Arith) (idx : Index) (lat0 lng0 : R)
    (radiusMeters limit : option jsnum) :
  Forall numericDistance (withinRadius ar idx lat0 lng0 (radiusMi radiusMeters)) ->
  StronglySorted reportedLe (stops (findNearby ar idx lat0 lng0 radiusMeters limit)).
Proof.
  intros Hnum. unfold findNearby. cbn [stops].
  destruct (sliceTo_prefix (limitOf limit)
              (sortBy leDistance
                 (withinRadius ar idx lat0 lng0 (radiusMi radiusMeters)))) as [k ->].
  now apply firstn_sorted, sortBy_reportedLe.
Qed.

(** Every candidate reports its distance put through [toFixed(2)]. *)
Lemma withinRadius_reported (ar : Arith) (idx : Index) (lat0 lng0 : R) (rMi : jsnum) :
  Forall (fun st => distanceMi st = toFixed2Num (rawDistance ar lat0 lng0 st))
    (withinRadius ar idx lat0 lng0 rMi).
Proof.
  apply Forall_forall. intros st Hst. unfold withinRadius in Hst.
  apply in_map_iff in Hst. destruct Hst as (stop & <- & _). reflexivity.
Qed.

(** *** The minimal feed *)

Lemma resolveRoutes_S1 :
  resolveRoutes minimalIndex "S1"
  = [{| ro_id := "R1"; shortName := "1"; longName := "Bronzeville"; ro_type := bus |}].
Proof.
  unfold resolveRoutes, minimalIndex. simpl.
  unfold routeOut, routeR1, classifyMode. simpl.
  destruct (Req_dec_T 3 3) as [_ | Hn]; [reflexivity | lra].
Qed.

Lemma distance_S1 :
  haversineMiles realArith 41.88 (-87.63) (lat stopS1) (lng stopS1) = Fin 0.
Proof.
  cbn [lat lng stopS1]. rewrite haversineMiles_realArith by lra.
  now rewrite greatCircleMiles_same.
Qed.

(** The answer for a query at the one stop of the minimal feed, whatever
    the radius and the limit. *)
Lemma minimalFixture_result (radiusMeters limit : option jsnum) :
  stops (findNearby realArith minimalIndex 41.88 (-87.63) radiusMeters limit)
  = [rankedS1].
Proof.
  unfold findNearby. cbn [stops]. rewrite limitOf_effective.
  destruct (sliceTo_in_range (A := RankedStop) (effectiveLimit limit)
              (sortBy leDistance
                 (withinRadius realArith minimalIndex 41.88 (-87.63)
                    (radiusMi radiusMeters)))
              (effectiveLimit_range limit)) as (-> & Hk & _).
  unfold withinRadius.
  cbn [JsMap.values stopById minimalIndex map snd filter].
  rewrite distance_S1, gtNum_zero_radiusMi. cbn [negb map].
  rewrite distance_S1. unfold rankStop. cbn [toFixed2Num]. rewrite toFixed2_zero.
  cbn [stop_id stop_name lat lng stopS1]. rewrite resolveRoutes_S1.
  cbn [map ro_type distinctModes existsb app firstn sortBy insertBy].
  destruct (Z.to_nat (Int_part (effectiveLimit limit))) eqn:E; [lia |].
  cbn [firstn]. now rewrite firstn_nil.
Qed.

(** The end-to-end scenario of the specification: the minimal feed, a query
    at the stop with radius 500 m and limit 10. *)
Example endToEnd_scenario :
  indexFromSnapshot fixtureNumber (diskWith minimalZip T0) fixtureSnapshot
    = Ok minimalIndex /\
  findNearby realArith minimalIndex 41.88 (-87.63) (Some (Fin 500)) (Some (Fin 10))
    = {| nb_updatedAt := Some T0_iso; stops := [rankedS1] |}.
Proof.
  split; [reflexivity |].
  pose proof (minimalFixture_result (Some (Fin 500)) (Some (Fin 10))) as H.
  unfold findNearby in *. cbn [stops] in H. now rewrite H.
Qed.

(** The same query from a latitude of 1.3e308, a double: the distance of
    the stop is NaN, the stop passes the radius test and is reported at
    NaN. *)
Lemma overflowFixture_result (radiusMeters limit : option jsnum) :
  stops (findNearby realArith minimalIndex 1.3e308 (-87.63) radiusMeters limit)
  = [{| rs_id := "S1"; rs_name := "State and Lake"; rs_lat := 41.88;
        rs_lng := -87.63; distanceMi := NaN; modes := [bus];
        routes := [{| ro_id := "R1"; shortName := "1"; longName := "Bronzeville";
                      ro_type := bus |}] |}].
Proof.
  assert (Hnan : haversineMiles realArith 1.3e308 (-87.63) (lat stopS1) (lng stopS1)
                 = NaN).
  { cbn [lat lng stopS1]. apply haversineMiles_overflow. lra. }
  unfold findNearby. cbn [stops]. rewrite limitOf_effective.
  destruct (sliceTo_in_range (A := RankedStop) (effectiveLimit limit)
              (sortBy leDistance
                 (withinRadius realArith minimalIndex 1.3e308 (-87.63)
                    (radiusMi radiusMeters)))
              (effectiveLimit_range limit)) as (-> & Hk & _).
  unfold withinRadius.
  cbn [JsMap.values stopById minimalIndex map snd filter].
  rewrite Hnan. cbn [gtNum negb map]. rewrite Hnan.
  unfold rankStop. cbn [toFixed2Num stop_id stop_name lat lng stopS1].
  rewrite resolveRoutes_S1.
  cbn [map ro_type distinctModes existsb app firstn sortBy insertBy].
  destruct (Z.to_nat (Int_part (effectiveLimit limit))) eqn:E; [lia |].
  cbn [firstn]. now rewrite firstn_nil.
Qed.

(** *** The feed of the two stops at 0.745 mi *)

Lemma distance_S2 :
  exists d, haversineMiles realArith 41.88 (-87.63) (lat stopS2) (lng stopS2) = Fin d /\
            0.7451 < d < 0.7453.
Proof.
  cbn [lat lng stopS2]. rewrite haversineMiles_realArith by lra.
  eexists. split; [reflexivity |].
  rewrite greatCircleMiles_meridian by lra.
  unfold EARTH_RADIUS_MI, radians. pose proof PI_bounds. lra.
Qed.

Lemma distance_S3 :
  exists d, haversineMiles realArith 41.88 (-87.63) (lat stopS3) (lng stopS3) = Fin d /\
            0.7450 < d < 0.7453.
Proof.
  cbn [lat lng stopS3]. rewrite haversineMiles_realArith by lra.
  eexists. split; [reflexivity |].
  rewrite greatCircleMiles_meridian by lra.
  unfold EARTH_RADIUS_MI, radians. pose proof PI_bounds. lra.
Qed.

Lemma distance_S3_S2 :
  exists d3 d2,
    haversineMiles realArith 41.88 (-87.63) (lat stopS3) (lng stopS3) = Fin d3 /\
    haversineMiles realArith 41.88 (-87.63) (lat stopS2) (lng stopS2) = Fin d2 /\
    d3 < d2 /\ d2 < 0.7453.
Proof.
  cbn [lat lng stopS2 stopS3]. rewrite !haversineMiles_realArith by lra.
  eexists. eexists. split; [reflexivity |]. split; [reflexivity |].
  rewrite !greatCircleMiles_meridian by lra.
  unfold EARTH_RADIUS_MI, radians. pose proof PI_bounds. lra.
Qed.

Lemma toFixed2_075 (d : R) : 0.745 <= d < 0.755 -> toFixed2 d = 0.75.
Proof.
  intros Hd. pose proof ten_pow_21.
  rewrite (toFixed2_value d 75); lra.
Qed.

(** The stops of that feed within the default radius of 1200 m
    (0.7456 mi): both, each reported at 0.75 mi, in table order. *)
Lemma roundingFixture_within :
  withinRadius realArith roundingIndex 41.88 (-87.63) (radiusMi None)
  = [ranked stopS2 (Fin 0.75); ranked stopS3 (Fin 0.75)].
Proof.
  rewrite radiusMi_default.
  unfold withinRadius. cbn [JsMap.values stopById roundingIndex map snd filter].
  destruct distance_S2 as (d2 & E2 & H2). destruct distance_S3 as (d3 & E3 & H3).
  rewrite E2, E3. unfold gtNum.
  destruct (Rgt_dec d2 (1200 / 1609.344)); [lra |].
  destruct (Rgt_dec d3 (1200 / 1609.344)); [lra |].
  cbn [negb map]. rewrite E2, E3. unfold rankStop. cbn [toFixed2Num].
  rewrite !toFixed2_075 by lra.
  unfold resolveRoutes, roundingIndex.
  cbn [stopToRoutes JsMap.get map somes distinctModes firstn]. reflexivity.
Qed.

(** The answer on that feed for the default radius and a limit that comes
    to the whole number [k]: the first [k] of the two stops. *)
Lemma roundingFixture_result (limit : option jsnum) (k : Z) :
  effectiveLimit limit = IZR k -> (0 <= k)%Z ->
  stops (findNearby realArith roundingIndex 41.88 (-87.63) None limit)
  = firstn (Z.to_nat k) [ranked stopS2 (Fin 0.75); ranked stopS3 (Fin 0.75)].
Proof.
  intros Hlimit Hk. unfold findNearby. cbn [stops].
  rewrite roundingFixture_within, limitOf_effective, Hlimit.
  rewrite sliceTo_IZR by exact Hk.
  cbn [sortBy insertBy]. unfold leDistance, gtNum. cbn [distanceMi ranked].
  destruct (Rgt_dec 0.75 0.75); [lra |]. reflexivity.
Qed.

Lemma effectiveLimit_default : effectiveLimit None = IZR 12.
Proof. reflexivity. Qed.

Lemma effectiveLimit_one : effectiveLimit (Some (Fin 1)) = IZR 1.
Proof.
  unfold effectiveLimit. destruct (Req_dec_T 1 0); [lra |].
  apply clampLimit_id. lra.
Qed.

Lemma roundingFixture_facts :
  exists d3 d2,
    rawDistance realArith 41.88 (-87.63) (ranked stopS3 (Fin 0.75)) = Fin d3 /\
    rawDistance realArith 41.88 (-87.63) (ranked stopS2 (Fin 0.75)) = Fin d2 /\
    d3 < d2 /\ d2 < 1200 / 1609.344.
Proof.
  destruct distance_S3_S2 as (d3 & d2 & H3 & H2 & Hlt & Hd2).
  exists d3, d2. unfold rawDistance. cbn [rs_lat rs_lng ranked].
  split; [exact H3 |]. split; [exact H2 |]. lra.
Qed.

End QueryFacts.

Section QueryClaims.

Local Open Scope R_scope.

(** C2, as the code has it.  [findNearby] works with an effective limit:
    the requested limit clamped into the range from 1 to 50, and the default
    12 when the limit is left out, zero or not a number.  The answer has
    [min (floor of the effective limit) (stops within the radius)] stops:
    never more than 50, never more than the effective limit, and never more
    than a requested limit of 1 or more. *)
Theorem C2_limit_clamped (ar : Arith) (idx : Index) (lat0 lng0 : R)
    (radiusMeters limit : option jsnum) :
  let n := effectiveLimit limit in
  let out := withinRadius ar idx lat0 lng0 (radiusMi radiusMeters) in
  let result := stops (findNearby ar idx lat0 lng0 radiusMeters limit) in
  limitOf limit = Fin n /\
  1 <= n <= 50 /\
  List.length result = Nat.min (Z.to_nat (Int_part n)) (List.length out) /\
  (List.length result <= 50)%nat /\
  INR (List.length result) <= n /\
  (forall r, limit = Some (Fin r) -> r <> 0 -> n = clampLimit r) /\
  (forall r, limit = Some (Fin r) -> 1 <= r -> INR (List.length result) <= r).
Proof.
  intros n out result.
  pose proof (effectiveLimit_range limit) as Hn. fold n in Hn.
  destruct (sliceTo_in_range n (sortBy leDistance out) Hn) as (Hslice & Hk & Hkn).
  assert (Hlen : List.length result
                 = Nat.min (Z.to_nat (Int_part n)) (List.length out)).
  { unfold result, findNearby. cbn [stops]. rewrite limitOf_effective.
    fold n. fold out. rewrite Hslice, length_firstn. now rewrite sortBy_length. }
  assert (Hreal : INR (List.length result) <= n).
  { rewrite Hlen. apply Rle_trans with (INR (Z.to_nat (Int_part n))).
    - apply le_INR. lia.
    - rewrite INR_IZR_INZ, Z2Nat.id by lia. exact Hkn. }
  assert (Hclamp : forall r, limit = Some (Fin r) -> r <> 0 -> n = clampLimit r).
  { intros r -> Hr. unfold n, effectiveLimit.
    destruct (Req_dec_T r 0); [contradiction | reflexivity]. }
  split; [apply limitOf_effective |]. split; [exact Hn |].
  split; [exact Hlen |]. split; [rewrite Hlen; lia |]. split; [exact Hreal |].
  split; [exact Hclamp |].
  intros r Hlimit Hr.
  apply Rle_trans with n; [exact Hreal |].
  rewrite (Hclamp r Hlimit) by lra.
  unfold clampLimit. apply Rmax_lub; [exact Hr | apply Rmin_r].
Qed.

(** C2, the claim as worded, fails for a requested limit below 1.  With the
    limit 0 the default 12 applies and both stops of the two-stop feed are
    returned, more than 0 and more than the lower clamp 1; with the limit -5
    the clamp gives 1 and the one stop of the minimal feed is returned. *)
Lemma C2_limit_below_one_exceeded :
  stops (findNearby realArith roundingIndex 41.88 (-87.63) None (Some (Fin 0)))
    = [ranked stopS2 (Fin 0.75); ranked stopS3 (Fin 0.75)] /\
  limitOf (Some (Fin 0)) = Fin 12 /\
  stops (findNearby realArith minimalIndex 41.88 (-87.63) None (Some (Fin (-5)))) = [rankedS1] /\
  limitOf (Some (Fin (-5))) = Fin 1 /\
  INR (List.length [ranked stopS2 (Fin 0.75); ranked stopS3 (Fin 0.75)]) > 1 /\
  INR (List.length [rankedS1]) > -5.
Proof.
  assert (E0 : effectiveLimit (Some (Fin 0)) = 12).
  { unfold effectiveLimit. destruct (Req_dec_T 0 0); [reflexivity | lra]. }
  assert (E5 : effectiveLimit (Some (Fin (-5))) = 1).
  { unfold effectiveLimit, clampLimit. destruct (Req_dec_T (-5) 0); [lra |].
    rewrite Rmin_right by lra. now rewrite Rmax_left by lra. }
  split; [exact (roundingFixture_result (Some (Fin 0)) 12 E0 ltac:(lia)) |].
  split; [now rewrite limitOf_effective, E0 |].
  split; [apply minimalFixture_result |].
  split; [now rewrite limitOf_effective, E5 |].
  simpl. lra.
Qed.

(** C9, as the code has it.  The comparator of the sort reads the reported
    [distanceMi], the distance rounded to two decimals.  When every stop
    within the radius has a number for its distance, the stops of an answer
    ascend in the reported distance, so that a stop listed before another is
    by the distance itself at most 0.01 mi farther; the stops reported at
    one distance [d] are the first of the stops within the radius reported
    at [d], in the order in which the loop met them, which is the order of
    the stop table; and the answer is a prefix of the stable sort of the
    stops within the radius, a function of the index and the query alone. *)
Theorem C9_sorted_and_stable (ar : Arith) (idx : Index) (lat0 lng0 : R)
    (radiusMeters limit : option jsnum) :
  let within := fun stop =>
    negb (gtNum (haversineMiles ar lat0 lng0 (lat stop) (lng stop))
            (radiusMi radiusMeters)) in
  let out := withinRadius ar idx lat0 lng0 (radiusMi radiusMeters) in
  let result := stops (findNearby ar idx lat0 lng0 radiusMeters limit) in
  Forall numericDistance out ->
  StronglySorted reportedLe result /\
  StronglySorted
    (fun a b => exists da db,
         rawDistance ar lat0 lng0 a = Fin da /\
         rawDistance ar lat0 lng0 b = Fin db /\ da <= db + 1 / 100) result /\
  (forall d, exists rest,
      filter (eqDistance d) out = filter (eqDistance d) result ++ rest) /\
  map rs_id out = map stop_id (filter within (JsMap.values (stopById idx))) /\
  (exists k, result = firstn k (sortBy leDistance out)) /\
  Permutation (sortBy leDistance out) out.
Proof.
  intros within out result Hnum.
  assert (Hprefix : exists k, result = firstn k (sortBy leDistance out)).
  { unfold result, findNearby. cbn [stops]. fold out. apply sliceTo_prefix. }
  assert (Hsorted : StronglySorted reportedLe result).
  { now apply findNearby_sorted. }
  assert (Hraw : Forall (fun st => distanceMi st
                                   = toFixed2Num (rawDistance ar lat0 lng0 st)) result).
  { apply findNearby_Forall. intros stop _ _. reflexivity. }
  split; [exact Hsorted |].
  split; [|split; [|split; [|split; [exact Hprefix | apply sortBy_perm]]]].
  - clear Hprefix. induction Hsorted as [|a l Hs IH Hle]; constructor.
    + apply IH. now apply Forall_cons_iff in Hraw.
    + apply Forall_cons_iff in Hraw. destruct Hraw as [Ha Hl].
      rewrite Forall_forall in *. intros b Hb.
      exact (reportedLe_raw a b _ _ Ha (Hl b Hb) (Hle b Hb)).
  - intros d. destruct Hprefix as [k ->].
    exists (filter (eqDistance d) (skipn k (sortBy leDistance out))).
    rewrite <- filter_app, firstn_skipn.
    symmetry. apply filter_sortBy.
    intros a b Ha Hb. apply eqDistance_true in Ha, Hb.
    apply (leDistance_numeric a b d d Ha Hb). lra.
  - unfold out, withinRadius. rewrite map_map. cbn [rs_id rankStop]. reflexivity.
Qed.

(** C9 on the feed of the two stops at 0.745 mi: the answer ascends in the
    reported distance. *)
Lemma C9_sorted_and_stable_witness :
  Forall numericDistance
    (withinRadius realArith roundingIndex 41.88 (-87.63) (radiusMi None)) /\
  StronglySorted reportedLe
    (stops (findNearby realArith roundingIndex 41.88 (-87.63) None None)).
Proof.
  assert (Hnum : Forall numericDistance
            (withinRadius realArith roundingIndex 41.88 (-87.63) (radiusMi None))).
  { rewrite roundingFixture_within.
    repeat constructor; exists 0.75; reflexivity. }
  split; [exact Hnum |].
  exact (proj1 (C9_sorted_and_stable realArith roundingIndex 41.88 (-87.63)
                  None None Hnum)).
Defined.

(** C9, the claim as worded, fails for the distance itself.  On the feed of
    the two stops at 0.745 mi both stops are reported at 0.75 mi, and [S3],
    which is the nearer one, comes after [S2], in table order; with the
    limit 1 the answer is [S2] alone, the farther of the two. *)
Lemma C9_order_against_true_distance :
  map rs_id (stops (findNearby realArith roundingIndex 41.88 (-87.63) None None))
    = ["S2"; "S3"] /\
  map distanceMi (stops (findNearby realArith roundingIndex 41.88 (-87.63) None None))
    = [Fin 0.75; Fin 0.75] /\
  map rs_id
    (stops (findNearby realArith roundingIndex 41.88 (-87.63) None (Some (Fin 1))))
    = ["S2"] /\
  exists d3 d2,
    haversineMiles realArith 41.88 (-87.63) (lat stopS3) (lng stopS3) = Fin d3 /\
    haversineMiles realArith 41.88 (-87.63) (lat stopS2) (lng stopS2) = Fin d2 /\
    d3 < d2 /\ d2 < 0.7453.
Proof.
  rewrite (roundingFixture_result None 12 effectiveLimit_default) by lia.
  rewrite (roundingFixture_result (Some (Fin 1)) 1 effectiveLimit_one) by lia.
  split; [reflexivity |]. split; [reflexivity |]. split; [reflexivity |].
  exact distance_S3_S2.
Qed.

(** C3, as the code has it.  For a numeric [radiusMeters] the radius in
    miles is [max 0.1 (radiusMeters / 1609.344)].  The test that drops a
    stop is [dMi > radiusMi], which is false also when [dMi] is NaN: every
    returned stop has a haversine distance that is a number at most the
    radius, or one that is no number above it (NaN, as the double
    arithmetic gives for some coordinates), and reports that distance
    rounded to two decimals, which for a number is at most the radius plus
    0.005; no stop of the table whose distance compares above the radius is
    returned; and a radius left out is 1200 m. *)
Theorem C3_radius_filter (ar : Arith) (idx : Index) (lat0 lng0 r : R)
    (limit : option jsnum) :
  let rMi := Rmax (1 / 10) (r / 1609.344) in
  let result := stops (findNearby ar idx lat0 lng0 (Some (Fin r)) limit) in
  radiusMi (Some (Fin r)) = Fin rMi /\
  1 / 10 <= rMi /\
  Forall (fun st =>
            gtNum (rawDistance ar lat0 lng0 st) (Fin rMi) = false /\
            (rawDistance ar lat0 lng0 st = NaN \/
             rawDistance ar lat0 lng0 st = NegInf \/
             exists d, rawDistance ar lat0 lng0 st = Fin d /\ d <= rMi /\
                       distanceMi st = Fin (toFixed2 d) /\
                       toFixed2 d <= rMi + 5 / 1000) /\
            distanceMi st = toFixed2Num (rawDistance ar lat0 lng0 st)) result /\
  (forall stop,
      In stop (JsMap.values (stopById idx)) ->
      gtNum (haversineMiles ar lat0 lng0 (lat stop) (lng stop)) (Fin rMi) = true ->
      ~ In (rankStop idx stop (haversineMiles ar lat0 lng0 (lat stop) (lng stop)))
          result) /\
  (forall d, gtNum (Fin d) (Fin rMi) = true <-> d > rMi) /\
  findNearby ar idx lat0 lng0 None limit
    = findNearby ar idx lat0 lng0 (Some (Fin 1200)) limit.
Proof.
  intros rMi result.
  assert (Hwithin : forall st, In st result ->
                      gtNum (rawDistance ar lat0 lng0 st) (Fin rMi) = false /\
                      distanceMi st = toFixed2Num (rawDistance ar lat0 lng0 st)).
  { intros st Hst. apply findNearby_stop_inv in Hst.
    destruct Hst as (stop & _ & Hgt & ->).
    unfold rawDistance. cbn [rs_lat rs_lng distanceMi rankStop].
    split; [exact Hgt | reflexivity]. }
  split; [reflexivity |]. split; [apply Rmax_l |].
  split; [|split; [|split; [|reflexivity]]].
  - apply Forall_forall. intros st Hst.
    destruct (Hwithin st Hst) as [Hgt Heq].
    split; [exact Hgt |]. split; [|exact Heq].
    apply gtNum_false_Fin in Hgt.
    destruct Hgt as [Hnan | [Hneg | (d & Hd & Hle)]]; [now left | now right; left |].
    right; right. exists d. split; [exact Hd |]. split; [exact Hle |].
    split; [now rewrite Heq, Hd |].
    pose proof (toFixed2_close d). lra.
  - intros stop _ Hfar Hin. apply Hwithin in Hin. destruct Hin as [Hgt _].
    unfold rawDistance in Hgt. cbn [rs_lat rs_lng rankStop] in Hgt. congruence.
  - intros d. unfold gtNum. destruct (Rgt_dec d rMi); split; intros H;
      try discriminate; try reflexivity; try tauto.
Qed.

(** C3, the claim as worded, fails on the reported distance: with the
    default radius of 1200 m, which is 0.7456 mi, both stops of the two-stop
    feed lie within the radius, at about 0.7452 mi, and are returned with
    [distanceMi] 0.75, more than four thousandths of a mile beyond the
    radius. *)
Lemma C3_reported_distance_beyond_radius :
  radiusMi None = Fin (1200 / 1609.344) /\
  stops (findNearby realArith roundingIndex 41.88 (-87.63) None None)
    = [ranked stopS2 (Fin 0.75); ranked stopS3 (Fin 0.75)] /\
  (exists d2, rawDistance realArith 41.88 (-87.63) (ranked stopS2 (Fin 0.75)) = Fin d2 /\
              d2 < 1200 / 1609.344) /\
  distanceMi (ranked stopS2 (Fin 0.75)) = Fin 0.75 /\
  0.75 > 1200 / 1609.344 + 4 / 1000.
Proof.
  split; [exact radiusMi_default |].
  split; [exact (roundingFixture_result None 12 effectiveLimit_default ltac:(lia)) |].
  split; [|split; [reflexivity | lra]].
  destruct roundingFixture_facts as (d3 & d2 & _ & H2 & _ & Hd2).
  exists d2. now split.
Qed.

(** C10, as the code has it.  Every returned stop reports its haversine
    distance from the query point put through [toFixed(2)] and [Number]:
    for a distance that is a number, a whole number of hundredths of a mile
    at most 0.005 away from the distance; for a distance that is NaN, NaN.
    The comparator of the sort reads this reported field, and the answer
    ascends in it when the stops within the radius all have numbers for
    distances. *)
Theorem C10_distance_reported_rounded (ar : Arith) (idx : Index) (lat0 lng0 : R)
    (radiusMeters limit : option jsnum) :
  let out := withinRadius ar idx lat0 lng0 (radiusMi radiusMeters) in
  let result := stops (findNearby ar idx lat0 lng0 radiusMeters limit) in
  Forall (fun st =>
            distanceMi st = toFixed2Num (rawDistance ar lat0 lng0 st) /\
            (forall d, rawDistance ar lat0 lng0 st = Fin d ->
                       distanceMi st = Fin (toFixed2 d) /\
                       Rabs (toFixed2 d - d) <= 5 / 1000 /\
                       (Rabs d < 10 ^ 21 -> exists k : Z, toFixed2 d = IZR k / 100)) /\
            (rawDistance ar lat0 lng0 st = NaN -> distanceMi st = NaN)) result /\
  (forall a b, leDistance a b = negb (gtNum (distanceMi a) (distanceMi b))) /\
  (forall a b x y, distanceMi a = Fin x -> distanceMi b = Fin y ->
                   (leDistance a b = true <-> x <= y)) /\
  (Forall numericDistance out ->
   result = sliceTo (limitOf limit) (sortBy leDistance out) /\
   StronglySorted reportedLe result).
Proof.
  intros out result.
  split; [|split; [reflexivity |
           split; [exact leDistance_numeric |
                   intros Hnum; split;
                   [reflexivity | now apply findNearby_sorted]]]].
  apply findNearby_Forall. intros stop _ _.
  unfold rawDistance. cbn [rs_lat rs_lng distanceMi rankStop].
  split; [reflexivity |]. split.
  - intros d ->. cbn [toFixed2Num]. split; [reflexivity |].
    split; [apply toFixed2_error | apply toFixed2_hundredths].
  - intros ->. reflexivity.
Qed.

(** C10, the claim as worded, fails where the distance is no number.  A
    query from the latitude 1.3e308, a finite double, which the route
    hands on, gives NaN for the distance of the one stop of the minimal
    feed; the stop passes the radius test and is returned with [distanceMi]
    NaN, which is no number of hundredths and within no 0.005 of a
    distance. *)
Lemma C10_distance_reported_nan :
  haversineMiles realArith 1.3e308 (-87.63) (lat stopS1) (lng stopS1) = NaN /\
  map rs_id (stops (findNearby realArith minimalIndex 1.3e308 (-87.63) None None))
    = ["S1"] /\
  map distanceMi (stops (findNearby realArith minimalIndex 1.3e308 (-87.63) None None))
    = [NaN] /\
  exists data,
    respond realArith 1.3e308 (-87.63) (Fin 1200) (Fin 12) (Ok minimalIndex)
      = Json200 data "cta_gtfs" /\
    map distanceMi (stops data) = [NaN].
Proof.
  rewrite overflowFixture_result.
  split; [cbn [lat lng stopS1]; apply haversineMiles_overflow; lra |].
  split; [reflexivity |]. split; [reflexivity |].
  eexists. split; [reflexivity |].
  now rewrite overflowFixture_result.
Qed.

End QueryClaims.

(* ################################################################# *)
(** * Edge cases, invariants and compositions *)

(* ================================================================= *)
(** ** Flat-record parser: rows written and read back *)

(** Outside quotes the loop copies a plain field up to its end. *)
Lemma parseCsvFrom_plain (f tail : string) :
  plainField f = true ->
  forall out cur,
    parseCsvFrom (f ++ tail) out cur false =
    parseCsvFrom tail out (cur ++ f) false.
Proof.
  induction f as [|ch f IH]; intros Hf out cur.
  - simpl. now rewrite string_app_empty_r.
  - simpl in Hf. apply andb_prop in Hf. destruct Hf as [Hch Hf].
    apply andb_prop in Hch. destruct Hch as [Hq Hc].
    apply negb_true_iff in Hq, Hc.
    change (String ch f ++ tail)%string with (String ch (f ++ tail)%string).
    cbn [parseCsvFrom]. rewrite Hq, Hc. cbn [andb].
    rewrite IH by exact Hf. now rewrite string_app_snoc.
Qed.

Lemma parseCsvFrom_writeField (f : bool * string) (tail : string)
    (out : list string) :
  fieldEnd tail ->
  parseCsvFrom (writeField f ++ tail) out "" false =
  parseCsvFrom tail out (snd f) false.
Proof.
  intros Htail. unfold writeField.
  destruct (fst f || negb (plainField (snd f))) eqn:E.
  - now apply parseCsvFrom_quoteField.
  - apply orb_false_iff in E. destruct E as [_ E].
    apply negb_false_iff in E.
    now rewrite parseCsvFrom_plain.
Qed.

Lemma parseCsvFrom_written_row (f : bool * string) (fs : list (bool * string))
    (out : list string) :
  parseCsvFrom (joinComma (map writeField (f :: fs))) out "" false =
  out ++ map snd (f :: fs).
Proof.
  revert f out. induction fs as [|g fs IH]; intros f out.
  - cbn [map joinComma]. rewrite <- (string_app_empty_r (writeField f)).
    rewrite parseCsvFrom_writeField by (now left). reflexivity.
  - change (joinComma (map writeField (f :: g :: fs)))
      with (writeField f ++ String comma (joinComma (map writeField (g :: fs))))%string.
    rewrite parseCsvFrom_writeField by (right; eauto).
    change (parseCsvFrom (String comma (joinComma (map writeField (g :: fs))))
              out (snd f) false)
      with (parseCsvFrom (joinComma (map writeField (g :: fs))) (out ++ [snd f]) "" false).
    rewrite IH. now rewrite <- app_assoc.
Qed.

(** X1.  A row written field by field, each field between doubled-quote
    escaped quotes when the writer chooses or when it holds a comma or a
    double quote, and as it is otherwise, parses back to exactly the fields
    that were written, whatever characters they hold. *)
Theorem parseCsvLine_written_row (f : bool * string) (fs : list (bool * string)) :
  parseCsvLine (joinComma (map writeField (f :: fs))) = map snd (f :: fs).
Proof. unfold parseCsvLine. now rewrite parseCsvFrom_written_row. Qed.

Lemma joinComma_snoc (l : list string) (a b : string) :
  joinComma (l ++ [a; b]) = joinComma (l ++ [(a ++ String comma b)%string]).
Proof.
  induction l as [|x l IH]; [reflexivity |].
  destruct l as [|y l]; [reflexivity |].
  change (joinComma ((x :: y :: l) ++ [a; b]))
    with (x ++ String comma (joinComma ((y :: l) ++ [a; b])))%string.
  rewrite IH. reflexivity.
Qed.

Lemma parseCsvFrom_unquoted (line : string) :
  hasChar dquote line = false ->
  forall out cur,
    joinComma (parseCsvFrom line out cur false) =
      joinComma (out ++ [(cur ++ line)%string]) /\
    List.length (parseCsvFrom line out cur false) =
      (List.length out + S (countChar comma line))%nat.
Proof.
  unfold hasChar. rewrite negb_false_iff, Nat.eqb_eq.
  induction line as [|ch line IH]; intros Hq out cur.
  - cbn. rewrite string_app_empty_r, length_app. cbn. split; [reflexivity | lia].
  - cbn [countChar] in Hq.
    destruct (Ascii.eqb ch dquote) eqn:Ed; [discriminate |].
    cbn [Nat.add] in Hq. specialize (IH Hq).
    cbn [parseCsvFrom countChar]. rewrite Ed.
    destruct (Ascii.eqb ch comma) eqn:Ec; cbn [andb negb].
    + apply Ascii.eqb_eq in Ec. subst ch.
      destruct (IH (out ++ [cur]) "") as [Hj Hl]. split.
      * rewrite Hj. rewrite <- app_assoc. cbn [app].
        now rewrite joinComma_snoc.
      * rewrite Hl, length_app. cbn. lia.
    + destruct (IH out (cur ++ String ch "")%string) as [Hj Hl]. split.
      * rewrite Hj. now rewrite string_app_snoc.
      * rewrite Hl. cbn. lia.
Qed.

Lemma plainField_snoc (cur : string) (ch : ascii) :
  plainField cur = true -> Ascii.eqb ch dquote = false ->
  Ascii.eqb ch comma = false ->
  plainField (cur ++ String ch "") = true.
Proof.
  intros Hcur Hq Hc. induction cur as [|c cur IH]; cbn.
  - now rewrite Hq, Hc.
  - cbn in Hcur. apply andb_prop in Hcur. destruct Hcur as [-> Hcur].
    now rewrite IH.
Qed.

Lemma parseCsvFrom_unquoted_plain (line : string) :
  hasChar dquote line = false ->
  forall out cur,
    Forall (fun f => plainField f = true) out -> plainField cur = true ->
    Forall (fun f => plainField f = true) (parseCsvFrom line out cur false).
Proof.
  unfold hasChar. rewrite negb_false_iff, Nat.eqb_eq.
  induction line as [|ch line IH]; intros Hq out cur Hout Hcur.
  - cbn. apply Forall_app. split; [exact Hout | now constructor].
  - cbn [countChar] in Hq.
    destruct (Ascii.eqb ch dquote) eqn:Ed; [discriminate |].
    cbn [Nat.add] in Hq. specialize (IH Hq).
    cbn [parseCsvFrom]. rewrite Ed.
    destruct (Ascii.eqb ch comma) eqn:Ec; cbn [andb negb].
    + apply IH; [|reflexivity].
      apply Forall_app. split; [exact Hout | now constructor].
    + apply IH; [exact Hout | now apply plainField_snoc].
Qed.

(** X2.  On a line that holds no double quote the parser is a split at the
    commas: joining the fields with commas gives the line back, there is one
    field more than there are commas, and no field holds a comma. *)
Theorem parseCsvLine_unquoted_line (line : string) :
  hasChar dquote line = false ->
  joinComma (parseCsvLine line) = line /\
  List.length (parseCsvLine line) = S (countChar comma line) /\
  Forall (fun f => plainField f = true) (parseCsvLine line).
Proof.
  intros Hq. unfold parseCsvLine.
  destruct (parseCsvFrom_unquoted line Hq [] "") as [Hj Hl].
  split; [exact Hj |]. split; [exact Hl |].
  apply parseCsvFrom_unquoted_plain; [exact Hq | constructor | reflexivity].
Qed.

Lemma parseCsvLine_unquoted_line_witness :
  hasChar dquote "S1,State and Lake,41.88,,0" = false /\
  joinComma (parseCsvLine "S1,State and Lake,41.88,,0")
    = "S1,State and Lake,41.88,,0" /\
  List.length (parseCsvLine "S1,State and Lake,41.88,,0") = 5%nat.
Proof.
  split; [reflexivity |].
  destruct (parseCsvLine_unquoted_line "S1,State and Lake,41.88,,0" eq_refl)
    as (Hj & Hl & _).
  split; [exact Hj | exact Hl].
Defined.

(** The loop adds at least the field it is reading and at most one field
    per comma that is left. *)
Lemma parseCsvFrom_count (n : nat) :
  forall line out cur q,
    (String.length line <= n)%nat ->
    (List.length out + 1 <= List.length (parseCsvFrom line out cur q)
     <= List.length out + 1 + countChar comma line)%nat.
Proof.
  induction n as [|n IH]; intros line out cur q Hn.
  - destruct line; [|cbn in Hn; lia]. cbn. rewrite length_app. cbn. lia.
  - destruct line as [|ch rest]; [cbn; rewrite length_app; cbn; lia |].
    cbn [String.length] in Hn. cbn [parseCsvFrom countChar].
    destruct (Ascii.eqb ch dquote) eqn:Ed.
    + assert (Ec : Ascii.eqb ch comma = false).
      { apply Ascii.eqb_eq in Ed. subst ch. reflexivity. }
      rewrite Ec. cbn [Nat.add].
      destruct rest as [|next rest'].
      * apply IH. cbn. lia.
      * destruct (q && Ascii.eqb next dquote) eqn:Eq.
        -- apply andb_prop in Eq. destruct Eq as [_ Eq].
           apply Ascii.eqb_eq in Eq. subst next.
           specialize (IH rest' out (cur ++ String dquote "")%string q).
           cbn [String.length] in Hn. cbn [countChar].
           replace (Ascii.eqb dquote comma) with false by reflexivity.
           cbn [Nat.add]. apply IH. lia.
        -- apply IH. lia.
    + destruct (Ascii.eqb ch comma) eqn:Ec; cbn [andb].
      * destruct q; cbn [negb].
        -- specialize (IH rest out (cur ++ String ch "")%string true). lia.
        -- specialize (IH rest (out ++ [cur]) "" false).
           rewrite length_app in IH. cbn [List.length] in IH. lia.
      * cbn [Nat.add]. apply IH. lia.
Qed.

(** X3.  Every line parses to at least one field, the empty line to one
    empty field, and to at most one field more than it has commas. *)
Theorem parseCsvLine_field_count (line : string) :
  (1 <= List.length (parseCsvLine line) <= S (countChar comma line))%nat /\
  parseCsvLine "" = [""].
Proof.
  split; [|reflexivity].
  pose proof (parseCsvFrom_count (String.length line) line [] "" false (le_n _)) as H.
  cbn [List.length] in H. unfold parseCsvLine. lia.
Qed.

(** After written fields and a comma the loop starts afresh. *)
Lemma parseCsvFrom_written_then (f : bool * string) (fs : list (bool * string))
    (tail : string) (out : list string) :
  parseCsvFrom (joinComma (map writeField (f :: fs)) ++ String comma tail) out "" false =
  parseCsvFrom tail (out ++ map snd (f :: fs)) "" false.
Proof.
  revert f out. induction fs as [|g fs IH]; intros f out.
  - cbn [map joinComma].
    rewrite parseCsvFrom_writeField by (right; eauto). reflexivity.
  - change (joinComma (map writeField (f :: g :: fs)))
      with (writeField f ++ String comma (joinComma (map writeField (g :: fs))))%string.
    rewrite string_app_assoc.
    change (String comma (joinComma (map writeField (g :: fs))) ++ String comma tail)%string
      with (String comma (joinComma (map writeField (g :: fs)) ++ String comma tail))%string.
    rewrite parseCsvFrom_writeField by (right; eauto).
    change (parseCsvFrom
              (String comma (joinComma (map writeField (g :: fs)) ++ String comma tail))
              out (snd f) false)
      with (parseCsvFrom (joinComma (map writeField (g :: fs)) ++ String comma tail)
              (out ++ [snd f]) "" false).
    rewrite IH. now rewrite <- app_assoc.
Qed.

(** Inside quotes, text without a double quote is copied to the end of the
    line, commas included. *)
Lemma parseCsvFrom_open_quote (s : string) :
  hasChar dquote s = false ->
  forall out cur, parseCsvFrom s out cur true = out ++ [(cur ++ s)%string].
Proof.
  unfold hasChar. rewrite negb_false_iff, Nat.eqb_eq.
  induction s as [|ch s IH]; intros Hq out cur.
  - cbn. now rewrite string_app_empty_r.
  - cbn [countChar] in Hq.
    destruct (Ascii.eqb ch dquote) eqn:Ed; [discriminate |].
    cbn [Nat.add] in Hq. cbn [parseCsvFrom]. rewrite Ed.
    rewrite andb_false_r. rewrite IH by exact Hq.
    now rewrite string_app_snoc.
Qed.

(** X4.  A quote that is opened and never closed does not fail the parse:
    after any written fields, the text behind the opening quote becomes one
    last field up to the end of the line, its commas included. *)
Theorem parseCsvLine_unterminated_quote (fs : list (bool * string)) (s : string) :
  hasChar dquote s = false ->
  parseCsvLine (String dquote s) = [s] /\
  (forall f,
      parseCsvLine (joinComma (map writeField (f :: fs))
                      ++ String comma (String dquote s))
      = map snd (f :: fs) ++ [s]).
Proof.
  intros Hq.
  assert (Hopen : forall out,
             parseCsvFrom (String dquote s) out "" false = out ++ [s]).
  { intros out. destruct s as [|c s'].
    - reflexivity.
    - change (parseCsvFrom (String dquote (String c s')) out "" false)
        with (parseCsvFrom (String c s') out "" true).
      now rewrite parseCsvFrom_open_quote. }
  split; [apply (Hopen []) |].
  intros f. unfold parseCsvLine.
  rewrite parseCsvFrom_written_then. apply Hopen.
Qed.

Lemma parseCsvLine_unterminated_quote_witness :
  hasChar dquote "Lake, State" = false /\
  parseCsvLine (String dquote "Lake, State") = ["Lake, State"].
Proof.
  split; [reflexivity |].
  exact (proj1 (parseCsvLine_unterminated_quote [] "Lake, State" eq_refl)).
Defined.

(* ================================================================= *)
(** ** Reading the archive: line ends *)

Lemma lineEndFree_cons (ch : ascii) (l : string) :
  lineEndFree (String ch l) = true ->
  Ascii.eqb ch "010"%char = false /\ Ascii.eqb ch "013"%char = false /\
  lineEndFree l = true.
Proof.
  unfold lineEndFree, hasChar. cbn [countChar].
  destruct (Ascii.eqb ch "010"%char), (Ascii.eqb ch "013"%char); cbn;
    try discriminate; try (rewrite andb_false_r; discriminate).
  auto.
Qed.

(** A line and its line end: the loop closes the piece it is reading. *)
Lemma splitLinesFrom_line (sep l rest : string) :
  sep = LF \/ sep = CRLF -> lineEndFree l = true ->
  forall cur,
    splitLinesFrom (l ++ sep ++ rest) cur = (cur ++ l)%string :: splitLinesFrom rest "".
Proof.
  intros Hsep. induction l as [|ch l IH]; intros Hl cur.
  - rewrite string_app_empty_r. destruct Hsep as [-> | ->]; reflexivity.
  - apply lineEndFree_cons in Hl. destruct Hl as (Hlf & Hcr & Hl).
    change (String ch l ++ sep ++ rest)%string
      with (String ch (l ++ sep ++ rest)%string).
    cbn [splitLinesFrom]. rewrite Hlf, Hcr.
    rewrite IH by exact Hl. now rewrite string_app_snoc.
Qed.

Lemma splitLines_linesWith (sep : string) (ls : list string) :
  sep = LF \/ sep = CRLF ->
  Forall (fun l => lineEndFree l = true) ls ->
  splitLines (linesWith sep ls) = ls ++ [""].
Proof.
  intros Hsep Hls. unfold splitLines.
  induction Hls as [|l ls Hl Hls IH]; [reflexivity |].
  cbn [linesWith]. rewrite splitLinesFrom_line by assumption.
  cbn [app String.append]. now rewrite IH.
Qed.

(** X5.  An entry whose lines end in line feeds and the same entry with
    carriage return and line feed at every line end are read as the same
    list of lines: the lines that were written, in order, without the blank
    ones, and without the empty piece behind the last line end. *)
Theorem readZipEntryToLines_line_ends (d : Disk) (z : Zip)
    (files : list (string * string)) (filename sep : string) (ls : list string) :
  zipFile d = Some z -> zip_entries z = Some files ->
  sep = LF \/ sep = CRLF ->
  Forall (fun l => lineEndFree l = true) ls ->
  findEntry filename files = Some (linesWith sep ls) ->
  readZipEntryToLines d filename = Ok (filter (fun l => negb (isBlank l)) ls).
Proof.
  intros Hz Hfiles Hsep Hls Hentry.
  unfold readZipEntryToLines. rewrite Hz, Hfiles, Hentry.
  rewrite splitLines_linesWith by assumption.
  rewrite filter_app. cbn [filter isBlank blankFrom negb]. now rewrite app_nil_r.
Qed.

Lemma readZipEntryToLines_line_ends_witness :
  readZipEntryToLines
    {| zipFile := Some {| zip_length := 64;
                          zip_entries := Some
                            [("stop_times.txt",
                              linesWith CRLF ["trip_id,stop_id"; "  "; "trip1,S1"])] |};
       metaFile := None |}
    "stop_times.txt"
  = Ok ["trip_id,stop_id"; "trip1,S1"].
Proof.
  eapply readZipEntryToLines_line_ends
    with (sep := CRLF) (ls := ["trip_id,stop_id"; "  "; "trip1,S1"]).
  - reflexivity.
  - reflexivity.
  - now right.
  - repeat constructor.
  - reflexivity.
Defined.

(* ================================================================= *)
(** ** Snapshot cache: what a call leaves behind *)

(** X6.  A call of [downloadZipIfNeeded] that fails has called [fetchFn]
    once and leaves both cache files as they were; the failure carries the
    status of a response that was not ok, or is the rejection of the fetch
    or of its body.  A call that succeeds leaves an archive on disk: either
    nothing was fetched and nothing written, or the body fetched is the new
    archive, the snapshot carries the time of the download, and the sidecar
    is rewritten when it can be written and left as it was when not. *)
Theorem downloadZipIfNeeded_outcome (now : Z) (a : Arrival) (d : Disk) :
  match downloadZipIfNeeded now a d with
  | (d', fetched, Err e) =>
      d' = d /\ fetched = [GTFS_URL] /\
      (e = FetchRejected \/
       exists status body,
         outcome a = FetchResponse false status body /\ e = DownloadFailed status)
  | (d', fetched, Ok s) =>
      zipPath s = ZIP_PATH /\ existsZip d' = true /\
      ((fetched = [] /\ d' = d /\ metaFresh now (readMeta d) = true) \/
       (fetched = [GTFS_URL] /\
        exists status buf,
          outcome a = FetchResponse true status (Some buf) /\
          zipFile d' = Some buf /\
          updatedAt s = Some (isoNow a) /\
          metaFile d' =
            if metaWritable a
            then Some {| downloadedAt := Some (nowMs a);
                         meta_updatedAt := Some (isoNow a);
                         url := GTFS_URL;
                         bytes := zip_length buf |}
            else metaFile d))
  end.
Proof.
  unfold downloadZipIfNeeded, downloadStart.
  destruct (metaFresh now (readMeta d) && existsZip d) eqn:Efresh.
  - apply andb_prop in Efresh. destruct Efresh as [Hm Hz].
    split; [reflexivity |]. split; [exact Hz |]. left. auto.
  - unfold downloadResume.
    destruct (outcome a) as [|ok status body] eqn:Eo.
    + split; [reflexivity |]. split; [reflexivity |]. now left.
    + destruct ok; cbn [negb].
      * destruct body as [buf|].
        -- split; [reflexivity |]. split.
           ++ unfold writeMeta, existsZip. now destruct (metaWritable a).
           ++ right. split; [reflexivity |]. exists status, buf.
              split; [reflexivity |].
              unfold writeMeta. destruct (metaWritable a); cbn; auto.
        -- split; [reflexivity |]. split; [reflexivity |]. now left.
      * split; [reflexivity |]. split; [reflexivity |]. right. eauto.
Qed.

(** X7.  Download, then call again: after a call that fetched the archive
    and could write the sidecar, a second call less than 24 hours after the
    download fetches nothing, leaves the disk alone and returns the same
    snapshot; from 24 hours on it fetches again. *)
Theorem download_then_reuse (now now' : Z) (a a' : Arrival) (d d' : Disk)
    (s : Snapshot) :
  downloadZipIfNeeded now a d = (d', [GTFS_URL], Ok s) ->
  metaWritable a = true -> nowMs a <> 0%Z -> isoNow a <> "" ->
  ((now' - nowMs a < ZIP_TTL_MS)%Z ->
   downloadZipIfNeeded now' a' d' = (d', [], Ok s)) /\
  ((ZIP_TTL_MS <= now' - nowMs a)%Z ->
   exists d'' r, downloadZipIfNeeded now' a' d' = (d'', [GTFS_URL], r)).
Proof.
  intros Hfirst Hw Hnz Hiso.
  assert (Hres : downloadResume a d = (d', Ok s)).
  { unfold downloadZipIfNeeded in Hfirst.
    destruct (downloadStart now d); [discriminate |].
    destruct (downloadResume a d) as [d1 r1].
    injection Hfirst as -> _ ->. reflexivity. }
  assert (Hs : s = {| zipPath := ZIP_PATH; updatedAt := Some (isoNow a) |} /\
               metaFile d' = Some {| downloadedAt := Some (nowMs a);
                                     meta_updatedAt := Some (isoNow a);
                                     url := GTFS_URL;
                                     bytes := match zipFile d' with
                                              | Some z => zip_length z
                                              | None => 0%Z
                                              end |}).
  { unfold downloadResume in Hres.
    destruct (outcome a) as [|ok status [buf|]]; try discriminate;
      destruct (negb ok); try discriminate.
    unfold writeMeta in Hres. rewrite Hw in Hres.
    injection Hres as <- <-. split; reflexivity. }
  destruct Hs as [Hs Hmeta]. split.
  - intros Hfresh.
    rewrite (downloaded_snapshot_is_reused a a' d d' s now' Hres Hw Hnz Hfresh).
    rewrite Hs. cbn [updatedAt]. rewrite orNull_id; [reflexivity |].
    intros [= E]. now apply Hiso.
  - intros Hold. apply downloadZipIfNeeded_fetches_once.
    eapply downloadStart_expired; [exact Hmeta | reflexivity | exact Hold].
Qed.

Lemma download_then_reuse_witness :
  downloadZipIfNeeded (T0 + 3600000)
      (arrival FetchThrows (T0 + 3600001))
      {| zipFile := Some minimalZip;
         metaFile := Some {| downloadedAt := Some T0;
                             meta_updatedAt := Some "2026-03-02T12:00:00.001Z";
                             url := GTFS_URL;
                             bytes := 4096 |} |}
  = ({| zipFile := Some minimalZip;
        metaFile := Some {| downloadedAt := Some T0;
                            meta_updatedAt := Some "2026-03-02T12:00:00.001Z";
                            url := GTFS_URL;
                            bytes := 4096 |} |},
     [],
     Ok {| zipPath := ZIP_PATH; updatedAt := Some "2026-03-02T12:00:00.001Z" |}).
Proof.
  refine (proj1 (download_then_reuse (T0 - 5) (T0 + 3600000)
                   (arrival (FetchResponse true 200 (Some minimalZip)) T0)
                   (arrival FetchThrows (T0 + 3600001))
                   emptyDisk _ _ eq_refl eq_refl _ _) _).
  - discriminate.
  - discriminate.
  - reflexivity.
Defined.

(* ================================================================= *)
(** ** Index builder: when a build fails, and what a built index holds *)

Lemma filter_nil_existsb {A : Type} (p : A -> bool) (l : list A) :
  filter p l = [] <-> existsb p l = false.
Proof.
  induction l as [|x l IH]; cbn; [tauto |].
  destruct (p x); cbn; [split; discriminate | exact IH].
Qed.

Lemma readZipEntryToLines_files (d : Disk) (files : list (string * string))
    (name : string) :
  archiveFiles d = Some files ->
  readZipEntryToLines d name =
    match findEntry name files with
    | Some text => Ok (filter (fun l => negb (isBlank l)) (splitLines text))
    | None => Err (MissingEntry name)
    end.
Proof.
  unfold archiveFiles, readZipEntryToLines.
  destruct (zipFile d) as [z|]; [|discriminate]. now intros ->.
Qed.

Lemma splitHeader_ok (files : list (string * string)) (name text : string) :
  findEntry name files = Some text ->
  (exists hr, splitHeader (filter (fun l => negb (isBlank l)) (splitLines text)) = Ok hr)
    /\ hasHeader files name = true
  \/ splitHeader (filter (fun l => negb (isBlank l)) (splitLines text)) = Err NoHeaderLine
    /\ hasHeader files name = false.
Proof.
  intros Hentry. unfold hasHeader. rewrite Hentry.
  destruct (filter (fun l => negb (isBlank l)) (splitLines text)) as [|h rows] eqn:E.
  - right. split; [reflexivity | now apply filter_nil_existsb].
  - left. split; [cbn; eauto |].
    destruct (existsb (fun l => negb (isBlank l)) (splitLines text)) eqn:Ex;
      [reflexivity |].
    apply filter_nil_existsb in Ex. congruence.
Qed.

(** X8.  A build from a snapshot succeeds exactly when the archive opens
    and each of [routes.txt], [trips.txt], [stops.txt] and [stop_times.txt]
    is in it with at least one line that is not blank; no data row makes it
    fail.  It fails with the name of the first table that is missing, in
    this order and before any table is parsed, and with the parse failure of
    a missing header only when all four entries are there.  A built index
    carries the snapshot's [updatedAt]. *)
Theorem indexFromSnapshot_outcome (Number : string -> jsnum) (d : Disk)
    (s : Snapshot) :
  match indexFromSnapshot Number d s with
  | Ok idx =>
      exists files,
        archiveFiles d = Some files /\
        forallb (hasHeader files) TABLES = true /\
        idx_updatedAt idx = updatedAt s
  | Err ArchiveUnreadable => archiveFiles d = None
  | Err (MissingEntry name) =>
      exists files,
        archiveFiles d = Some files /\ firstMissing files TABLES = Some name
  | Err NoHeaderLine =>
      exists files,
        archiveFiles d = Some files /\ firstMissing files TABLES = None /\
        forallb (hasHeader files) TABLES = false
  | Err _ => False
  end.
Proof.
  destruct (archiveFiles d) as [files|] eqn:Hfiles.
  - unfold indexFromSnapshot.
    rewrite !(readZipEntryToLines_files d files _ Hfiles).
    destruct (findEntry "routes.txt" files) as [t1|] eqn:E1; cbn [bind];
      [|exists files; cbn; rewrite E1; auto].
    destruct (findEntry "trips.txt" files) as [t2|] eqn:E2; cbn [bind];
      [|exists files; cbn; rewrite E1, E2; auto].
    destruct (findEntry "stops.txt" files) as [t3|] eqn:E3; cbn [bind];
      [|exists files; cbn; rewrite E1, E2, E3; auto].
    destruct (findEntry "stop_times.txt" files) as [t4|] eqn:E4; cbn [bind];
      [|exists files; cbn; rewrite E1, E2, E3, E4; auto].
    assert (Hnone : firstMissing files TABLES = None)
      by (cbn; now rewrite E1, E2, E3, E4).
    unfold buildRouteById, buildTripToRoute, buildStopById, buildStopToRoutes.
    destruct (splitHeader_ok files _ _ E1) as [[[hr1 Hs1] Hh1] | [Hs1 Hh1]];
      rewrite Hs1; cbn [bind];
      [|exists files; cbn [TABLES forallb]; rewrite Hh1; auto].
    destruct (splitHeader_ok files _ _ E2) as [[[hr2 Hs2] Hh2] | [Hs2 Hh2]];
      rewrite Hs2; cbn [bind];
      [|exists files; cbn [TABLES forallb]; rewrite Hh1, Hh2; auto].
    destruct (splitHeader_ok files _ _ E3) as [[[hr3 Hs3] Hh3] | [Hs3 Hh3]];
      rewrite Hs3; cbn [bind];
      [|exists files; cbn [TABLES forallb]; rewrite Hh1, Hh2, Hh3; auto].
    destruct (splitHeader_ok files _ _ E4) as [[[hr4 Hs4] Hh4] | [Hs4 Hh4]];
      rewrite Hs4; cbn [bind];
      [|exists files; cbn [TABLES forallb]; rewrite Hh1, Hh2, Hh3, Hh4; auto].
    exists files. cbn [TABLES forallb idx_updatedAt]. rewrite Hh1, Hh2, Hh3, Hh4. auto.
  - unfold indexFromSnapshot, readZipEntryToLines.
    unfold archiveFiles in Hfiles.
    destruct (zipFile d) as [z|]; [rewrite Hfiles |]; reflexivity.
Qed.

Lemma keys_set {V : Type} (k : string) (v : V) (m : JsMap.t V) :
  JsMap.keys (JsMap.set k v m) =
  if JsMap.has k m then JsMap.keys m else JsMap.keys m ++ [k].
Proof.
  unfold JsMap.keys, JsMap.has.
  induction m as [|[k' v'] m IH]; cbn; [reflexivity |].
  destruct (String.eqb k k') eqn:E; cbn; [reflexivity |].
  rewrite IH. now destruct (JsMap.get k m).
Qed.

Lemma NoDup_keys_set {V : Type} (k : string) (v : V) (m : JsMap.t V) :
  NoDup (JsMap.keys m) -> NoDup (JsMap.keys (JsMap.set k v m)).
Proof.
  intros Hm. rewrite keys_set. destruct (JsMap.has k m) eqn:E; [exact Hm |].
  assert (Hk : ~ In k (JsMap.keys m)).
  { intros Hin. apply JsMapFacts.has_keys in Hin. congruence. }
  apply NoDup_rev in Hm. rewrite <- (rev_involutive (JsMap.keys m ++ [k])).
  apply NoDup_rev. rewrite rev_app_distr. cbn. constructor; [|exact Hm].
  now rewrite <- in_rev.
Qed.

(** A loop over the rows keeps what every row keeps. *)
Lemma fold_left_keeps {A B : Type} (P : A -> Prop) (f : A -> B -> A)
    (rows : list B) :
  (forall a b, P a -> P (f a b)) -> forall a, P a -> P (fold_left f rows a).
Proof.
  intros Hf. induction rows as [|b rows IH]; intros a Ha; cbn; [exact Ha |].
  apply IH, Hf, Ha.
Qed.

Lemma truthy_nonempty (s : string) : truthy (Some s) = true -> s <> "".
Proof. destruct s; [discriminate | discriminate]. Qed.

Section BuiltTables.

Variable Number : string -> jsnum.

Lemma stopStep_keeps (hdr : string -> option nat) (m : JsMap.t Stop)
    (line : string) :
  NoDup (JsMap.keys m) /\ stopsKeyed m ->
  NoDup (JsMap.keys (stopStep Number hdr m line)) /\
  stopsKeyed (stopStep Number hdr m line).
Proof.
  intros [Hnd Hkeyed]. unfold stopStep.
  destruct (cell (parseCsvLine line) (hdr "stop_id")) as [s|]; [|now split].
  destruct (cell (parseCsvLine line) (hdr "stop_name")) as [n|]; [|now split].
  destruct (numberOfCell Number (cell (parseCsvLine line) (hdr "stop_lat")));
    try (now split).
  destruct (numberOfCell Number (cell (parseCsvLine line) (hdr "stop_lon")));
    try (now split).
  destruct (truthy (Some s)) eqn:Es; cbn [negb orb]; [|now split].
  destruct (truthy (Some n)) eqn:En; cbn [negb orb]; [|now split].
  split; [now apply NoDup_keys_set |].
  intros k v Hin. apply JsMapFacts.In_set in Hin.
  destruct Hin as [[-> ->] | Hin]; [|now apply Hkeyed].
  cbn. split; [reflexivity |]. split; now apply truthy_nonempty.
Qed.

Lemma routeStep_keeps (hdr : string -> option nat) (m : JsMap.t Route)
    (line : string) :
  NoDup (JsMap.keys m) /\ routesNamed m ->
  NoDup (JsMap.keys (routeStep Number hdr m line)) /\
  routesNamed (routeStep Number hdr m line).
Proof.
  intros [Hnd Hnamed]. unfold routeStep.
  destruct (cell (parseCsvLine line) (hdr "route_id")) as [r|]; [|now split].
  destruct (truthy (Some r)) eqn:Er; cbn [negb]; [|now split].
  split; [now apply NoDup_keys_set |].
  intros k v Hin. apply JsMapFacts.In_set in Hin.
  destruct Hin as [[-> ->] | Hin]; [|now apply Hnamed].
  cbn. split; [reflexivity | now apply truthy_nonempty].
Qed.

End BuiltTables.

Lemma rowStopRoute_nonempty (hdr : string -> option nat)
    (tripToRoute : JsMap.t string) (line s r : string) :
  rowStopRoute hdr tripToRoute line = Some (s, r) -> s <> "" /\ r <> "".
Proof.
  unfold rowStopRoute.
  destruct (cell (parseCsvLine line) (hdr "trip_id")) as [t|];
    destruct (cell (parseCsvLine line) (hdr "stop_id")) as [s'|];
    try (destruct (truthy _); discriminate); try discriminate.
  destruct (truthy (Some t)); cbn [andb]; [|discriminate].
  destruct (truthy (Some s')) eqn:Es; [|discriminate].
  destruct (JsMap.get t tripToRoute) as [r'|]; [|discriminate].
  destruct (truthy (Some r')) eqn:Er; [|discriminate].
  intros [= <- <-]. split; now apply truthy_nonempty.
Qed.

Lemma addCapped_filled (set : JsSet.t) (r : string) :
  r <> "" -> NoDup set -> (List.length set <= 12)%nat -> ~ In "" set ->
  addCapped set r <> [] /\ NoDup (addCapped set r) /\
  (List.length (addCapped set r) <= 12)%nat /\ ~ In "" (addCapped set r).
Proof.
  intros Hr Hnd Hlen Hne. unfold addCapped, JsSet.size.
  destruct (Nat.ltb_spec (List.length set) 12) as [Hlt | Hge].
  - split; [|split; [|split]].
    + unfold JsSet.add. destruct (JsSet.has r set) eqn:E.
      * apply JsSetFacts.has_In in E. now destruct set.
      * now destruct set.
    + now apply JsSetFacts.NoDup_add.
    + unfold JsSet.add. destruct (JsSet.has r set); [lia |].
      rewrite length_app. cbn. lia.
    + intros Hin. apply JsSetFacts.In_add in Hin.
      destruct Hin as [E | Hin]; [now apply Hr | now apply Hne].
  - split; [|auto]. destruct set; [cbn in Hge; lia | discriminate].
Qed.

Lemma stopTimeStep_keeps (hdr : string -> option nat)
    (tripToRoute : JsMap.t string) (m : JsMap.t JsSet.t) (line : string) :
  NoDup (JsMap.keys m) /\ routeSetsFilled m ->
  NoDup (JsMap.keys (stopTimeStep hdr tripToRoute m line)) /\
  routeSetsFilled (stopTimeStep hdr tripToRoute m line).
Proof.
  intros [Hnd Hfilled]. rewrite stopTimeStep_rowStopRoute.
  destruct (rowStopRoute hdr tripToRoute line) as [[s r]|] eqn:Erow; [|now split].
  apply rowStopRoute_nonempty in Erow. destruct Erow as [Hs Hr].
  split; [now apply NoDup_keys_set |].
  intros k set Hin. apply JsMapFacts.In_set in Hin.
  destruct Hin as [[-> ->] | Hin]; [|now apply Hfilled].
  split; [exact Hs |].
  unfold setOf. destruct (JsMap.get s m) as [set0|] eqn:Eget.
  - apply JsMapFacts.get_In, Hfilled in Eget.
    destruct Eget as (_ & _ & Hnd0 & Hlen0 & Hne0).
    now apply addCapped_filled.
  - apply addCapped_filled; [exact Hr | constructor | cbn; lia | intros []].
Qed.

(** The stop table of a built index: one entry for an id, under that id. *)
Lemma built_stops_kept (Number : string -> jsnum) (d : Disk) (s : Snapshot)
    (idx : Index) :
  indexFromSnapshot Number d s = Ok idx ->
  NoDup (JsMap.keys (stopById idx)) /\ stopsKeyed (stopById idx).
Proof.
  intros Hbuilt.
  destruct (indexFromSnapshot_tables Number d s idx Hbuilt)
    as (rl & tl & sl & stl & tripToRoute & _ & _ & _ & _ & _ & _ & Hs & _ & _).
  unfold buildStopById in Hs. destruct (splitHeader sl) as [hr|]; [|discriminate].
  injection Hs as <-.
  apply (fold_left_keeps (fun m => NoDup (JsMap.keys m) /\ stopsKeyed m)).
  - intros m line. apply stopStep_keeps.
  - split; [constructor | intros k v []].
Qed.

(** X9.  In a built index every stop is stored once, under its own id, and
    has a non-empty id and name; every route is stored once, under its own
    non-empty id; and every stop of the stop-to-routes table is there once,
    with a set that is not empty, repeats no route, holds at most 12 routes
    and no empty id. *)
Theorem built_index_tables (Number : string -> jsnum) (d : Disk) (s : Snapshot)
    (idx : Index) :
  indexFromSnapshot Number d s = Ok idx ->
  (NoDup (JsMap.keys (stopById idx)) /\ stopsKeyed (stopById idx)) /\
  (NoDup (JsMap.keys (routeById idx)) /\ routesNamed (routeById idx)) /\
  (NoDup (JsMap.keys (stopToRoutes idx)) /\ routeSetsFilled (stopToRoutes idx)).
Proof.
  intros Hbuilt.
  destruct (indexFromSnapshot_tables Number d s idx Hbuilt)
    as (rl & tl & sl & stl & tripToRoute & _ & _ & _ & _ & Hr & _ & _ & Hst & _).
  split; [now apply (built_stops_kept Number d s) | split].
  - unfold buildRouteById in Hr. destruct (splitHeader rl) as [hr|]; [|discriminate].
    injection Hr as <-.
    apply (fold_left_keeps (fun m => NoDup (JsMap.keys m) /\ routesNamed m)).
    + intros m line. apply routeStep_keeps.
    + split; [constructor | intros k v []].
  - unfold buildStopToRoutes in Hst.
    destruct (splitHeader stl) as [hr|]; [|discriminate].
    injection Hst as <-.
    apply (fold_left_keeps (fun m => NoDup (JsMap.keys m) /\ routeSetsFilled m)).
    + intros m line. apply stopTimeStep_keeps.
    + split; [constructor | intros k v []].
Qed.

Lemma built_index_tables_witness :
  (NoDup (JsMap.keys (stopById danglingIndex)) /\ stopsKeyed (stopById danglingIndex)) /\
  (NoDup (JsMap.keys (routeById danglingIndex)) /\
   routesNamed (routeById danglingIndex)) /\
  (NoDup (JsMap.keys (stopToRoutes danglingIndex)) /\
   routeSetsFilled (stopToRoutes danglingIndex)).
Proof.
  exact (built_index_tables fixtureNumber (diskWith danglingZip T0) fixtureSnapshot
           danglingIndex eq_refl).
Defined.

Lemma headerIndexFrom_bound (cols : list string) (name : string) :
  forall i j, headerIndexFrom i cols name = Some j ->
              (i <= j)%nat /\ In name cols.
Proof.
  induction cols as [|c cols IH]; intros i j; cbn; [discriminate |].
  destruct (headerIndexFrom (S i) cols name) as [j'|] eqn:E.
  - intros [= <-]. apply IH in E. destruct E as [Hle Hin]. split; [lia | now right].
  - destruct (String.eqb_spec c name); [|discriminate].
    intros [= <-]. split; [lia | now left].
Qed.

Lemma cell_headerIndexFrom (cols : list string) (name : string) :
  NoDup cols ->
  forall vals pre,
    cell (pre ++ vals) (headerIndexFrom (List.length pre) cols name) =
    JsMap.get name (combine cols vals).
Proof.
  induction 1 as [|c cols Hc Hnd IH]; intros vals pre; [reflexivity |].
  cbn [headerIndexFrom].
  destruct (headerIndexFrom (S (List.length pre)) cols name) as [j|] eqn:E.
  - destruct (headerIndexFrom_bound _ _ _ _ E) as [Hle Hin].
    assert (Hne : String.eqb name c = false).
    { apply String.eqb_neq. intros ->. contradiction. }
    destruct vals as [|v vals].
    + cbn [combine JsMap.get cell]. rewrite app_nil_r.
      apply nth_error_None. lia.
    + cbn [combine JsMap.get]. rewrite Hne.
      rewrite <- (IH vals (pre ++ [v])).
      rewrite length_app, Nat.add_1_r, E. now rewrite <- app_assoc.
  - destruct vals as [|v vals].
    + cbn [combine JsMap.get]. rewrite app_nil_r.
      destruct (String.eqb c name); [|reflexivity].
      cbn [cell]. apply nth_error_None. lia.
    + assert (Hrest : JsMap.get name (combine cols vals) = None).
      { rewrite <- (IH vals (pre ++ [v])).
        rewrite length_app, Nat.add_1_r, E. reflexivity. }
      cbn [combine JsMap.get].
      destruct (String.eqb_spec c name) as [-> | Hne].
      * rewrite String.eqb_refl. cbn [cell].
        rewrite nth_error_app2 by lia. now rewrite Nat.sub_diag.
      * destruct (String.eqb_spec name c); [congruence | now rewrite Hrest].
Qed.

(** X10.  The cells of a row are found by the name of their column, not by
    its position: under a header of distinct names, the cell read for a name
    is the value that stands in the row where the name stands in the header,
    and is undefined when the header has no such name or the row is too
    short. *)
Theorem cell_by_column_name (cols vals : list string) (name : string) :
  NoDup cols ->
  cell vals (headerIndex cols name) = JsMap.get name (combine cols vals).
Proof.
  intros Hnd. exact (cell_headerIndexFrom cols name Hnd vals []).
Qed.

Lemma cell_by_column_name_witness :
  cell ["trip1"; "S1"] (headerIndex ["trip_id"; "stop_id"] "stop_id") = Some "S1" /\
  cell ["S1"; "trip1"] (headerIndex ["stop_id"; "trip_id"] "stop_id") = Some "S1" /\
  cell ["trip1"] (headerIndex ["trip_id"; "stop_id"] "stop_id") = None.
Proof.
  assert (Hnd : forall a b : string, a <> b -> NoDup [a; b]).
  { intros a b Hab. constructor; [intros [E | []]; now apply Hab |].
    constructor; [intros [] | constructor]. }
  split; [|split].
  - rewrite (cell_by_column_name ["trip_id"; "stop_id"] ["trip1"; "S1"] "stop_id");
      [reflexivity | apply Hnd; discriminate].
  - rewrite (cell_by_column_name ["stop_id"; "trip_id"] ["S1"; "trip1"] "stop_id");
      [reflexivity | apply Hnd; discriminate].
  - rewrite (cell_by_column_name ["trip_id"; "stop_id"] ["trip1"] "stop_id");
      [reflexivity | apply Hnd; discriminate].
Defined.

(* ================================================================= *)
(** ** Build coordinator: what every run keeps *)

Section CoordinatorInvariant.

Variable Number : string -> jsnum.

Lemma initialWorld_coherent (d : Disk) : coherent (initialWorld d).
Proof.
  unfold coherent, oneBuildAtATime, settledInOrder, fetchesBounded, cacheFromBuild.
  cbn. repeat split; auto.
Qed.

Lemma startBuild_coherent (nowDl : Z) (w : World) :
  inFlight w = None -> coherent w -> coherent (startBuild nowDl w).
Proof.
  intros Hnone ((Hidle & Hnext) & Hord & (Hlen & Hurl) & Hcache).
  rewrite Hnone in Hnext. apply proj1 in Hidle. specialize (Hidle Hnone).
  destruct (startBuild_facts nowDl w) as (Hfl & Hn & Hlog & Hc & Hat & _ & Hset).
  assert (Hph : phase (startBuild nowDl w) <> Idle).
  { unfold startBuild. destruct (downloadStart nowDl (disk w)); discriminate. }
  unfold coherent, oneBuildAtATime, settledInOrder, fetchesBounded, cacheFromBuild in *.
  rewrite Hfl, Hn, Hlog, Hc, Hat, Hset.
  split; [split; [split; [discriminate | contradiction] | split; [exact Hnext | reflexivity]] |].
  split; [exact Hord |]. split.
  - split.
    + rewrite length_app. pose proof (fetchesOfStart_length nowDl (disk w)). lia.
    + apply Forall_app. split; [exact Hurl |].
      unfold fetchesOfStart, downloadStart.
      destruct (metaFresh nowDl (readMeta (disk w)) && existsZip (disk w));
        repeat constructor.
  - destruct (cache w); [|exact Hcache].
    destruct Hcache as [H | H]; [now left | congruence].
Qed.

(** The events of a running build change the phase, the disk and the
    cache only. *)
Lemma coherent_build_event (w w' : World) :
  inFlight w' = inFlight w -> nextPromise w' = nextPromise w ->
  settledPromises w' = settledPromises w -> fetchLog w' = fetchLog w ->
  phase w <> Idle -> phase w' <> Idle ->
  cacheFromBuild w' -> coherent w -> coherent w'.
Proof.
  intros Hfl Hnext Hset Hlog Hph Hph' Hcache ((Hidle & Hn) & Hord & Hfetch & _).
  unfold coherent, oneBuildAtATime, settledInOrder, fetchesBounded in *.
  rewrite Hfl, Hnext, Hset, Hlog.
  split; [|split; [exact Hord | split; [exact Hfetch | exact Hcache]]].
  split; [|exact Hn].
  split; intros H; [apply Hidle in H | ]; contradiction.
Qed.

Lemma cacheFromBuild_kept (w w' : World) :
  cache w' = cache w -> cacheLoadedAt w' = cacheLoadedAt w ->
  settledPromises w' = settledPromises w ->
  (forall idx, phase w <> ThenDone (Ok idx)) ->
  cacheFromBuild w -> cacheFromBuild w'.
Proof.
  unfold cacheFromBuild. intros -> -> -> Hph H.
  destruct (cache w) as [idx|]; [|exact H].
  destruct H as [H | H]; [now left | now apply Hph in H].
Qed.

Lemma step_coherent (e : Event) (w : World) :
  coherent w -> coherent (fst (step Number e w)).
Proof.
  intros Hw. destruct e as [now nowDl | a | | now |]; cbn [step].
  - unfold getIndex.
    destruct (if cacheFresh now w then cache w else None); [exact Hw |].
    destruct (inFlight w) eqn:Hfl; [exact Hw |].
    now apply startBuild_coherent.
  - cbn [fst]. unfold fetchReturns.
    destruct (phase w) eqn:Hph; try exact Hw.
    destruct (downloadResume a (disk w)) as [d' r].
    apply (coherent_build_event w); cbn; try reflexivity; try exact Hw.
    + rewrite Hph. discriminate.
    + destruct r; discriminate.
    + apply (cacheFromBuild_kept w); try reflexivity; [|apply Hw].
      intros idx. rewrite Hph. discriminate.
  - cbn [fst]. unfold archiveRead.
    destruct (phase w) eqn:Hph; try exact Hw.
    apply (coherent_build_event w); cbn; try reflexivity; try exact Hw.
    + rewrite Hph. discriminate.
    + discriminate.
    + apply (cacheFromBuild_kept w); try reflexivity; [|apply Hw].
      intros idx. rewrite Hph. discriminate.
  - cbn [fst]. unfold runThen.
    destruct (phase w) as [| | s | [idx | err] | r] eqn:Hph; try exact Hw.
    + apply (coherent_build_event w); cbn; try reflexivity; try exact Hw.
      * rewrite Hph. discriminate.
      * discriminate.
      * unfold cacheFromBuild. cbn. now right.
    + apply (coherent_build_event w); cbn; try reflexivity; try exact Hw.
      * rewrite Hph. discriminate.
      * discriminate.
      * apply (cacheFromBuild_kept w); try reflexivity; [|apply Hw].
        intros idx. rewrite Hph. discriminate.
  - cbn [fst]. unfold runFinally.
    destruct (phase w) eqn:Hph; try exact Hw.
    destruct Hw as ((Hidle & Hnext) & Hord & (Hlen & Hurl) & Hcache).
    unfold coherent, oneBuildAtATime, settledInOrder, fetchesBounded, cacheFromBuild in *.
    cbn. rewrite Hph in *.
    destruct (inFlight w) as [p|] eqn:Hfl;
      [|assert (ThenDone r = Idle) by (now apply Hidle); discriminate].
    destruct Hnext as [Hp Hnext]. cbn [List.length map fst].
    split; [split; [tauto | lia] |].
    split; [rewrite seq_S, rev_app_distr; cbn; now rewrite Hord, Hp |].
    split; [split; [lia | exact Hurl] |].
    destruct (cache w); [|exact Hcache].
    destruct Hcache as [[q H] | H].
    + left. exists q. now right.
    + injection H as ->. left. exists p. now left.
Qed.

Lemma run_coherent (es : list Event) :
  forall w, coherent w -> coherent (fst (run Number es w)).
Proof.
  induction es as [|e es IH]; intros w Hw; [exact Hw |].
  cbn [run]. pose proof (step_coherent e w Hw) as H1.
  destruct (step Number e w) as [w1 r]. cbn [fst] in H1.
  specialize (IH w1 H1). destruct (run Number es w1) as [w2 rs]. exact IH.
Qed.

End CoordinatorInvariant.

(** X11.  Whatever calls and build events follow the loading of the module,
    in whatever order: [inFlight] is set exactly while a build runs; the
    promise in flight is the newest one and every older promise has settled,
    each once, in the order in which the builds started; there are never
    more fetches than builds started, and every fetch asks for the feed. *)
Theorem coordinator_bookkeeping (Number : string -> jsnum) (d : Disk)
    (es : list Event) :
  let w := fst (run Number es (initialWorld d)) in
  oneBuildAtATime w /\ settledInOrder w /\ fetchesBounded w.
Proof.
  intros w.
  destruct (run_coherent Number es (initialWorld d) (initialWorld_coherent d))
    as (H1 & H2 & H3 & _).
  auto.
Qed.

(** X12.  Whatever has happened since the module was loaded, the cache is
    either still empty, with [cacheLoadedAt] at 0, or it holds the index a
    build has resolved with: no failed build and no call ever writes it. *)
Theorem cache_comes_from_a_build (Number : string -> jsnum) (d : Disk)
    (es : list Event) :
  cacheFromBuild (fst (run Number es (initialWorld d))).
Proof.
  exact (proj2 (proj2 (proj2
           (run_coherent Number es (initialWorld d) (initialWorld_coherent d))))).
Qed.

(** X13.  From the loading of the module to a warm cache: the first call
    finds no fresh snapshot and starts the one build, the fetch brings an
    archive from which an index can be built, and the two reactions run.
    Then the cache holds that index, loaded at the time of the [then]
    reaction, the feed was fetched once, the one promise has resolved with
    the index, and nothing is in flight; every call less than 24 hours
    later is answered from the cache and changes nothing, and a call from 24
    hours on starts the second build. *)
Theorem cold_start_then_warm (Number : string -> jsnum) (d d' : Disk)
    (a : Arrival) (s : Snapshot) (idx : Index) (now1 nowDl1 t : Z) :
  downloadStart nowDl1 d = AwaitFetch GTFS_URL ->
  downloadResume a d = (d', Ok s) ->
  indexFromSnapshot Number d' s = Ok idx ->
  let warm := {| cache := Some idx; cacheLoadedAt := t; inFlight := None;
                 phase := Idle; disk := d'; fetchLog := [GTFS_URL];
                 nextPromise := 1; settledPromises := [(0%nat, Ok idx)] |} in
  run Number [Call now1 nowDl1; FetchReturns a; ArchiveRead; RunThen t; RunFinally]
    (initialWorld d) = (warm, [Awaits 0]) /\
  (forall now nowDl,
      (now - t < ZIP_TTL_MS)%Z -> getIndex now nowDl warm = (warm, Cached idx)) /\
  (forall now nowDl,
      (ZIP_TTL_MS <= now - t)%Z ->
      getIndex now nowDl warm = (startBuild nowDl warm, Awaits 1)).
Proof.
  intros Hstart Hres Hidx warm. split; [|split].
  - cbn [run step]. unfold getIndex. cbn [cacheFresh cache initialWorld inFlight].
    unfold startBuild. cbn [disk initialWorld]. rewrite Hstart.
    cbn [fst snd nextPromise cache cacheLoadedAt fetchLog settledPromises app].
    unfold fetchReturns. cbn [phase disk]. rewrite Hres.
    unfold archiveRead. cbn [phase disk]. rewrite Hidx.
    reflexivity.
  - intros now nowDl Hfresh. unfold getIndex, cacheFresh. cbn [cache cacheLoadedAt warm].
    apply Z.ltb_lt in Hfresh. now rewrite Hfresh.
  - intros now nowDl Hold. unfold getIndex, cacheFresh. cbn [cache cacheLoadedAt warm].
    apply Z.ltb_ge in Hold. now rewrite Hold.
Qed.

Lemma cold_start_then_warm_witness :
  run fixtureNumber
    [Call (fst firstCall) (snd firstCall);
     FetchReturns (arrival (FetchResponse true 200 (Some minimalZip)) (T0 + 3600900)%Z);
     ArchiveRead; RunThen (T0 + 3600950)%Z; RunFinally]
    (initialWorld emptyDisk)
  = ({| cache := Some {| idx_updatedAt := Some "2026-03-02T12:00:00.001Z";
                         stopById := [("S1", stopS1)];
                         routeById := [("R1", routeR1)];
                         stopToRoutes := [("S1", ["R1"])] |};
        cacheLoadedAt := (T0 + 3600950)%Z; inFlight := None; phase := Idle;
        disk := {| zipFile := Some minimalZip;
                   metaFile := Some {| downloadedAt := Some (T0 + 3600900)%Z;
                                       meta_updatedAt := Some "2026-03-02T12:00:00.001Z";
                                       url := GTFS_URL;
                                       bytes := 4096 |} |};
        fetchLog := [GTFS_URL]; nextPromise := 1;
        settledPromises :=
          [(0%nat, Ok {| idx_updatedAt := Some "2026-03-02T12:00:00.001Z";
                         stopById := [("S1", stopS1)];
                         routeById := [("R1", routeR1)];
                         stopToRoutes := [("S1", ["R1"])] |})] |},
     [Awaits 0]).
Proof.
  exact (proj1 (cold_start_then_warm fixtureNumber emptyDisk _
                  (arrival (FetchResponse true 200 (Some minimalZip)) (T0 + 3600900)%Z)
                  _ _ (fst firstCall) (snd firstCall) (T0 + 3600950)%Z
                  eq_refl eq_refl eq_refl)).
Defined.

(* ================================================================= *)
(** ** Nearby query engine: which stops an answer holds *)

Section AnswerFacts.

Local Open Scope R_scope.

Lemma StronglySorted_app_le {A : Type} (R : A -> A -> Prop) (l1 l2 : list A) :
  StronglySorted R (l1 ++ l2) ->
  forall a b, In a l1 -> In b l2 -> R a b.
Proof.
  induction l1 as [|x l1 IH]; intros Hs a b Ha Hb; [contradiction |].
  cbn in Hs. apply StronglySorted_inv in Hs. destruct Hs as [Hs Hall].
  destruct Ha as [-> | Ha]; [|now apply IH].
  rewrite Forall_forall in Hall. apply Hall, in_or_app. now right.
Qed.

Lemma Int_part_le (x y : R) : x <= y -> (Int_part x <= Int_part y)%Z.
Proof.
  intros Hxy.
  destruct (base_Int_part x) as [Hx _]. destruct (base_Int_part y) as [_ Hy].
  assert (H : IZR (Int_part x) < IZR (Int_part y + 1)) by (rewrite plus_IZR; lra).
  apply lt_IZR in H. lia.
Qed.

Lemma firstn_prefix_of {A : Type} (k1 : nat) :
  forall (k2 : nat) (l : list A),
    (k1 <= k2)%nat -> firstn k2 l = firstn k1 l ++ firstn (k2 - k1) (skipn k1 l).
Proof.
  induction k1 as [|k1 IH]; intros k2 l Hk.
  - cbn. now rewrite Nat.sub_0_r.
  - destruct k2 as [|k2]; [lia |].
    destruct l as [|x l]; [cbn; now rewrite firstn_nil |].
    cbn. f_equal. apply IH. lia.
Qed.

(** The answer is the first [maxStops limit] stops of the sorted list. *)
Lemma findNearby_firstn (ar : Arith) (idx : Index) (lat0 lng0 : R)
    (radiusMeters limit : option jsnum) :
  stops (findNearby ar idx lat0 lng0 radiusMeters limit) =
  firstn (maxStops limit)
    (sortBy leDistance (withinRadius ar idx lat0 lng0 (radiusMi radiusMeters))).
Proof.
  unfold findNearby, maxStops. cbn [stops]. rewrite limitOf_effective.
  now destruct (sliceTo_in_range (A := RankedStop) (effectiveLimit limit)
                  (sortBy leDistance
                     (withinRadius ar idx lat0 lng0 (radiusMi radiusMeters)))
                  (effectiveLimit_range limit)) as (-> & _ & _).
Qed.

Lemma maxStops_range (limit : option jsnum) : (1 <= maxStops limit <= 50)%nat.
Proof.
  unfold maxStops.
  destruct (sliceTo_in_range (A := nat) (effectiveLimit limit) []
              (effectiveLimit_range limit)) as (_ & Hk & _).
  lia.
Qed.


(** X14.  When every stop within the radius has a number for its distance,
    the stops left out of an answer are never reported nearer than the
    stops in it: the stops within the radius are the answer followed by
    stops whose reported distance, the distance rounded to two decimals, is
    at least that of every stop of the answer, so that by the distance
    itself a stop left out is less than a stop of the answer by at most
    0.01 mi; and stops are left out only when the answer is full. *)
Theorem findNearby_keeps_the_nearest (ar : Arith) (idx : Index) (lat0 lng0 : R)
    (radiusMeters limit : option jsnum) :
  let out := withinRadius ar idx lat0 lng0 (radiusMi radiusMeters) in
  let result := stops (findNearby ar idx lat0 lng0 radiusMeters limit) in
  Forall numericDistance out ->
  exists rest,
    Permutation out (result ++ rest) /\
    Forall (fun far => Forall (fun near => reportedLe near far) result) rest /\
    Forall (fun far =>
              Forall (fun near =>
                        exists dn df,
                          rawDistance ar lat0 lng0 near = Fin dn /\
                          rawDistance ar lat0 lng0 far = Fin df /\
                          dn <= df + 1 / 100) result) rest /\
    (rest <> [] -> List.length result = maxStops limit) /\
    ((List.length out <= maxStops limit)%nat -> rest = []).
Proof.
  intros out result Hnum.
  set (sorted := sortBy leDistance out).
  assert (Hres : result = firstn (maxStops limit) sorted)
    by apply findNearby_firstn.
  exists (skipn (maxStops limit) sorted).
  assert (Hlen : List.length sorted = List.length out) by apply sortBy_length.
  assert (Hsorted : StronglySorted reportedLe
                      (firstn (maxStops limit) sorted ++ skipn (maxStops limit) sorted)).
  { rewrite firstn_skipn. now apply sortBy_reportedLe. }
  assert (Hle : forall near far,
             In near result -> In far (skipn (maxStops limit) sorted) ->
             reportedLe near far).
  { intros near far Hnear Hfar. rewrite Hres in Hnear.
    exact (StronglySorted_app_le _ _ _ Hsorted near far Hnear Hfar). }
  assert (Hraw : forall st, In st sorted ->
             distanceMi st = toFixed2Num (rawDistance ar lat0 lng0 st)).
  { intros st Hst. apply sortBy_In in Hst.
    pose proof (withinRadius_reported ar idx lat0 lng0 (radiusMi radiusMeters)) as H.
    rewrite Forall_forall in H. now apply H. }
  split; [|split; [|split; [|split]]].
  - rewrite Hres, firstn_skipn. symmetry. apply sortBy_perm.
  - apply Forall_forall. intros far Hfar. apply Forall_forall. intros near Hnear.
    now apply Hle.
  - apply Forall_forall. intros far Hfar. apply Forall_forall. intros near Hnear.
    apply (reportedLe_raw near far).
    + apply Hraw. rewrite Hres in Hnear. now apply firstn_In_inv in Hnear.
    + apply Hraw. rewrite <- (firstn_skipn (maxStops limit) sorted).
      apply in_or_app. now right.
    + now apply Hle.
  - intros Hrest. rewrite Hres, length_firstn.
    destruct (Nat.le_gt_cases (List.length sorted) (maxStops limit)) as [Hfew | Hgt];
      [|lia].
    rewrite skipn_all2 in Hrest by exact Hfew. congruence.
  - intros Hfew. apply skipn_all2. lia.
Qed.

Lemma findNearby_keeps_the_nearest_witness :
  Forall numericDistance
    (withinRadius realArith roundingIndex 41.88 (-87.63) (radiusMi None)) /\
  exists rest,
    Permutation (withinRadius realArith roundingIndex 41.88 (-87.63) (radiusMi None))
      (stops (findNearby realArith roundingIndex 41.88 (-87.63) None (Some (Fin 1)))
       ++ rest) /\
    Forall (fun far =>
              Forall (fun near => reportedLe near far)
                (stops (findNearby realArith roundingIndex 41.88 (-87.63) None
                          (Some (Fin 1))))) rest.
Proof.
  assert (Hnum : Forall numericDistance
            (withinRadius realArith roundingIndex 41.88 (-87.63) (radiusMi None))).
  { rewrite roundingFixture_within.
    repeat constructor; exists 0.75; reflexivity. }
  split; [exact Hnum |].
  destruct (findNearby_keeps_the_nearest realArith roundingIndex 41.88 (-87.63)
              None (Some (Fin 1)) Hnum) as (rest & Hperm & Hfar & _).
  exists rest. split; [exact Hperm | exact Hfar].
Defined.

(** X15.  Asking for more stops never changes the stops already given: with
    the index, the point and the radius fixed, the answer for a limit is the
    beginning of the answer for any limit that is effectively larger. *)
Theorem findNearby_limit_prefix (ar : Arith) (idx : Index) (lat0 lng0 : R)
    (radiusMeters limit1 limit2 : option jsnum) :
  effectiveLimit limit1 <= effectiveLimit limit2 ->
  exists more,
    stops (findNearby ar idx lat0 lng0 radiusMeters limit2) =
    stops (findNearby ar idx lat0 lng0 radiusMeters limit1) ++ more.
Proof.
  intros Hle. rewrite !findNearby_firstn.
  eexists. apply firstn_prefix_of.
  unfold maxStops. apply Z2Nat.inj_le.
  - destruct (sliceTo_in_range (A := nat) (effectiveLimit limit1) []
                (effectiveLimit_range limit1)) as (_ & Hk & _). lia.
  - destruct (sliceTo_in_range (A := nat) (effectiveLimit limit2) []
                (effectiveLimit_range limit2)) as (_ & Hk & _). lia.
  - now apply Int_part_le.
Qed.

Lemma findNearby_limit_prefix_witness :
  exists more,
    stops (findNearby realArith roundingIndex 41.88 (-87.63) None None) =
    stops (findNearby realArith roundingIndex 41.88 (-87.63) None (Some (Fin 1))) ++ more.
Proof.
  apply findNearby_limit_prefix.
  unfold effectiveLimit, clampLimit.
  destruct (Req_dec_T 1 0); [lra |].
  rewrite Rmin_right by lra. rewrite Rmax_left by lra. lra.
Defined.

(** X16.  The radius has a floor of a tenth of a mile, 160.9344 m: every
    smaller radius, zero and the negative ones included, gives the answer of
    160.9344 m. *)
Theorem findNearby_radius_floor (ar : Arith) (idx : Index) (lat0 lng0 r : R)
    (limit : option jsnum) :
  r <= 160.9344 ->
  findNearby ar idx lat0 lng0 (Some (Fin r)) limit =
    findNearby ar idx lat0 lng0 (Some (Fin 160.9344)) limit /\
  findNearby ar idx lat0 lng0 (Some NegInf) limit =
    findNearby ar idx lat0 lng0 (Some (Fin 160.9344)) limit /\
  radiusMi (Some (Fin r)) = Fin (1 / 10).
Proof.
  intros Hr.
  assert (Hfloor : radiusMi (Some (Fin 160.9344)) = Fin (1 / 10)).
  { rewrite radiusMi_numeric. f_equal. apply Rmax_left. lra. }
  assert (Hsmall : radiusMi (Some (Fin r)) = Fin (1 / 10)).
  { rewrite radiusMi_numeric. f_equal. apply Rmax_left. lra. }
  assert (Hneg : radiusMi (Some NegInf) = Fin (1 / 10)) by reflexivity.
  unfold findNearby. rewrite Hfloor, Hsmall, Hneg. auto.
Qed.

Lemma findNearby_radius_floor_witness :
  findNearby realArith roundingIndex 41.88 (-87.63) (Some (Fin 0)) None =
  findNearby realArith roundingIndex 41.88 (-87.63) (Some (Fin 160.9344)) None.
Proof.
  refine (proj1 (findNearby_radius_floor realArith roundingIndex 41.88 (-87.63) 0 None _)).
  lra.
Defined.

(** X17.  A radius that is not a number switches the radius filter off: the
    comparison with NaN never holds, so every stop of the table is a
    candidate, as for an infinite radius, and the answer is cut by the limit
    alone. *)
Theorem findNearby_radius_not_a_number (ar : Arith) (idx : Index) (lat0 lng0 : R)
    (limit : option jsnum) :
  withinRadius ar idx lat0 lng0 (radiusMi (Some NaN)) =
    map (entryOf ar idx lat0 lng0) (JsMap.values (stopById idx)) /\
  findNearby ar idx lat0 lng0 (Some NaN) limit =
    findNearby ar idx lat0 lng0 (Some PosInf) limit /\
  List.length (stops (findNearby ar idx lat0 lng0 (Some NaN) limit)) =
    Nat.min (maxStops limit) (List.length (stopById idx)).
Proof.
  assert (Hall : withinRadius ar idx lat0 lng0 (radiusMi (Some NaN)) =
                 map (entryOf ar idx lat0 lng0) (JsMap.values (stopById idx))).
  { unfold withinRadius. cbn [radiusMi defaulted numDiv mathMax].
    f_equal. induction (JsMap.values (stopById idx)) as [|x l IH];
      [reflexivity |].
    cbn [filter]. rewrite IH.
    now destruct (haversineMiles ar lat0 lng0 (lat x) (lng x)). }
  split; [exact Hall |]. split; [reflexivity |].
  rewrite findNearby_firstn, length_firstn, sortBy_length, Hall, length_map.
  unfold JsMap.values. now rewrite length_map.
Qed.

(** X18.  Every stop of the table that the radius test lets through, one
    whose distance is a number at most the radius and also one whose
    distance is NaN, is in the answer, unless more stops pass the test, the
    ones at NaN counted, than the limit lets through. *)
Theorem findNearby_complete (ar : Arith) (idx : Index) (lat0 lng0 r : R)
    (limit : option jsnum) (stop : Stop) :
  In stop (JsMap.values (stopById idx)) ->
  haversineMiles ar lat0 lng0 (lat stop) (lng stop) = NaN \/
  (exists d, haversineMiles ar lat0 lng0 (lat stop) (lng stop) = Fin d /\
             d <= Rmax (1 / 10) (r / 1609.344)) ->
  (List.length (withinRadius ar idx lat0 lng0 (radiusMi (Some (Fin r))))
   <= maxStops limit)%nat ->
  In (entryOf ar idx lat0 lng0 stop)
     (stops (findNearby ar idx lat0 lng0 (Some (Fin r)) limit)).
Proof.
  intros Hin Hnear Hfew.
  rewrite findNearby_firstn, firstn_all2 by (now rewrite sortBy_length).
  apply sortBy_In. unfold withinRadius.
  apply (in_map (fun stop0 => rankStop idx stop0
                   (haversineMiles ar lat0 lng0 (lat stop0) (lng stop0)))).
  apply filter_In. split; [exact Hin |].
  rewrite radiusMi_numeric. apply negb_true_iff, gtNum_false_Fin.
  destruct Hnear as [Hnan | Hd]; [now left | now right; right].
Qed.

Lemma findNearby_complete_witness :
  In (entryOf realArith minimalIndex 41.88 (-87.63) stopS1)
     (stops (findNearby realArith minimalIndex 41.88 (-87.63) (Some (Fin 500)) None)).
Proof.
  apply findNearby_complete.
  - left. reflexivity.
  - right. exists 0. split; [exact distance_S1 |].
    apply Rle_trans with (1 / 10); [lra | apply Rmax_l].
  - unfold withinRadius. rewrite length_map.
    eapply Nat.le_trans; [apply filter_length_le |].
    cbn. apply maxStops_range.
Defined.

Lemma distinctModes_In (ms seen : list Mode) (m : Mode) :
  In m (distinctModes seen ms) -> In m ms /\ existsb (Mode_eqb m) seen = false.
Proof.
  revert seen. induction ms as [|x ms IH]; intros seen; cbn; [contradiction |].
  destruct (existsb (Mode_eqb x) seen) eqn:E.
  - intros H. apply IH in H. tauto.
  - intros [<- | H]; [auto |].
    apply IH in H. destruct H as [Hin Hseen]. split; [auto |].
    rewrite existsb_app in Hseen. now apply orb_false_iff in Hseen.
Qed.

Lemma Mode_eqb_eq (a b : Mode) : Mode_eqb a b = true <-> a = b.
Proof. destruct a, b; cbn; split; congruence. Qed.

Lemma distinctModes_complete (ms seen : list Mode) (m : Mode) :
  In m ms -> existsb (Mode_eqb m) seen = false -> In m (distinctModes seen ms).
Proof.
  revert seen. induction ms as [|x ms IH]; intros seen; cbn; [contradiction |].
  intros [-> | Hin] Hseen.
  - rewrite Hseen. now left.
  - destruct (existsb (Mode_eqb x) seen) eqn:E; [now apply IH |].
    destruct (Mode_eqb m x) eqn:Emx.
    + apply Mode_eqb_eq in Emx. now left.
    + right. apply IH; [exact Hin |].
      rewrite existsb_app. cbn. now rewrite Hseen, Emx.
Qed.

Lemma distinctModes_NoDup (ms seen : list Mode) : NoDup (distinctModes seen ms).
Proof.
  revert seen. induction ms as [|x ms IH]; intros seen; cbn; [constructor |].
  destruct (existsb (Mode_eqb x) seen) eqn:E; [apply IH |].
  constructor; [|apply IH].
  intros Hin. apply distinctModes_In in Hin. destruct Hin as [_ Hseen].
  rewrite existsb_app in Hseen. cbn [existsb] in Hseen.
  assert (Hxx : Mode_eqb x x = true) by (now apply Mode_eqb_eq).
  rewrite Hxx in Hseen. cbn [orb] in Hseen.
  rewrite orb_true_r in Hseen. discriminate.
Qed.

Lemma orElse_nonempty (c : option string) (d : string) :
  d <> "" -> orElse c d <> "".
Proof. intros Hd. destruct c as [[|ch s]|]; cbn; auto; discriminate. Qed.

(** X19.  What every stop of an answer carries: at most 12 routes, the
    first ones of the routes resolved for the stop; modes without
    repetition, which are exactly the modes of the resolved routes, so that
    the mode of every listed route is among them; and for every route a
    short name that is not empty, the long name or the word Route standing
    in for a missing one. *)
Theorem findNearby_stop_payload (ar : Arith) (idx : Index) (lat0 lng0 : R)
    (radiusMeters limit : option jsnum) :
  Forall (fun st =>
            routes st = firstn 12 (resolveRoutes idx (rs_id st)) /\
            (List.length (routes st) <= 12)%nat /\
            NoDup (modes st) /\
            (forall m, In m (modes st) <->
                       exists r, In r (resolveRoutes idx (rs_id st)) /\ ro_type r = m) /\
            Forall (fun r => In (ro_type r) (modes st) /\ shortName r <> "")
              (routes st))
    (stops (findNearby ar idx lat0 lng0 radiusMeters limit)).
Proof.
  apply findNearby_Forall. intros stop _ _. cbn [rankStop routes modes rs_id].
  assert (Hmodes : forall m,
             In m (distinctModes [] (map ro_type (resolveRoutes idx (stop_id stop)))) <->
             exists r, In r (resolveRoutes idx (stop_id stop)) /\ ro_type r = m).
  { intros m. split.
    - intros H. apply distinctModes_In in H. destruct H as [H _].
      apply in_map_iff in H. destruct H as (r & Hr & Hin). eauto.
    - intros (r & Hin & Hr). apply distinctModes_complete; [|reflexivity].
      apply in_map_iff. eauto. }
  split; [reflexivity |]. split; [rewrite length_firstn; lia |].
  split; [apply distinctModes_NoDup |]. split; [exact Hmodes |].
  apply Forall_forall. intros r Hr. split.
  - apply Hmodes. exists r. split; [|reflexivity].
    now apply firstn_In_inv in Hr.
  - apply firstn_In_inv in Hr. apply resolveRoutes_inv in Hr.
    destruct Hr as (rid & route & _ & _ & ->). cbn [routeOut shortName].
    apply orElse_nonempty, orElse_nonempty. discriminate.
Qed.

Lemma get_of_In {V : Type} (k : string) (v : V) (m : JsMap.t V) :
  NoDup (JsMap.keys m) -> In (k, v) m -> JsMap.get k m = Some v.
Proof.
  unfold JsMap.keys. induction m as [|[k' v'] m IH]; cbn; [contradiction |].
  intros Hnd Hin. apply NoDup_cons_iff in Hnd. destruct Hnd as [Hk Hnd].
  destruct Hin as [[= -> ->] | Hin].
  - now rewrite String.eqb_refl.
  - destruct (String.eqb_spec k k') as [-> | Hne]; [|now apply IH].
    exfalso. apply Hk. apply in_map_iff. exists (k', v). auto.
Qed.

Lemma NoDup_firstn {A : Type} (k : nat) (l : list A) : NoDup l -> NoDup (firstn k l).
Proof.
  intros Hl. rewrite <- (firstn_skipn k l) in Hl.
  now apply NoDup_app_remove_r in Hl.
Qed.

(** X20.  Over a built index no stop comes twice in an answer, and every
    entry of the answer is the stop the index holds under the entry's id,
    with its name and its coordinates. *)
Theorem findNearby_built_index_stops (ar : Arith) (Number : string -> jsnum) (d : Disk)
    (s : Snapshot) (idx : Index) (lat0 lng0 : R)
    (radiusMeters limit : option jsnum) :
  indexFromSnapshot Number d s = Ok idx ->
  NoDup (map rs_id (stops (findNearby ar idx lat0 lng0 radiusMeters limit))) /\
  Forall (fun st =>
            exists stop,
              JsMap.get (rs_id st) (stopById idx) = Some stop /\
              st = entryOf ar idx lat0 lng0 stop)
    (stops (findNearby ar idx lat0 lng0 radiusMeters limit)).
Proof.
  intros Hbuilt.
  destruct (built_stops_kept Number d s idx Hbuilt) as (Hnd & Hkeyed).
  assert (Hval : forall stop, In stop (JsMap.values (stopById idx)) ->
                              In (stop_id stop, stop) (stopById idx)).
  { intros stop Hin. unfold JsMap.values in Hin. apply in_map_iff in Hin.
    destruct Hin as ([k v] & <- & Hin). cbn.
    destruct (Hkeyed k v Hin) as [-> _]. exact Hin. }
  split.
  - rewrite findNearby_firstn, <- firstn_map. apply NoDup_firstn.
    apply (Permutation_NoDup
             (l := map rs_id (withinRadius ar idx lat0 lng0 (radiusMi radiusMeters)))).
    + apply Permutation_map, Permutation_sym, sortBy_perm.
    + unfold withinRadius. rewrite map_map. cbn [rs_id rankStop].
      assert (Hids : NoDup (map stop_id (JsMap.values (stopById idx)))).
      { replace (map stop_id (JsMap.values (stopById idx)))
          with (JsMap.keys (stopById idx)); [exact Hnd |].
        unfold JsMap.keys, JsMap.values. rewrite map_map.
        apply map_ext_in. intros [k v] Hin. cbn.
        now destruct (Hkeyed k v Hin) as [-> _]. }
      clear Hval. induction (JsMap.values (stopById idx)) as [|x l IH];
        [constructor |].
      cbn [map] in Hids. apply NoDup_cons_iff in Hids. destruct Hids as [Hx Hl].
      cbn [filter].
      destruct (negb (gtNum (haversineMiles ar lat0 lng0 (lat x) (lng x))
                        (radiusMi radiusMeters))); [|now apply IH].
      cbn [map]. constructor; [|now apply IH].
      intros Hin. apply Hx. apply in_map_iff in Hin.
      destruct Hin as (y & Hy & Hin). apply filter_In in Hin.
      apply in_map_iff. exists y. tauto.
  - apply findNearby_Forall. intros stop Hin _. exists stop.
    split; [|reflexivity]. cbn [rs_id rankStop].
    apply get_of_In; [exact Hnd | now apply Hval].
Qed.

Lemma findNearby_built_index_stops_witness :
  NoDup (map rs_id (stops (findNearby realArith roundingIndex 41.88 (-87.63) None None))).
Proof.
  exact (proj1 (findNearby_built_index_stops realArith fixtureNumber (diskWith roundingZip T0)
                  fixtureSnapshot roundingIndex 41.88 (-87.63) None None eq_refl)).
Defined.

End AnswerFacts.

(* ================================================================= *)
(** ** HTTP route of the nearby query *)

Section RouteFacts.

Local Open Scope R_scope.

Lemma routeRadius_range (q : NearbyQuery) :
  exists r, routeRadius q = Fin r /\ 200 <= r <= 5000.
Proof.
  unfold routeRadius, numOr.
  destruct (q_radius q) as [| | |x]; cbn [mathMin mathMax].
  - eexists. split; [reflexivity |].
    split; [apply Rmax_l | apply Rmax_lub; [lra | apply Rmin_l]].
  - eexists. split; [reflexivity |]. split; [apply Rmax_l | apply Rmax_lub; lra].
  - eexists. split; [reflexivity |]. lra.
  - destruct (Req_dec_T x 0); cbn [mathMin mathMax]; eexists;
      (split; [reflexivity |]);
      (split; [apply Rmax_l | apply Rmax_lub; [lra | apply Rmin_l]]).
Qed.

Lemma routeLimit_range (q : NearbyQuery) :
  exists l, routeLimit q = Fin l /\ 3 <= l <= 25.
Proof.
  unfold routeLimit, numOr.
  destruct (q_limit q) as [| | |x]; cbn [mathMin mathMax].
  - eexists. split; [reflexivity |].
    split; [apply Rmax_l | apply Rmax_lub; [lra | apply Rmin_l]].
  - eexists. split; [reflexivity |]. split; [apply Rmax_l | apply Rmax_lub; lra].
  - eexists. split; [reflexivity |]. lra.
  - destruct (Req_dec_T x 0); cbn [mathMin mathMax]; eexists;
      (split; [reflexivity |]);
      (split; [apply Rmax_l | apply Rmax_lub; [lra | apply Rmin_l]]).
Qed.

(** X23.  The route hands [findNearby] a radius between 200 and 5000 metres
    and a limit between 3 and 25, whatever the query string holds, so the
    floor of the radius and the clamp of the limit inside [findNearby] never
    change a request that comes through the route: the radius in miles is
    the radius divided by 1609.344, the limit is used as it is, and the
    answer has at most 25 stops, none at a distance that compares above the
    route's radius: the distance of each is a number within the radius, or
    it is no number, as NaN is. *)
Theorem transitNearby_clamps (ar : Arith) (q : NearbyQuery) :
  exists r l,
    routeRadius q = Fin r /\ 200 <= r <= 5000 /\
    routeLimit q = Fin l /\ 3 <= l <= 25 /\
    radiusMi (Some (routeRadius q)) = Fin (r / 1609.344) /\
    limitOf (Some (routeLimit q)) = Fin l /\
    forall idx lat0 lng0,
      let result :=
        stops (findNearby ar idx lat0 lng0 (Some (routeRadius q)) (Some (routeLimit q))) in
      (List.length result <= 25)%nat /\
      INR (List.length result) <= l /\
      Forall (fun st =>
                gtNum (rawDistance ar lat0 lng0 st) (Fin (r / 1609.344)) = false /\
                forall d, rawDistance ar lat0 lng0 st = Fin d -> d * 1609.344 <= r)
        result.
Proof.
  destruct (routeRadius_range q) as (r & Hr & Hrr).
  destruct (routeLimit_range q) as (l & Hl & Hll).
  exists r, l. rewrite Hr, Hl.
  assert (Hrad : radiusMi (Some (Fin r)) = Fin (r / 1609.344)).
  { rewrite radiusMi_numeric. f_equal. apply Rmax_right. lra. }
  assert (Heff : effectiveLimit (Some (Fin l)) = l).
  { unfold effectiveLimit. destruct (Req_dec_T l 0); [lra |].
    apply clampLimit_id. lra. }
  split; [reflexivity |]. split; [exact Hrr |].
  split; [reflexivity |]. split; [exact Hll |].
  split; [exact Hrad |]. split; [now rewrite limitOf_effective, Heff |].
  intros idx lat0 lng0 result.
  assert (Hmax : (maxStops (Some (Fin l)) <= 25)%nat /\
                 INR (maxStops (Some (Fin l))) <= l).
  { unfold maxStops. rewrite Heff.
    assert (Hrange : 1 <= l <= 50) by lra.
    destruct (sliceTo_in_range (A := nat) l [] Hrange) as (_ & Hk & Hkl).
    assert (Hk25 : (Int_part l <= 25)%Z) by (apply le_IZR; lra).
    split; [lia |]. rewrite INR_IZR_INZ, Z2Nat.id by lia. exact Hkl. }
  assert (Hlen : (List.length result <= maxStops (Some (Fin l)))%nat).
  { unfold result. rewrite findNearby_firstn, length_firstn. lia. }
  split; [lia |]. split.
  - apply Rle_trans with (INR (maxStops (Some (Fin l)))); [now apply le_INR | tauto].
  - apply Forall_forall. intros st Hst. apply findNearby_stop_inv in Hst.
    destruct Hst as (stop & _ & Hgt & ->).
    unfold rawDistance. cbn [rs_lat rs_lng rankStop].
    rewrite Hrad in Hgt. split; [exact Hgt |].
    intros d Hd. rewrite Hd in Hgt. unfold gtNum in Hgt.
    destruct (Rgt_dec d (r / 1609.344)) as [Hfar | Hnear]; [discriminate |].
    lra.
Qed.

(** X24.  What the route replies.  It answers 400 exactly when the latitude
    or the longitude is not a finite number, and then neither the cache nor
    the build state is touched and nothing is fetched.  It answers 500 only
    after waiting for a build that has rejected.  A 200 answer is the answer
    of [findNearby] for the finite coordinates, the clamped radius and the
    clamped limit, over the cached index or the index the build resolved
    with, tagged with the source [cta_gtfs]. *)
Theorem transitNearby_replies (ar : Arith) (now nowDl : Z) (q : NearbyQuery) (w : World)
    (r : result Index) :
  let started := transitNearby ar now nowDl q w in
  match transitNearbySettled ar (snd started) r with
  | Error400 _ =>
      (forall la lo, ~ (q_lat q = Fin la /\ q_lng q = Fin lo)) /\
      started = (w, Replied (Error400 "lat and lng are required"))
  | Error500 msg =>
      msg = "GTFS transit lookup failed" /\
      (exists e, r = Err e) /\
      exists la lo,
        q_lat q = Fin la /\ q_lng q = Fin lo /\
        started = (fst (getIndex now nowDl w),
                   AwaitsIndex (sharedPromise w) la lo (routeRadius q) (routeLimit q))
  | Json200 data source =>
      source = "cta_gtfs" /\
      fst started = fst (getIndex now nowDl w) /\
      exists la lo idx,
        q_lat q = Fin la /\ q_lng q = Fin lo /\
        (snd (getIndex now nowDl w) = Cached idx \/
         snd (getIndex now nowDl w) = Awaits (sharedPromise w) /\ r = Ok idx) /\
        data = findNearby ar idx la lo (Some (routeRadius q)) (Some (routeLimit q))
  end.
Proof.
  intros started. unfold started, transitNearby.
  destruct (q_lat q) as [| | |la] eqn:Hla;
    try (cbn; split; [intros la lo [H _]; discriminate | reflexivity]).
  destruct (q_lng q) as [| | |lo] eqn:Hlo;
    try (cbn; split; [intros la' lo' [_ H]; discriminate | reflexivity]).
  assert (Hreply : forall p, snd (getIndex now nowDl w) = Awaits p -> p = sharedPromise w).
  { unfold getIndex, sharedPromise.
    destruct (if cacheFresh now w then cache w else None); [discriminate |].
    destruct (inFlight w); cbn; now intros p [= <-]. }
  destruct (getIndex now nowDl w) as [w' [idx | p]] eqn:Hget; cbn [fst snd] in *.
  - cbn. split; [reflexivity |]. split; [reflexivity |].
    exists la, lo, idx. auto.
  - specialize (Hreply p eq_refl). subst p. cbn [transitNearbySettled respond].
    destruct r as [idx | e].
    + split; [reflexivity |]. split; [reflexivity |].
      exists la, lo, idx. repeat split; auto.
    + split; [reflexivity |]. split; [eauto |]. exists la, lo. auto.
Qed.

(** X25.  A radius or a limit that is absent from the query string, not
    numeric or zero takes the value [findNearby] itself defaults to: the
    route then answers as [findNearby] does with the argument left out. *)
Theorem transitNearby_defaults (ar : Arith) (q : NearbyQuery) (idx : Index) (lat0 lng0 : R) :
  falsyNumber (q_radius q) = true -> falsyNumber (q_limit q) = true ->
  routeRadius q = Fin 1200 /\ routeLimit q = Fin 12 /\
  respond ar lat0 lng0 (routeRadius q) (routeLimit q) (Ok idx) =
    Json200 (findNearby ar idx lat0 lng0 None None) "cta_gtfs".
Proof.
  intros Hr Hl.
  assert (Hradius : routeRadius q = Fin 1200).
  { unfold routeRadius, numOr. destruct (q_radius q) as [| | |x]; try discriminate.
    - cbn. f_equal. rewrite Rmin_right by lra. apply Rmax_right. lra.
    - cbn in Hr. destruct (Req_dec_T x 0); [|discriminate].
      cbn. f_equal. rewrite Rmin_right by lra. apply Rmax_right. lra. }
  assert (Hlimit : routeLimit q = Fin 12).
  { unfold routeLimit, numOr. destruct (q_limit q) as [| | |x]; try discriminate.
    - cbn. f_equal. rewrite Rmin_right by lra. apply Rmax_right. lra.
    - cbn in Hl. destruct (Req_dec_T x 0); [|discriminate].
      cbn. f_equal. rewrite Rmin_right by lra. apply Rmax_right. lra. }
  split; [exact Hradius |]. split; [exact Hlimit |].
  rewrite Hradius, Hlimit. reflexivity.
Qed.

Lemma transitNearby_defaults_witness :
  respond realArith 41.88 (-87.63)
    (routeRadius {| q_lat := Fin 41.88; q_lng := Fin (-87.63);
                    q_radius := NaN; q_limit := NaN |})
    (routeLimit {| q_lat := Fin 41.88; q_lng := Fin (-87.63);
                   q_radius := NaN; q_limit := NaN |})
    (Ok minimalIndex)
  = Json200 (findNearby realArith minimalIndex 41.88 (-87.63) None None) "cta_gtfs".
Proof.
  exact (proj2 (proj2 (transitNearby_defaults realArith
                         {| q_lat := Fin 41.88; q_lng := Fin (-87.63);
                            q_radius := NaN; q_limit := NaN |}
                         minimalIndex 41.88 (-87.63) eq_refl eq_refl))).
Defined.

End RouteFacts.

(* ================================================================= *)
(** ** Sessions of the proxy *)

Lemma get_mapDelete_same {V : Type} (k : string) (m : JsMap.t V) :
  JsMap.get k (mapDelete k m) = None.
Proof.
  induction m as [|[k' v] m IH]; cbn; [reflexivity |].
  destruct (String.eqb k k') eqn:E; [exact IH |]. cbn. now rewrite E.
Qed.

Lemma get_mapDelete_other {V : Type} (k k0 : string) (m : JsMap.t V) :
  k <> k0 -> JsMap.get k (mapDelete k0 m) = JsMap.get k m.
Proof.
  intros Hne. induction m as [|[k' v] m IH]; cbn; [reflexivity |].
  destruct (String.eqb_spec k0 k') as [<- | Hk].
  - destruct (String.eqb_spec k k0); [contradiction | exact IH].
  - cbn. now rewrite IH.
Qed.

Lemma prefix_dropChars (p s : string) :
  String.prefix p s = true -> s = (p ++ dropChars (String.length p) s)%string.
Proof.
  revert s. induction p as [|a p IH]; intros s; [reflexivity |].
  destruct s as [|b s]; cbn; [discriminate |].
  destruct (ascii_dec a b) as [<- | _]; [|discriminate].
  intros H. now rewrite <- (IH s H).
Qed.

Lemma truthy_some (t : string) : t <> "" -> truthy (Some t) = true.
Proof. destruct t; [congruence | reflexivity]. Qed.

(** What one call of [getUserByToken] does, case by case. *)
Lemma getUserByToken_cases (now nowRefresh : Z) (token : option string)
    (users : list User) (sessions : JsMap.t Session) :
  let after := fst (getUserByToken now nowRefresh token users sessions) in
  match snd (getUserByToken now nowRefresh token users sessions) with
  | Some u =>
      exists t session,
        token = Some t /\ t <> "" /\
        JsMap.get t sessions = Some session /\
        (now <= expiresAt session)%Z /\
        findUser (userId session) users = Some u /\
        after = JsMap.set t {| userId := userId session;
                               expiresAt := (nowRefresh + SESSION_TTL_MS)%Z |} sessions
  | None =>
      after = sessions \/
      exists t session,
        token = Some t /\ JsMap.get t sessions = Some session /\
        (expiresAt session < now)%Z /\ after = mapDelete t sessions
  end.
Proof.
  unfold getUserByToken. destruct token as [t|]; [|now left].
  destruct (truthy (Some t)) eqn:Et; cbn [negb]; [|now left].
  apply truthy_nonempty in Et.
  destruct (JsMap.get t sessions) as [session|] eqn:Eget; [|now left].
  destruct (Z.ltb_spec (expiresAt session) now) as [Hlt | Hge].
  - right. exists t, session. auto.
  - destruct (findUser (userId session) users) as [u|] eqn:Eu; [|now left].
    exists t, session. cbn. repeat split; auto.
Qed.

(** X26.  A token is good for two hours after it was issued: used up to
    the last millisecond of the two hours, it gives the user it was issued
    to and its expiry moves to two hours after the use; used later, it is
    refused and its session is deleted. *)
Theorem session_sliding_expiry (t0 now nowRefresh : Z) (token uid : string)
    (u : User) (users : list User) (sessions : JsMap.t Session) :
  token <> "" -> findUser uid users = Some u ->
  let issued := fst (makeToken t0 token uid sessions) in
  snd (makeToken t0 token uid sessions) = token /\
  ((now <= t0 + SESSION_TTL_MS)%Z ->
   getUserByToken now nowRefresh (Some token) users issued =
     (JsMap.set token {| userId := uid;
                         expiresAt := (nowRefresh + SESSION_TTL_MS)%Z |} issued,
      Some u)) /\
  ((t0 + SESSION_TTL_MS < now)%Z ->
   getUserByToken now nowRefresh (Some token) users issued =
     (mapDelete token issued, None)) /\
  SESSION_TTL_MS = 7200000%Z.
Proof.
  intros Htoken Huser issued.
  assert (Hget : JsMap.get token issued =
                 Some {| userId := uid; expiresAt := (t0 + SESSION_TTL_MS)%Z |}).
  { unfold issued, makeToken. cbn [fst]. apply JsMapFacts.get_set_same. }
  split; [reflexivity |]. split; [|split; [|reflexivity]].
  - intros Hlive. unfold getUserByToken.
    rewrite (truthy_some token Htoken), Hget. cbn [negb expiresAt userId].
    destruct (Z.ltb_spec (t0 + SESSION_TTL_MS) now) as [Hlt | _]; [lia |].
    now rewrite Huser.
  - intros Hlate. unfold getUserByToken.
    rewrite (truthy_some token Htoken), Hget. cbn [negb expiresAt userId].
    destruct (Z.ltb_spec (t0 + SESSION_TTL_MS) now) as [_ | Hge]; [reflexivity | lia].
Qed.

Lemma session_sliding_expiry_witness :
  getUserByToken (T0 + SESSION_TTL_MS) (T0 + SESSION_TTL_MS + 1) (Some "5f2a")
    [fixtureUser] (fst (makeToken T0 "5f2a" "u1" []))
  = ([("5f2a", {| userId := "u1";
                  expiresAt := (T0 + SESSION_TTL_MS + 1 + SESSION_TTL_MS)%Z |})],
     Some fixtureUser).
Proof.
  refine (proj1 (proj2 (session_sliding_expiry T0 (T0 + SESSION_TTL_MS)
                          (T0 + SESSION_TTL_MS + 1) "5f2a" "u1" fixtureUser
                          [fixtureUser] [] _ eq_refl)) _).
  - discriminate.
  - lia.
Defined.

(** X27.  A token used after its expiry is refused for good: the call
    deletes its session and leaves every other session as it was, and from
    then on every use of the token is refused, at whatever time and with
    whatever users, without changing the sessions. *)
Theorem expired_token_stays_out (now nowRefresh : Z) (token : string)
    (session : Session) (users : list User) (sessions : JsMap.t Session) :
  token <> "" -> JsMap.get token sessions = Some session ->
  (expiresAt session < now)%Z ->
  let after := fst (getUserByToken now nowRefresh (Some token) users sessions) in
  snd (getUserByToken now nowRefresh (Some token) users sessions) = None /\
  JsMap.get token after = None /\
  (forall other, other <> token -> JsMap.get other after = JsMap.get other sessions) /\
  (forall now' nowRefresh' users',
      getUserByToken now' nowRefresh' (Some token) users' after = (after, None)).
Proof.
  intros Htoken Hget Hexpired after.
  assert (Hcall : getUserByToken now nowRefresh (Some token) users sessions
                  = (mapDelete token sessions, None)).
  { unfold getUserByToken. rewrite (truthy_some token Htoken), Hget. cbn [negb].
    destruct (Z.ltb_spec (expiresAt session) now) as [_ | Hge]; [reflexivity | lia]. }
  unfold after. rewrite Hcall. cbn [fst snd].
  split; [reflexivity |]. split; [apply get_mapDelete_same |]. split.
  - intros other Hother. now apply get_mapDelete_other.
  - intros now' nowRefresh' users'. unfold getUserByToken.
    rewrite (truthy_some token Htoken), get_mapDelete_same. reflexivity.
Qed.

Lemma expired_token_stays_out_witness :
  getUserByToken (T0 + 1) (T0 + 2) (Some "5f2a") []
    (fst (getUserByToken (T0 + SESSION_TTL_MS + 1) (T0 + SESSION_TTL_MS + 1)
            (Some "5f2a") [] (fst (makeToken T0 "5f2a" "u1" []))))
  = ([], None).
Proof.
  refine (proj2 (proj2 (proj2 (expired_token_stays_out (T0 + SESSION_TTL_MS + 1)
            (T0 + SESSION_TTL_MS + 1) "5f2a"
            {| userId := "u1"; expiresAt := (T0 + SESSION_TTL_MS)%Z |} []
            (fst (makeToken T0 "5f2a" "u1" [])) _ eq_refl _))) (T0 + 1)%Z (T0 + 2)%Z []).
  - discriminate.
  - cbn. lia.
Defined.

Lemma bearerToken_Some (authorization : option string) (t : string) :
  bearerToken authorization = Some t ->
  authorization = Some ("Bearer " ++ t)%string.
Proof.
  unfold bearerToken. intros Htok.
  destruct (String.prefix "Bearer " (orElse authorization "")) eqn:Ep;
    [|discriminate].
  injection Htok as <-. apply prefix_dropChars in Ep.
  change (String.length "Bearer ") with 7%nat in Ep.
  destruct authorization as [[|c a]|]; cbn in Ep; try discriminate Ep.
  f_equal. exact Ep.
Qed.

(** X28.  [authMiddleware] hands a request on only when its authorization
    header is the word Bearer, a space and a non-empty token whose session
    has not expired and whose user is among the users; the user handed on
    is that user, and the session then expires two hours later.  A request
    it refuses leaves the sessions as they were, but for the session of its
    own token, which it deletes when that session has expired: it never
    creates a session and never extends one.  No request, handed on or
    refused, changes the session of another token. *)
Theorem authMiddleware_admits (now nowRefresh : Z) (authorization : option string)
    (users : list User) (sessions : JsMap.t Session) :
  let after := fst (authMiddleware now nowRefresh authorization users sessions) in
  match snd (authMiddleware now nowRefresh authorization users sessions) with
  | Next u =>
      exists token session,
        authorization = Some ("Bearer " ++ token)%string /\ token <> "" /\
        JsMap.get token sessions = Some session /\
        (now <= expiresAt session)%Z /\
        In u users /\ user_id u = userId session /\
        JsMap.get token after =
          Some {| userId := userId session;
                  expiresAt := (nowRefresh + SESSION_TTL_MS)%Z |} /\
        (forall other, other <> token ->
                       JsMap.get other after = JsMap.get other sessions)
  | Unauthorized =>
      (after = sessions \/
       exists token session,
         authorization = Some ("Bearer " ++ token)%string /\
         JsMap.get token sessions = Some session /\
         (expiresAt session < now)%Z /\
         after = mapDelete token sessions) /\
      (forall token session,
          JsMap.get token after = Some session ->
          JsMap.get token sessions = Some session) /\
      (forall other,
          authorization <> Some ("Bearer " ++ other)%string ->
          JsMap.get other after = JsMap.get other sessions)
  end.
Proof.
  intros after. unfold after, authMiddleware.
  pose proof (getUserByToken_cases now nowRefresh (bearerToken authorization)
                users sessions) as Hcases.
  destruct (getUserByToken now nowRefresh (bearerToken authorization) users sessions)
    as [sessions' [u|]]; cbn [fst snd] in *.
  - destruct Hcases as (t & session & Htok & Hne & Hget & Hlive & Hfind & ->).
    exists t, session.
    apply find_some in Hfind. destruct Hfind as [Hin Hid].
    apply String.eqb_eq in Hid.
    apply bearerToken_Some in Htok.
    repeat split; auto.
    + apply JsMapFacts.get_set_same.
    + intros other Hother. now apply JsMapFacts.get_set_other.
  - destruct Hcases as [-> | (t & s0 & Htok & Hget & Hlate & ->)].
    + split; [now left |]. split; auto.
    + apply bearerToken_Some in Htok. split; [|split].
      * right. exists t, s0. auto.
      * intros token session Hafter.
        destruct (string_dec token t) as [-> | Hne].
        -- rewrite get_mapDelete_same in Hafter. discriminate.
        -- now rewrite get_mapDelete_other in Hafter.
      * intros other Hother. apply get_mapDelete_other.
        intros ->. now apply Hother.
Qed.

(* ================================================================= *)
(** ** Train arrivals of the proxy *)

Lemma minutesUntil_bracket (now ts : Z) :
  (0 <= minutesUntil now ts)%Z /\
  ((ts - now < 30000)%Z -> minutesUntil now ts = 0%Z) /\
  ((30000 <= ts - now)%Z ->
   (60000 * minutesUntil now ts - 30000 <= ts - now
    < 60000 * minutesUntil now ts + 30000)%Z).
Proof.
  unfold minutesUntil.
  pose proof (Z.div_mod (ts - now + 30000) 60000 ltac:(lia)) as Hdm.
  pose proof (Z.mod_pos_bound (ts - now + 30000) 60000 ltac:(lia)) as Hmod.
  split; [lia |]. split.
  - intros Hsoon.
    assert ((ts - now + 30000) / 60000 <= 0)%Z; [|lia].
    destruct (Z.le_gt_cases ((ts - now + 30000) / 60000) 0) as [H | H]; [exact H | lia].
  - intros Hlater.
    assert (0 <= (ts - now + 30000) / 60000)%Z by (apply Z.div_pos; lia).
    rewrite Z.max_r by lia. lia.
Qed.

Lemma leMinutes_sorted_timed (l : list TrainArrival) :
  StronglySorted (fun a b => leMinutes a b = true) l ->
  (forall a, In a l -> timed a = true) ->
  StronglySorted
    (fun a b => exists x y, ta_minutes a = Some x /\ ta_minutes b = Some y /\ (x <= y)%Z)
    l.
Proof.
  induction 1 as [|a l Hs IH Hall]; intros Htimed; constructor.
  - apply IH. intros b Hb. apply Htimed. now right.
  - rewrite Forall_forall in *. intros b Hb.
    specialize (Hall b Hb). unfold leMinutes in Hall.
    pose proof (Htimed a (or_introl eq_refl)) as Ha.
    pose proof (Htimed b (or_intror Hb)) as Hb'.
    unfold timed in Ha, Hb'.
    destruct (ta_minutes a) as [x|]; [|discriminate].
    destruct (ta_minutes b) as [y|]; [|discriminate].
    exists x, y. apply Z.leb_le in Hall. auto.
Qed.

(** X29.  The arrivals the proxy returns: only the items whose arrival time
    is there and can be parsed, in ascending order of their minutes, items
    with equal minutes in the order of the tracker.  The minutes are the
    time from now to the arrival rounded to the nearest minute and never
    negative: a train due in less than half a minute, or overdue, shows 0.
    Every arrival has a route and a destination that are not empty. *)
Theorem trainArrivals_sorted_from_now (trim : string -> string)
    (dateParse : string -> option Z) (now : Z) (eta : Eta) :
  let candidates := filter timed (map (arrivalOf trim dateParse now) (etaList eta)) in
  let result := trainArrivals trim dateParse now eta in
  Permutation result candidates /\
  (List.length result <= List.length (etaList eta))%nat /\
  StronglySorted
    (fun a b => exists x y, ta_minutes a = Some x /\ ta_minutes b = Some y /\ (x <= y)%Z)
    result /\
  (forall m, filter (fun a => leMinutes a m && leMinutes m a) result
             = filter (fun a => leMinutes a m && leMinutes m a) candidates) /\
  Forall (fun a =>
            ta_route a <> "" /\ ta_destination a <> "" /\
            exists item ts,
              In item (etaList eta) /\ a = arrivalOf trim dateParse now item /\
              trimmed trim (arrT item) <> "" /\
              dateParse (trimmed trim (arrT item)) = Some ts /\
              ta_minutes a = Some (minutesUntil now ts) /\
              (0 <= minutesUntil now ts)%Z /\
              ((ts - now < 30000)%Z -> minutesUntil now ts = 0%Z) /\
              ((30000 <= ts - now)%Z ->
               (60000 * minutesUntil now ts - 30000 <= ts - now
                < 60000 * minutesUntil now ts + 30000)%Z))
    result.
Proof.
  intros candidates result.
  assert (Hperm : Permutation result candidates) by apply sortBy_perm.
  assert (Htimed : forall a, In a result -> timed a = true).
  { intros a Ha. apply sortBy_In in Ha. now apply filter_In in Ha. }
  split; [exact Hperm |]. split; [|split; [|split]].
  - unfold result, trainArrivals. rewrite sortBy_length.
    eapply Nat.le_trans; [apply filter_length_le |]. now rewrite length_map.
  - apply leMinutes_sorted_timed; [|exact Htimed].
    apply sortBy_sorted.
    + intros x y. unfold leMinutes.
      destruct (Z.leb_spec
                  (match ta_minutes x with Some v => v | None => 0%Z end)
                  (match ta_minutes y with Some v => v | None => 0%Z end));
        [now left | right; apply Z.leb_le; lia].
    + intros x y z. unfold leMinutes. rewrite !Z.leb_le. lia.
  - intros m. apply filter_sortBy.
    intros x y Hx Hy. apply andb_prop in Hx, Hy.
    destruct Hx as [Hxm _]. destruct Hy as [_ Hmy].
    unfold leMinutes in *. rewrite Z.leb_le in *. lia.
  - apply Forall_forall. intros a Ha.
    apply sortBy_In in Ha. apply filter_In in Ha. destruct Ha as [Ha Hta].
    apply in_map_iff in Ha. destruct Ha as (item & <- & Hitem).
    split; [apply orElse_nonempty; discriminate |].
    split; [apply orElse_nonempty; discriminate |].
    unfold timed in Hta. cbn [ta_minutes arrivalOf] in Hta.
    destruct (truthy (Some (trimmed trim (arrT item)))) eqn:Et; [|discriminate].
    destruct (dateParse (trimmed trim (arrT item))) as [ts|] eqn:Ep; [|discriminate].
    exists item, ts. split; [exact Hitem |]. split; [reflexivity |].
    split; [now apply truthy_nonempty |]. split; [exact Ep |].
    split; [cbn [ta_minutes arrivalOf]; now rewrite Et, Ep |].
    apply minutesUntil_bracket.
Qed.

(* ================================================================= *)
(** ** Environment file of the proxy *)

Section EnvFileFacts.

Variable trim : string -> string.

(** A line sets the name it defines, unless the name is set. *)
Lemma envLine_lineKey (env : JsMap.t string) (line : string) :
  match lineKey trim line with
  | Some key =>
      (JsMap.has key env = true /\ envLine trim env line = env) \/
      (JsMap.has key env = false /\
       exists value, envLine trim env line = JsMap.set key value env)
  | None => envLine trim env line = env
  end.
Proof.
  unfold lineKey, envLine.
  destruct (String.eqb (trim line) "" || startsWithChar "#"%char (trim line));
    [reflexivity |].
  destruct (splitAtEq (trim line)) as [[[|c before] behind]|]; try reflexivity.
  destruct (String.eqb (trim (String c before)) ""); [reflexivity |].
  destruct (JsMap.has (trim (String c before)) env) eqn:Ehas.
  - now left.
  - right. split; [reflexivity | eauto].
Qed.

Lemma has_set {V : Type} (k k0 : string) (v : V) (m : JsMap.t V) :
  JsMap.has k (JsMap.set k0 v m) = JsMap.has k m || String.eqb k k0.
Proof.
  unfold JsMap.has. destruct (String.eqb_spec k k0) as [-> | Hne].
  - rewrite JsMapFacts.get_set_same. now rewrite orb_true_r.
  - rewrite JsMapFacts.get_set_other by exact Hne. now rewrite orb_false_r.
Qed.

(** A line changes no name that is set. *)
Lemma envLine_keeps (env : JsMap.t string) (line key value : string) :
  JsMap.get key env = Some value -> JsMap.get key (envLine trim env line) = Some value.
Proof.
  intros Hget. pose proof (envLine_lineKey env line) as H.
  destruct (lineKey trim line) as [k|]; [|now rewrite H].
  destruct H as [[_ ->] | [Hhas [v ->]]]; [exact Hget |].
  rewrite JsMapFacts.get_set_other; [exact Hget |].
  intros ->. unfold JsMap.has in Hhas. now rewrite Hget in Hhas.
Qed.

Lemma envLines_keep (lines : list string) (key value : string) :
  forall env,
    JsMap.get key env = Some value ->
    JsMap.get key (fold_left (envLine trim) lines env) = Some value.
Proof.
  induction lines as [|line lines IH]; intros env Hget; [exact Hget |].
  cbn. apply IH. now apply envLine_keeps.
Qed.

Lemma has_get {V : Type} (k : string) (m : JsMap.t V) :
  JsMap.has k m = true -> exists v, JsMap.get k m = Some v.
Proof. unfold JsMap.has. destruct (JsMap.get k m); [eauto | discriminate]. Qed.

(** After the loop every name a line defines is set. *)
Lemma envLines_define (lines : list string) :
  forall env line key,
    In line lines -> lineKey trim line = Some key ->
    JsMap.has key (fold_left (envLine trim) lines env) = true.
Proof.
  induction lines as [|l lines IH]; intros env line key Hin Hkey; [contradiction |].
  cbn. destruct Hin as [-> | Hin]; [|now apply (IH _ line)].
  assert (Hset : JsMap.has key (envLine trim env line) = true).
  { pose proof (envLine_lineKey env line) as H. rewrite Hkey in H.
    destruct H as [[Hhas ->] | [_ [v ->]]]; [exact Hhas |].
    rewrite has_set, String.eqb_refl. apply orb_true_r. }
  apply has_get in Hset. destruct Hset as [v Hv].
  unfold JsMap.has. now rewrite (envLines_keep lines key v _ Hv).
Qed.

(** Lines whose names are all set change nothing. *)
Lemma envLines_idle (lines : list string) (env : JsMap.t string) :
  (forall line key, In line lines -> lineKey trim line = Some key ->
                    JsMap.has key env = true) ->
  fold_left (envLine trim) lines env = env.
Proof.
  induction lines as [|l lines IH]; intros Hall; [reflexivity |].
  cbn. assert (Hl : envLine trim env l = env).
  { pose proof (envLine_lineKey env l) as H.
    destruct (lineKey trim l) as [k|] eqn:Ek; [|exact H].
    destruct H as [[_ H] | [Hhas _]]; [exact H |].
    rewrite (Hall l k (or_introl eq_refl) Ek) in Hhas. discriminate. }
  rewrite Hl. apply IH. intros line key Hin. apply Hall. now right.
Qed.

End EnvFileFacts.

(** X30.  Loading the [.env] file never changes a variable that is already
    set in the environment, so that real environment variables win over the
    file; a first line for a name wins over the later ones, and loading the
    file a second time changes nothing; and without a file the environment
    stays as it is. *)
Theorem loadEnv_keeps_what_is_set (trim : string -> string) (raw : string)
    (env : JsMap.t string) :
  (forall key value,
      JsMap.get key env = Some value ->
      JsMap.get key (loadEnv trim (Some raw) env) = Some value) /\
  (forall before line behind key,
      splitLines raw = before ++ line :: behind ->
      lineKey trim line = Some key ->
      JsMap.get key (loadEnv trim (Some raw) env) =
      JsMap.get key (fold_left (envLine trim) (before ++ [line]) env)) /\
  loadEnv trim (Some raw) (loadEnv trim (Some raw) env) = loadEnv trim (Some raw) env /\
  loadEnv trim None env = env.
Proof.
  split; [|split; [|split; [|reflexivity]]].
  - intros key value. apply envLines_keep.
  - intros before line behind key Hsplit Hkey. unfold loadEnv.
    rewrite Hsplit.
    replace (before ++ line :: behind) with ((before ++ [line]) ++ behind)
      by (now rewrite <- app_assoc).
    rewrite fold_left_app.
    assert (Hhas : JsMap.has key (fold_left (envLine trim) (before ++ [line]) env) = true).
    { apply (envLines_define trim _ env line key); [|exact Hkey].
      apply in_or_app. right. now left. }
    apply has_get in Hhas. destruct Hhas as [v Hv].
    rewrite Hv. now apply envLines_keep.
  - unfold loadEnv. apply envLines_idle.
    intros line key. apply envLines_define.
Qed.
